(** * Catalog synchronization engine: a shallow embedding

    The scripts under [.github/scripts] (utils.py, update_source.py) keep a
    JSON catalog of sideloadable applications in sync with the releases of
    the tracked GitHub repositories; validate_apps.py checks the curated
    lists and add_app.py edits them.  This file embeds the functions of
    those scripts as Rocq functions and proves (or refutes) the properties
    the specification states about them.

    Conventions of the embedding:
    - a Python [str] is a [string]; the case conversions and the white
      space test are the ASCII ones (the strings of the curated lists and
      of the catalog are identifiers, slugs, URLs and ISO dates);
    - a JSON object with a fixed set of keys is a record, a key that the
      code reads with [.get] is an [option] field ([None] = key absent);
    - a Python exception is a value of [exn], a function that can raise
      returns an [outcome];
    - the network (the GitHub client and PIL) is a record of responses. *)

From Stdlib Require Import String Ascii List ZArith Lia Bool Arith PeanoNat Sorted.
Import ListNotations.
Set Warnings "-register-all".
Open Scope string_scope.
Open Scope list_scope.

(** * Part I: the embedding *)

(** ** Python string operations *)

Module PyStr.

Definition code (c : ascii) : nat := nat_of_ascii c.

Definition is_upper (c : ascii) : bool := (65 <=? code c)%nat && (code c <=? 90)%nat.
Definition is_lower (c : ascii) : bool := (97 <=? code c)%nat && (code c <=? 122)%nat.
Definition is_digit (c : ascii) : bool := (48 <=? code c)%nat && (code c <=? 57)%nat.

(** [c.isspace()] on ASCII: tab, LF, VT, FF, CR, FS, GS, RS, US, space. *)
Definition is_space (c : ascii) : bool :=
  ((9 <=? code c)%nat && (code c <=? 13)%nat) || ((28 <=? code c)%nat && (code c <=? 32)%nat).

Definition lower_char (c : ascii) : ascii :=
  if is_upper c then ascii_of_nat (code c + 32) else c.

Definition upper_char (c : ascii) : ascii :=
  if is_lower c then ascii_of_nat (code c - 32) else c.

Fixpoint map_chars (f : ascii -> ascii) (s : string) : string :=
  match s with
  | EmptyString => EmptyString
  | String c r => String (f c) (map_chars f r)
  end.

(** [s.lower()] and [s.upper()] *)
Definition lower : string -> string := map_chars lower_char.
Definition upper : string -> string := map_chars upper_char.

Fixpoint filter_chars (p : ascii -> bool) (s : string) : string :=
  match s with
  | EmptyString => EmptyString
  | String c r => if p c then String c (filter_chars p r) else filter_chars p r
  end.

(** [s.startswith(p)] *)
Fixpoint startswith (s p : string) : bool :=
  match p, s with
  | EmptyString, _ => true
  | String _ _, EmptyString => false
  | String a p', String b s' => Ascii.eqb a b && startswith s' p'
  end.

(** [s.endswith(suf)]: [suf] is [s] itself or a suffix of its tail. *)
Fixpoint endswith (s suf : string) : bool :=
  String.eqb s suf ||
  match s with
  | EmptyString => false
  | String _ r => endswith r suf
  end.

(** [needle in hay] *)
Fixpoint contains (needle hay : string) : bool :=
  startswith hay needle ||
  match hay with
  | EmptyString => false
  | String _ r => contains needle r
  end.

Fixpoint has_char (sep : ascii) (s : string) : bool :=
  match s with
  | EmptyString => false
  | String c r => Ascii.eqb c sep || has_char sep r
  end.

(** [s.split(sep)[-1]]: what follows the last [sep] (all of [s] when
    there is none). *)
Fixpoint after_last (sep : ascii) (s : string) : string :=
  match s with
  | EmptyString => EmptyString
  | String c r =>
      if has_char sep r then after_last sep r
      else if Ascii.eqb c sep then r else s
  end.

(** [s.split(sep)[0]]: what precedes the first [sep]. *)
Fixpoint before_first (sep : ascii) (s : string) : string :=
  match s with
  | EmptyString => EmptyString
  | String c r => if Ascii.eqb c sep then EmptyString else String c (before_first sep r)
  end.

(** [s.replace(old, '')] for a non-empty [old]: the occurrences are
    found left to right and do not overlap; [skip] counts the
    characters of the current occurrence still to drop. *)
Fixpoint delete_from (old s : string) (skip : nat) : string :=
  match s with
  | EmptyString => EmptyString
  | String c r =>
      match skip with
      | S k => delete_from old r k
      | O =>
          if startswith s old then delete_from old r (String.length old - 1)
          else String c (delete_from old r 0)
      end
  end.

(** [s.replace(old, '')]; with [old] empty Python inserts the empty
    replacement between the characters, which gives [s] back. *)
Definition delete_all (old s : string) : string :=
  match old with
  | EmptyString => s
  | String _ _ => delete_from old s 0
  end.

Fixpoint lstrip_by (p : ascii -> bool) (s : string) : string :=
  match s with
  | EmptyString => EmptyString
  | String c r => if p c then lstrip_by p r else s
  end.

Fixpoint rstrip_by (p : ascii -> bool) (s : string) : string :=
  match s with
  | EmptyString => EmptyString
  | String c r =>
      match rstrip_by p r with
      | EmptyString => if p c then EmptyString else String c EmptyString
      | r' => String c r'
      end
  end.

(** [s.strip()] *)
Definition strip (s : string) : string := rstrip_by is_space (lstrip_by is_space s).

(** [s.lstrip(chars)] for a one-character [chars] *)
Definition lstrip_char (c : ascii) : string -> string := lstrip_by (Ascii.eqb c).

(** Python compares strings code point by code point. *)
Fixpoint leb (s t : string) : bool :=
  match s, t with
  | EmptyString, _ => true
  | String _ _, EmptyString => false
  | String a s', String b t' =>
      if (code a <? code b)%nat then true
      else if (code b <? code a)%nat then false
      else leb s' t'
  end.

(** [s >= t] *)
Definition geb (s t : string) : bool := leb t s.

(** The characters of [s] as one-character strings: what a [for] loop
    over a Python string yields. *)
Fixpoint chars (s : string) : list string :=
  match s with
  | EmptyString => []
  | String c r => String c EmptyString :: chars r
  end.

(** Truthiness of a string: [bool(s)]. *)
Definition truthy (s : string) : bool := negb (String.eqb s EmptyString).

End PyStr.

Import PyStr.

(** ** Name normalizer *)

(** Modelled from the spec: [normalize_name] is imported by
    update_source.py from utils, which does not define it.  Section 4.1 of
    the specification gives its contract: the canonical form is obtained
    by lower-casing and collapsing all separator characters (spaces,
    hyphens, underscores, punctuation); what remains are the letters and
    digits of the lower-cased name. *)
Definition normalize_name (s : string) : string :=
  filter_chars (fun c => is_lower c || is_digit c) (lower s).

(** ** Identifier disambiguator (update_source.py, apply_bundle_id_suffix) *)

Definition suffixes : list string :=
  ["nightly"; "beta"; "alpha"; "dev"; "test"; "experimental";
   "pre-release"; "jit"; "sidestore"].

(** [if not bundle_id.endswith(f".{s}"): bundle_id = f"{bundle_id}.{s}"] *)
Definition add_suffix (bundle_id s : string) : string :=
  if endswith bundle_id ("." ++ s)%string then bundle_id
  else (bundle_id ++ "." ++ s)%string.

(** [re.sub(r'[^a-z0-9]', '', extra)] *)
Definition keep_lower_alnum : string -> string :=
  filter_chars (fun c => is_lower c || is_digit c).

Definition apply_bundle_id_suffix (bundle_id app_name repo_name : string) : string :=
  if negb (truthy bundle_id) then bundle_id
  else
    let name_lower := lower app_name in
    match find (fun s => contains s name_lower) suffixes with
    | Some s => add_suffix bundle_id s
    | None =>
        let repo_name_clean := lower (after_last "/" repo_name) in
        if negb (String.eqb (normalize_name app_name) (normalize_name repo_name_clean))
        then
          let extra := strip (delete_all repo_name_clean name_lower) in
          let extra_clean := keep_lower_alnum extra in
          if truthy extra_clean && (2 <? String.length extra_clean)%nat
          then add_suffix bundle_id extra_clean
          else bundle_id
        else bundle_id
    end.

(** ** Sorting

    [sorted] and [list.sort] are stable.  [insert_by] puts [x], which
    stood before the elements of [l] in the original list, behind the
    elements that go strictly before it and in front of the others, so
    elements with equal keys keep their order. *)

Section Sorting.
Context {A : Type}.
Variable before : A -> A -> bool.

Fixpoint insert_by (x : A) (l : list A) : list A :=
  match l with
  | [] => [x]
  | y :: r => if before y x then y :: insert_by x r else x :: l
  end.

Fixpoint stable_sort (l : list A) : list A :=
  match l with
  | [] => []
  | x :: r => insert_by x (stable_sort r)
  end.
End Sorting.

(** [sorted(l, key=key, reverse=True)] with string keys *)
Definition sorted_desc {A : Type} (key : A -> string) : list A -> list A :=
  stable_sort (fun y x => negb (leb (key y) (key x))).

(** [l.sort(key=key)] with integer keys *)
Definition sorted_asc {A : Type} (key : A -> Z) : list A -> list A :=
  stable_sort (fun y x => (key y <? key x)%Z).

(** [l.sort(key=key, reverse=True)] with integer keys *)
Definition sorted_desc_Z {A : Type} (key : A -> Z) : list A -> list A :=
  stable_sort (fun y x => (key x <? key y)%Z).

(** ** Upstream data (GitHub API) *)

Record asset := {
  asset_name : string;
  browser_download_url : string;
  asset_size : Z
}.

Record release := {
  tag_name : string;
  draft : bool;
  prerelease : bool;
  published_at : option string;   (* null for a release never published *)
  body : option string;           (* null when the release has no notes *)
  assets : list asset
}.

Record repo_info := {
  description : option string;
  default_branch : option string;
  owner_avatar_url : option string   (* repo_info['owner']['avatar_url'] *)
}.

(** A decoded image: its size and, for the colour extractor, the result
    of [img.convert("RGBA").resize((100, 100)).getcolors(10000)], a list
    of (count, (r, g, b, a)). *)
Definition rgba : Type := Z * Z * Z * Z.

Record image := {
  img_width : Z;
  img_height : Z;
  img_colors : list (Z * rgba)
}.

(** The content of the [Info.plist] of an IPA. *)
Record plist := {
  CFBundleShortVersionString : option string;
  CFBundleVersion : option string;
  CFBundleIdentifier : option string
}.

Record ipa_file := {
  ipa_plist : option plist;     (* None: no Info.plist found, or parsing raised *)
  ipa_sha256 : string           (* hashlib.sha256 of the file *)
}.

(** ** The environment of a run

    Everything the scripts obtain from outside, as fixed responses: the
    [re] library, the GitHub API behind [GitHubClient], the image
    decoder and the downloads.  [None] is the "unavailable" answer of a
    call ([GitHubClient.get] returns [None] when the request fails). *)
Record Env := {
  (** [re.compile(p, re.IGNORECASE)]; [None] when [p] does not compile,
      else the predicate [pattern.search] *)
  re_compile_i : string -> option (string -> bool);
  (** [re.sub(p, '', s)] and [re.findall(p, s)] for the fixed patterns of
      [select_best_ipa] *)
  re_sub_empty : string -> string -> string;
  re_findall : string -> string -> list string;
  (** GET /repos/{repo}/releases, when the answer is a list *)
  api_releases : string -> option (list release);
  (** GET /repos/{repo} *)
  api_repo_info : string -> option repo_info;
  (** GET /repos/{repo}/git/trees/HEAD?recursive=1: the paths of the
      ['tree'] member, [None] when the call fails or has no such member *)
  api_git_tree : string -> option (list string);
  (** GET /repos/{repo}/contents/: the names of the root entries, [None]
      when the call fails or the answer is not a list *)
  api_contents : string -> option (list string);
  (** [client.get(url)] for an image URL: the response content *)
  http_get : string -> option string;
  (** [Image.open(BytesIO(content))]; [None] when PIL raises *)
  image_open : string -> option image;
  (** the streamed download of an asset; [None] when it raises *)
  download_ipa : string -> option ipa_file
}.

(** ** Release resolver (utils.py, GitHubClient.get_latest_release) *)

(** [def get_date(r): return r.get('published_at') or ''] *)
Definition get_date (r : release) : string :=
  match published_at r with
  | Some d => d
  | None => ""
  end.

(** The releases left after the draft and the tag filters; an invalid
    [tag_regex] is logged and the filter is skipped. *)
Definition active_releases (env : Env) (releases : list release)
    (tag_regex : option string) : list release :=
  let active := filter (fun r => negb (draft r)) releases in
  match tag_regex with
  | Some re =>
      if truthy re then
        match re_compile_i env re with
        | Some search => filter (fun r => search (tag_name r)) active
        | None => active
        end
      else active
  | None => active
  end.

(** The body of [get_latest_release] once the list of releases is
    there. *)
Definition latest_release (env : Env) (releases : list release)
    (prefer_pre_release : bool) (tag_regex : option string) : option release :=
  match active_releases env releases tag_regex with
  | [] => None
  | active =>
      let stable := filter (fun r => negb (prerelease r)) active in
      let pre := filter (fun r => prerelease r) active in
      if prefer_pre_release then
        let sorted_pre := sorted_desc get_date pre in
        let sorted_stable := sorted_desc get_date stable in
        let take_pre :=
          match sorted_pre with
          | p :: _ =>
              match sorted_stable with
              | [] => true
              | s :: _ => geb (get_date p) (get_date s)
              end
          | [] => false
          end in
        if take_pre then hd_error sorted_pre
        else
          match sorted_stable with
          | s :: _ => Some s
          | [] => hd_error sorted_pre
          end
      else
        match stable with
        | _ :: _ => hd_error (sorted_desc get_date stable)
        | [] => hd_error (sorted_desc get_date active)
        end
  end.

Definition get_latest_release (env : Env) (repo : string)
    (prefer_pre_release : bool) (tag_regex : option string) : option release :=
  match api_releases env repo with
  | None => None
  | Some releases => latest_release env releases prefer_pre_release tag_regex
  end.

(** The specification's words for the resolver.  [most_recent l] is the
    release of [l] with the greatest [publishedAt], the earliest in list
    order among equals. *)
Fixpoint most_recent (l : list release) : option release :=
  match l with
  | [] => None
  | r :: rest =>
      match most_recent rest with
      | Some m => if geb (get_date r) (get_date m) then Some r else Some m
      | None => Some r
      end
  end.

(** Section 4.2 as written: with [preferPreRelease], the most recent
    pre-release unless a stable release is at least as recent. *)
Definition resolver_as_specified (candidates : list release) : option release :=
  match most_recent (filter (fun r => prerelease r) candidates),
        most_recent (filter (fun r => negb (prerelease r)) candidates) with
  | Some p, Some s => if geb (get_date s) (get_date p) then Some s else Some p
  | Some p, None => Some p
  | None, Some s => Some s
  | None, None => None
  end.

(** What the code does: the stable release wins only when it is strictly
    more recent. *)
Definition resolver_strict (candidates : list release) : option release :=
  match most_recent (filter (fun r => prerelease r) candidates),
        most_recent (filter (fun r => negb (prerelease r)) candidates) with
  | Some p, Some s => if geb (get_date p) (get_date s) then Some p else Some s
  | Some p, None => Some p
  | None, Some s => Some s
  | None, None => None
  end.

(** A stable release, and a stable release and a pre-release published at
    the same instant. *)
Definition rel_stable (date : string) : release :=
  {| tag_name := "v1.0.0"; draft := false; prerelease := false;
     published_at := Some date; body := None; assets := [] |}.

Definition rel_stable_june : release := rel_stable "2024-06-01T00:00:00Z".

Definition rel_pre_june : release :=
  {| tag_name := "v1.1.0-beta"; draft := false; prerelease := true;
     published_at := Some "2024-06-01T00:00:00Z"; body := None; assets := [] |}.

(** An environment in which every call is unavailable and no pattern
    compiles. *)
Definition offline : Env :=
  {| re_compile_i := fun _ => None;
     re_sub_empty := fun _ s => s;
     re_findall := fun _ _ => [];
     api_releases := fun _ => None;
     api_repo_info := fun _ => None;
     api_git_tree := fun _ => None;
     api_contents := fun _ => None;
     http_get := fun _ => None;
     image_open := fun _ => None;
     download_ipa := fun _ => None |}.

(** ** Exceptions *)

Inductive exn : Type :=
| AttributeError      (* a method called on None *)
| KeyError            (* d[k] on a dict without k *)
| TypeError
| JSONDecodeError
| OSError
| SystemExit (status : Z).

Inductive outcome (A : Type) : Type :=
| Return (a : A)
| Raise (e : exn).
Arguments Return {A} a.
Arguments Raise {A} e.

Definition bind {A B : Type} (m : outcome A) (k : A -> outcome B) : outcome B :=
  match m with
  | Return a => k a
  | Raise e => Raise e
  end.

Notation "'do' x <- m ; k" := (bind m (fun x => k))
  (at level 10, x name, m at level 100, k at level 200).

(** ** Images (update_source.py, is_square_image and extract_dominant_color) *)

(** [not image_url or not image_url.startswith(('http://', 'https://'))] *)
Definition is_http_url (url : string) : bool :=
  truthy url && (startswith url "http://" || startswith url "https://").

(** [(1.0 - 0.05) <= width / height <= (1.0 + 0.05)] for a positive
    height.  The quotient of two image dimensions is either 19/20 (resp.
    21/20), which rounds to the same double as the bound, or further from
    it than any rounding error, so the comparison of doubles agrees with
    the exact one. *)
Definition within_tolerance (width height : Z) : bool :=
  ((95 * height <=? 100 * width) && (100 * width <=? 105 * height))%Z.

Definition is_square_image (env : Env) (image_url : string) : bool :=
  if negb (is_http_url image_url) then false
  else
    match http_get env image_url with
    | None => false                              (* if not response: return False *)
    | Some content =>
        match image_open env content with
        | None => true                           (* except: return True *)
        | Some img =>
            if (img_height img =? 0)%Z then true (* ZeroDivisionError *)
            else within_tolerance (img_width img) (img_height img)
        end
    end.

Definition hex_digit (n : Z) : ascii :=
  if (n <? 10)%Z then ascii_of_nat (48 + Z.to_nat n)
  else ascii_of_nat (87 + Z.to_nat n).

(** ['{:02x}'.format(n)] for a channel value, [0 <= n < 256] *)
Definition format_02x (n : Z) : string :=
  String (hex_digit (n / 16)) (String (hex_digit (n mod 16)) EmptyString).

(** A colour of [getcolors] survives the filters when it is not nearly
    transparent, not nearly white and not nearly black. *)
Definition discarded (color : rgba) : bool :=
  let '(r, g, b, a) := color in
  ((a <? 10) ||
   ((240 <? r) && (240 <? g) && (240 <? b)) ||
   ((r <? 15) && (g <? 15) && (b <? 15)))%Z.

(** One turn of the loop over [colors]; the state is
    [(max_count, dominant)]. *)
Definition dominant_step (st : Z * (Z * Z * Z)) (entry : Z * rgba) : Z * (Z * Z * Z) :=
  let '(max_count, dominant) := st in
  let '(count, color) := entry in
  if discarded color then st
  else
    let '(r, g, b, _) := color in
    if (max_count <? count)%Z then (count, (r, g, b)) else st.

Definition extract_dominant_color (env : Env) (image_url : string) : option string :=
  if negb (is_http_url image_url) then None
  else
    match http_get env image_url with
    | None => None
    | Some content =>
        match image_open env content with
        | None => None                           (* except: return None *)
        | Some img =>
            match img_colors img with
            | [] => None                         (* if not colors: return None *)
            | colors =>
                let '(_, (r, g, b)) := fold_left dominant_step colors (0%Z, (0%Z, 0%Z, 0%Z)) in
                Some (upper ("#" ++ format_02x r ++ format_02x g ++ format_02x b)%string)
            end
        end
    end.

(** [tint_color = extracted if extracted else '#000000'] *)
Definition tint_or_default (extracted : option string) : string :=
  match extracted with
  | Some c => if truthy c then c else "#000000"
  | None => "#000000"
  end.

(** ** Icon discoverer (utils.py, find_best_icon) *)

Definition valid_exts : list string := [".png"; ".jpg"; ".jpeg"; ".webp"; ".svg"].

(** [os.path.basename(p)] *)
Definition basename (p : string) : string := after_last "/" p.

Definition score_path (path : string) : Z :=
  let p := lower path in
  let folder : Z :=
    (if contains "appicon.appiconset" p then 100
     else if contains "ios/" p then 50
     else if contains "assets/" p then 20
     else if contains "public/" p then 10
     else 0)%Z in
  let name := basename p in
  let file : Z :=
    (if contains "icon" name then 30
     else if contains "logo" name then 20
     else if contains "app" name then 10
     else 0)%Z in
  let resolution : Z :=
    (if contains "1024" name then 15
     else if contains "512" name then 10
     else if contains "120" name then 5
     else 0)%Z in
  (folder + file + resolution
   - (if contains "android" p then 50 else 0)
   - (if contains "small" name then 10 else 0)
   - (if contains "toolbar" name then 20 else 0))%Z.

(** Modelled from the spec: [score_icon_path] is imported by
    update_source.py from utils, which does not define it.  Section 4.7
    compares "the discovered icon's path score" with "the current icon's
    path score": the score of section 4.4, which is [score_path]. *)
Definition score_icon_path (url : string) : Z := score_path url.

(** The scored candidates of a tree, in tree order: image paths with a
    positive score. *)
Definition icon_candidates (tree : list string) : list (Z * string) :=
  flat_map (fun path =>
    if existsb (fun ext => endswith (lower path) ext) valid_exts then
      let s := score_path path in
      if (0 <? s)%Z then [(s, path)] else []
    else []) tree.

Definition find_best_icon (env : Env) (repo : string) : outcome (option string) :=
  let tree_data :=
    match api_git_tree env repo with
    | Some tree => Some tree
    | None =>
        match api_contents env repo with
        | Some (c :: cs) => Some (c :: cs)
        | _ => None
        end
    end in
  match tree_data with
  | None => Return None
  | Some tree =>
      match sorted_desc_Z fst (icon_candidates tree) with
      | [] =>
          (* last resort: the owner's avatar *)
          match api_repo_info env repo with
          | Some info => Return (owner_avatar_url info)
          | None => Return None
          end
      | (_, best_path) :: _ =>
          match api_repo_info env repo with
          | None => Raise AttributeError          (* repo_info.get on None *)
          | Some info =>
              let branch := match default_branch info with
                            | Some b => b
                            | None => "main"
                            end in
              Return (Some ("https://raw.githubusercontent.com/" ++ repo ++ "/"
                            ++ branch ++ "/" ++ best_path)%string)
          end
      end
  end.

(** The loop of [process_app] over the result of [find_best_icon]:
<<
    for cand in repo_icons:
        if is_square_image(cand, client): repo_icon = cand; break
    else: repo_icon = repo_icons[0]
>>
    [repo_icons] is the string that [find_best_icon] returned, so [cand]
    ranges over its characters. *)
Definition first_square_or_top (env : Env) (repo_icons : option string) : option string :=
  match repo_icons with
  | None => None
  | Some s =>
      if truthy s then
        match find (is_square_image env) (chars s) with
        | Some cand => Some cand
        | None => hd_error (chars s)
        end
      else None
  end.

(** ** Curated list and catalog *)

(** An entry of the curated list (apps.json). *)
Record app_config := {
  cfg_name : string;               (* 'name' *)
  github_repo : string;
  icon_url : option string;
  tint_color : option string;
  pre_release : option bool;
  tag_regex : option string;
  ipa_regex : option string
}.

(** JSON values the engine stores or carries along without reading
    them. *)
Inductive json : Type :=
| JNull
| JBool (b : bool)
| JNum (n : Z)
| JStr (s : string)
| JArr (l : list json)
| JObj (members : list (string * json)).

(** A version record of an entry's ['versions'] list. *)
Record version_entry := {
  v_version : string;
  v_date : string;
  v_localizedDescription : string;
  v_downloadURL : option string;
  v_size : Z;
  v_sha256 : string
}.

(** An entry of the catalog (source.json); the fields are the JSON keys
    the engine reads or writes. *)
Record app_entry := {
  name : option string;
  githubRepo : option string;
  bundleIdentifier : option string;
  developerName : option string;
  version : option string;
  versionDate : option string;
  versionDescription : option string;
  downloadURL : option string;
  localizedDescription : option string;
  iconURL : option string;
  tintColor : option string;
  size : option Z;
  sha256 : option string;
  permissions : option json;
  screenshotURLs : option json;
  versions : option (list version_entry)
}.

Record source_data := {
  src_name : string;               (* 'name' *)
  src_identifier : string;         (* 'identifier' *)
  apps : list app_entry;
  news : list json
}.

(** *** Assignments to the keys of an entry *)

Definition set_identity (repo app_name : string) (e : app_entry) : app_entry :=
  {| name := Some app_name; githubRepo := Some repo;
     bundleIdentifier := bundleIdentifier e; developerName := developerName e;
     version := version e; versionDate := versionDate e;
     versionDescription := versionDescription e; downloadURL := downloadURL e;
     localizedDescription := localizedDescription e; iconURL := iconURL e;
     tintColor := tintColor e; size := size e; sha256 := sha256 e;
     permissions := permissions e; screenshotURLs := screenshotURLs e;
     versions := versions e |}.

Definition set_bundleIdentifier (v : string) (e : app_entry) : app_entry :=
  {| name := name e; githubRepo := githubRepo e;
     bundleIdentifier := Some v; developerName := developerName e;
     version := version e; versionDate := versionDate e;
     versionDescription := versionDescription e; downloadURL := downloadURL e;
     localizedDescription := localizedDescription e; iconURL := iconURL e;
     tintColor := tintColor e; size := size e; sha256 := sha256 e;
     permissions := permissions e; screenshotURLs := screenshotURLs e;
     versions := versions e |}.

Definition set_iconURL (v : string) (e : app_entry) : app_entry :=
  {| name := name e; githubRepo := githubRepo e;
     bundleIdentifier := bundleIdentifier e; developerName := developerName e;
     version := version e; versionDate := versionDate e;
     versionDescription := versionDescription e; downloadURL := downloadURL e;
     localizedDescription := localizedDescription e; iconURL := Some v;
     tintColor := tintColor e; size := size e; sha256 := sha256 e;
     permissions := permissions e; screenshotURLs := screenshotURLs e;
     versions := versions e |}.

Definition set_tintColor (v : string) (e : app_entry) : app_entry :=
  {| name := name e; githubRepo := githubRepo e;
     bundleIdentifier := bundleIdentifier e; developerName := developerName e;
     version := version e; versionDate := versionDate e;
     versionDescription := versionDescription e; downloadURL := downloadURL e;
     localizedDescription := localizedDescription e; iconURL := iconURL e;
     tintColor := Some v; size := size e; sha256 := sha256 e;
     permissions := permissions e; screenshotURLs := screenshotURLs e;
     versions := versions e |}.

(** [app_entry.pop('permissions', None)] *)
Definition pop_permissions (e : app_entry) : app_entry :=
  {| name := name e; githubRepo := githubRepo e;
     bundleIdentifier := bundleIdentifier e; developerName := developerName e;
     version := version e; versionDate := versionDate e;
     versionDescription := versionDescription e; downloadURL := downloadURL e;
     localizedDescription := localizedDescription e; iconURL := iconURL e;
     tintColor := tintColor e; size := size e; sha256 := sha256 e;
     permissions := None; screenshotURLs := screenshotURLs e;
     versions := versions e |}.

(** [app_entry['versions'].insert(0, new_version_entry)] followed by
    [app_entry.update({...})] *)
Definition record_new_version (v : version_entry) (history : list version_entry)
    (main_desc bundle_id : string) (e : app_entry) : app_entry :=
  {| name := name e; githubRepo := githubRepo e;
     bundleIdentifier := Some bundle_id; developerName := developerName e;
     version := Some (v_version v); versionDate := Some (v_date v);
     versionDescription := Some (v_localizedDescription v);
     downloadURL := v_downloadURL v;
     localizedDescription := Some main_desc; iconURL := iconURL e;
     tintColor := tintColor e; size := Some (v_size v); sha256 := Some (v_sha256 v);
     permissions := permissions e; screenshotURLs := screenshotURLs e;
     versions := Some (v :: history) |}.

Definition with_apps (l : list app_entry) (s : source_data) : source_data :=
  {| src_name := src_name s; src_identifier := src_identifier s;
     apps := l; news := news s |}.

Definition with_icon_url (v : string) (c : app_config) : app_config :=
  {| cfg_name := cfg_name c; github_repo := github_repo c; icon_url := Some v;
     tint_color := tint_color c; pre_release := pre_release c;
     tag_regex := tag_regex c; ipa_regex := ipa_regex c |}.

(** *** Small helpers for optional keys *)

(** [d.get(k) == s] *)
Definition get_is (o : option string) (s : string) : bool :=
  match o with
  | Some x => String.eqb x s
  | None => false
  end.

(** truthiness of [d.get(k)] *)
Definition get_truthy (o : option string) : bool :=
  match o with
  | Some x => truthy x
  | None => false
  end.

(** [d.get(k) or default] *)
Definition get_or (default : string) (o : option string) : string :=
  match o with
  | Some x => if truthy x then x else default
  | None => default
  end.

Fixpoint find_index {A : Type} (p : A -> bool) (l : list A) : option nat :=
  match l with
  | [] => None
  | x :: r => if p x then Some 0 else option_map S (find_index p r)
  end.

(** The list [l] with its element of index [k] replaced by [x]: the
    effect on the list of mutating the object it holds at [k]. *)
Fixpoint replace_nth {A : Type} (k : nat) (x : A) (l : list A) : list A :=
  match l, k with
  | [], _ => []
  | _ :: r, O => x :: r
  | y :: r, S k' => y :: replace_nth k' x r
  end.

(** ** Asset resolver (update_source.py, select_best_ipa) *)

Definition exclude_patterns : list string :=
  ["-remote"; "-hv"; "-se"; "-jailbroken"; "-macos"; "-linux"; "-windows"].

(** The part of a file name in front of its last dot, if it has one. *)
Fixpoint before_last_dot (b : string) : option string :=
  match b with
  | EmptyString => None
  | String c r =>
      match before_last_dot r with
      | Some root => Some (String c root)
      | None => if Ascii.eqb c "." then Some EmptyString else None
      end
  end.

(** [os.path.splitext(p)[0]] for a file name without directory: the
    extension starts at the last dot, unless only dots precede it. *)
Definition splitext_root (p : string) : string :=
  match before_last_dot p with
  | Some root =>
      if truthy (filter_chars (fun c => negb (Ascii.eqb c ".")) root) then root else p
  | None => p
  end.

Definition select_best_ipa (env : Env) (assets : list asset) (cfg : app_config) : option asset :=
  let ipa_assets := filter (fun a => endswith (lower (asset_name a)) ".ipa") assets in
  match ipa_assets with
  | [] => None
  | [a] => Some a
  | first :: _ =>
      (* 1. regex match (user override) *)
      let by_regex :=
        match ipa_regex cfg with
        | Some re =>
            if truthy re then
              match re_compile_i env re with
              | Some search => find (fun a => search (asset_name a)) ipa_assets
              | None => None
              end
            else None
        | None => None
        end in
      match by_regex with
      | Some a => Some a
      | None =>
          (* 2. fuzzy match with name or repo name *)
          let norm_app_name := normalize_name (cfg_name cfg) in
          let norm_repo_name := normalize_name (after_last "/" (github_repo cfg)) in
          let name_clean := re_sub_empty env "\s*\((.*?)\)" (cfg_name cfg) in
          let name_words := re_findall env "[a-zA-Z0-9]{3,}" (lower name_clean) in
          let repo_words := re_findall env "[a-zA-Z0-9]{3,}" (lower (github_repo cfg)) in
          let flavor_keywords :=
            filter (fun w => negb (existsb (String.eqb w) repo_words))
                   (nodup string_dec name_words) in
          let norm_base := fun a => normalize_name (splitext_root (asset_name a)) in
          match find (fun a => String.eqb (norm_base a) norm_app_name
                               || String.eqb (norm_base a) norm_repo_name) ipa_assets with
          | Some a => Some a
          | None =>
              let score := fun a =>
                ((if contains norm_app_name (norm_base a) then 10 else 0)
                 + (if contains (norm_base a) norm_app_name then 5 else 0)
                 + 20 * Z.of_nat (List.length
                     (filter (fun kw => contains kw (lower (splitext_root (asset_name a))))
                             flavor_keywords)))%Z in
              let scored := sorted_desc_Z fst (map (fun a => (score a, a)) ipa_assets) in
              let by_score :=
                match scored with
                | (s, a) :: _ => if (0 <? s)%Z then Some a else None
                | [] => None
                end in
              match by_score with
              | Some a => Some a
              | None =>
                  (* 3. exclude common flavors; 4. fallback *)
                  match filter (fun a => negb (existsb (fun p => contains p (lower (asset_name a)))
                                                       exclude_patterns)) ipa_assets with
                  | a :: _ => Some a
                  | [] => Some first
                  end
              end
          end
      end
  end.

(** ** Catalog reconciler (update_source.py, process_app) *)

(** [get_ipa_metadata(ipa_path, default_bundle_id)]: the version and the
    bundle identifier ([None] for the triple of [None]s). *)
Definition get_ipa_metadata (file : ipa_file) (default_bundle_id : string)
    : option (string * string) :=
  match ipa_plist file with
  | None => None
  | Some pl =>
      Some (match CFBundleShortVersionString pl with Some v => v | None => "0.0.0" end,
            match CFBundleIdentifier pl with Some b => b | None => default_bundle_id end)
  end.

(** The entry that a curated app is matched with, as an index in
    [existing_source['apps']]: both repo and name, else the only entry of
    the repo. *)
Definition find_entry (entries : list app_entry) (repo app_name : string) : option nat :=
  match find_index (fun a => get_is (githubRepo a) repo && get_is (name a) app_name) entries with
  | Some k => Some k
  | None =>
      match filter (fun a => get_is (githubRepo a) repo) entries with
      | [_] => find_index (fun a => get_is (githubRepo a) repo) entries
      | _ => None
      end
  end.

(** [config_icon if config_icon and config_icon not in ['None', '_No response_']] *)
Definition usable_icon (config_icon : option string) : bool :=
  match config_icon with
  | Some u => truthy u && negb (String.eqb u "None" || String.eqb u "_No response_")
  | None => false
  end.

(** The choice between the current icon and the one found in the
    repository. *)
Definition choose_icon (env : Env) (best_icon repo_icon : option string) : option string :=
  if get_truthy repo_icon then
    if negb (get_truthy best_icon) then repo_icon
    else
      let current := match best_icon with Some u => u | None => "" end in
      let found := match repo_icon with Some u => u | None => "" end in
      let score_current := score_icon_path current in
      let score_repo := score_icon_path found in
      let current_is_square := is_square_image env current in
      let repo_is_square := is_square_image env found in
      if repo_is_square && negb current_is_square then repo_icon
      else if (score_current <? score_repo)%Z then repo_icon
      else best_icon
  else best_icon.

(** The metadata refresh of a matched entry (the body of
    [if app_entry:]). *)
Definition refresh_entry (env : Env) (cfg : app_config) (e : app_entry) : outcome app_entry :=
  let repo := github_repo cfg in
  let app_name := cfg_name cfg in
  let e := set_identity repo app_name e in
  (* 1. bundle identifier *)
  let e :=
    match bundleIdentifier e with
    | Some old_id => set_bundleIdentifier (apply_bundle_id_suffix old_id app_name repo) e
    | None => e
    end in
  (* 2. icon *)
  let config_icon := icon_url cfg in
  let current_icon := iconURL e in
  let best_icon := if usable_icon config_icon then config_icon else current_icon in
  do repo_icons <- find_best_icon env repo;
  let repo_icon := first_square_or_top env repo_icons in
  let best_icon := choose_icon env best_icon repo_icon in
  let e :=
    match best_icon with
    | Some u => if truthy u then set_iconURL u e else e
    | None => e
    end in
  (* tint *)
  do e <-
    if get_truthy (tint_color cfg) then Return (set_tintColor (get_or "" (tint_color cfg)) e)
    else if negb (get_truthy (tintColor e)) || get_is (tintColor e) "#000000" then
      match iconURL e with
      | None => Raise KeyError           (* app_entry['iconURL'] *)
      | Some u =>
          match extract_dominant_color env u with
          | Some c => if truthy c then Return (set_tintColor c e) else Return e
          | None => Return e
          end
      end
    else Return e;
  Return (pop_permissions e).

(** The write-back of an auto-discovered icon to the curated list:
<<
    orig_config = next((item for item in apps_list_to_update
                        if item.get('github_repo') == repo), None)
    if orig_config:
        if not orig_config.get('icon_url'):
            orig_config['icon_url'] = found_icon_auto
>> *)
Definition sync_icon (found_icon_auto : option string) (repo : string)
    (apps_list_to_update : option (list app_config)) : option (list app_config) :=
  match found_icon_auto, apps_list_to_update with
  | Some icon, Some l =>
      if truthy icon then
        match find_index (fun item => String.eqb (github_repo item) repo) l with
        | Some k =>
            match nth_error l k with
            | Some orig_config =>
                if negb (get_truthy (icon_url orig_config))
                then Some (replace_nth k (with_icon_url icon orig_config) l)
                else Some l
            | None => Some l
            end
        | None => Some l
        end
      else Some l
  | _, _ => apps_list_to_update
  end.

(** [any(v.get('downloadURL') == download_url for v in app_entry.get('versions', []))] *)
Definition has_version (download_url : string) (e : app_entry) : bool :=
  existsb (fun v => get_is (v_downloadURL v) download_url)
          (match versions e with Some l => l | None => [] end).

(** The icon of a new entry: the configured one, else the discovered
    one. *)
Definition new_entry_icon (env : Env) (cfg : app_config) : outcome string :=
  let icon := match icon_url cfg with Some u => u | None => "" end in
  if negb (truthy icon) || String.eqb icon "None" || String.eqb icon "_No response_" then
    do icon_candidates <- find_best_icon env (github_repo cfg);
    match first_square_or_top env icon_candidates with
    | Some u => Return u
    | None => Return icon
    end
  else Return icon.

(** The phases of [process_app], in the order of the source. *)

(** [if app_entry:] the metadata refresh, in place, of the entry matched
    at index [k]. *)
Definition refresh_matched (env : Env) (cfg : app_config) (matched : option nat)
    (existing_source : source_data) : outcome source_data :=
  match matched with
  | Some k =>
      match nth_error (apps existing_source) k with
      | Some e =>
          do e' <- refresh_entry env cfg e;
          Return (with_apps (replace_nth k e' (apps existing_source)) existing_source)
      | None => Return existing_source
      end
  | None => Return existing_source
  end.

(** The release and the IPA asset of a curated app; [None] stands for
    "No release found" and "No IPA found". *)
Definition resolve_asset (env : Env) (cfg : app_config) : option (release * asset) :=
  let prefer := match pre_release cfg with Some b => b | None => false end in
  match get_latest_release env (github_repo cfg) prefer (tag_regex cfg) with
  | None => None
  | Some release =>
      match select_best_ipa env (assets release) cfg with
      | None => None
      | Some ipa_asset => Some (release, ipa_asset)
      end
  end.

(** From the downloaded file to [new_version_entry], with [main_desc]
    and the disambiguated [bundle_id]. *)
Definition new_version (env : Env) (cfg : app_config) (release : release)
    (ipa_asset : asset) (file : ipa_file) : outcome (version_entry * string * string) :=
  let repo := github_repo cfg in
  let app_name := cfg_name cfg in
  let default_bundle_id := ("com.placeholder." ++ delete_all " " (lower app_name))%string in
  let '(ver, bundle_id) :=
    match get_ipa_metadata file default_bundle_id with
    | Some (v, b) =>
        if truthy v then (v, b)
        else (lstrip_char "v" (tag_name release), default_bundle_id)
    | None => (lstrip_char "v" (tag_name release), default_bundle_id)
    end in
  let sha := ipa_sha256 file in
  let bundle_id := apply_bundle_id_suffix bundle_id app_name repo in
  let repo_desc :=
    match api_repo_info env repo with
    | Some info => get_or "No description available." (description info)
    | None => "No description available."
    end in
  let main_desc := repo_desc in
  let version_desc := get_or "Update" (body release) in
  do release_date <-
    match published_at release with
    | Some d => Return (before_first "T" d)
    | None => Raise AttributeError               (* None.split('T') *)
    end;
  Return ({| v_version := ver; v_date := release_date;
             v_localizedDescription := version_desc;
             v_downloadURL := Some (browser_download_url ipa_asset);
             v_size := asset_size ipa_asset; v_sha256 := sha |},
          main_desc, bundle_id).

(** The entry created for an app that matched nothing. *)
Definition new_entry (env : Env) (cfg : app_config) (v : version_entry)
    (main_desc bundle_id : string) : outcome app_entry :=
  do icon <- new_entry_icon env cfg;
  let tint :=
    if get_truthy (tint_color cfg) then get_or "" (tint_color cfg)
    else tint_or_default (extract_dominant_color env icon) in
  Return {| name := Some (cfg_name cfg); githubRepo := Some (github_repo cfg);
            bundleIdentifier := Some bundle_id;
            developerName := Some (before_first "/" (github_repo cfg));
            version := Some (v_version v); versionDate := Some (v_date v);
            versionDescription := Some (v_localizedDescription v);
            downloadURL := v_downloadURL v;
            localizedDescription := Some main_desc;
            iconURL := Some icon; tintColor := Some tint;
            size := Some (v_size v); sha256 := None;
            permissions := Some (JObj []); screenshotURLs := Some (JArr []);
            versions := Some [v] |}.

(** [if app_entry: ... insert(0, ...) ... update({...}) else: ...
    existing_source['apps'].append(app_entry)] *)
Definition merge_version (env : Env) (cfg : app_config) (matched : option nat)
    (existing_source : source_data) (v : version_entry) (main_desc bundle_id : string)
    : outcome source_data :=
  let append_new :=
    do e' <- new_entry env cfg v main_desc bundle_id;
    Return (with_apps (apps existing_source ++ [e']) existing_source) in
  match matched with
  | Some k =>
      match nth_error (apps existing_source) k with
      | Some e =>
          match versions e with
          | None => Raise KeyError                (* app_entry['versions'] *)
          | Some history =>
              let e' := record_new_version v history main_desc bundle_id e in
              Return (with_apps (replace_nth k e' (apps existing_source)) existing_source)
          end
      | None => append_new
      end
  | None => append_new
  end.

Definition process_app (env : Env) (cfg : app_config) (existing_source : source_data)
    (apps_list_to_update : option (list app_config))
    : outcome (source_data * option (list app_config)) :=
  let repo := github_repo cfg in
  let app_name := cfg_name cfg in
  let matched := find_entry (apps existing_source) repo app_name in
  let found_icon_auto : option string := None in
  do existing_source <- refresh_matched env cfg matched existing_source;
  let app_entry :=
    match matched with
    | Some k => nth_error (apps existing_source) k
    | None => None
    end in
  match resolve_asset env cfg with
  | None => Return (existing_source, apps_list_to_update)
  | Some (release, ipa_asset) =>
      let download_url := browser_download_url ipa_asset in
      if match app_entry with Some e => has_version download_url e | None => false end
      then Return (existing_source, apps_list_to_update)      (* already up to date *)
      else
        match download_ipa env download_url with
        | None => Return (existing_source, apps_list_to_update) (* download failed *)
        | Some file =>
            do nv <- new_version env cfg release ipa_asset file;
            let '(new_version_entry, main_desc, bundle_id) := nv in
            do existing_source <-
              merge_version env cfg matched existing_source new_version_entry
                            main_desc bundle_id;
            (* sync found metadata back to apps_list_to_update *)
            Return (existing_source, sync_icon found_icon_auto repo apps_list_to_update)
        end
  end.

(** ** Files (utils.py, load_json and save_json) *)

(** The JSON documents of the repository: a curated list (an array of
    app configurations) or a catalog (an object). *)
Inductive document : Type :=
| Apps (l : list app_config)
| Source (s : source_data).

(** What reading a path gives. *)
Inductive file_state : Type :=
| Missing                   (* os.path.exists(path) is false *)
| Unreadable                (* open or read raises *)
| Invalid                   (* the content is not valid JSON *)
| Holds (d : document).

(** [with open(path) as f: return json.load(f)] *)
Definition read_json (f : file_state) : outcome document :=
  match f with
  | Missing | Unreadable => Raise OSError
  | Invalid => Raise JSONDecodeError
  | Holds d => Return d
  end.

Definition load_json (f : file_state) : outcome document :=
  match f with
  | Missing => Return (Apps [])                       (* return [] *)
  | _ =>
      match read_json f with
      | Return d => Return d
      | Raise JSONDecodeError => Raise (SystemExit 1)  (* sys.exit(1) *)
      | Raise (SystemExit n) => Raise (SystemExit n)   (* not an Exception *)
      | Raise _ => Raise (SystemExit 1)                (* except Exception: sys.exit(1) *)
      end
  end.

(** [load_existing_source]: the bare [except:] catches every exception,
    [SystemExit] included. *)
Definition load_existing_source (f : file_state)
    (default_name default_identifier : string) : document :=
  let fresh :=
    Source {| src_name := default_name; src_identifier := default_identifier;
              apps := []; news := [] |} in
  match f with
  | Missing => fresh
  | _ =>
      match load_json f with
      | Return d => d
      | Raise _ => fresh                              (* except: pass *)
      end
  end.

(** ** The run over a curated list (update_source.py, update_repo) *)

Definition option_string_eqb (a b : option string) : bool :=
  match a, b with
  | Some x, Some y => String.eqb x y
  | None, None => true
  | _, _ => false
  end.

Definition option_bool_eqb (a b : option bool) : bool :=
  match a, b with
  | Some x, Some y => Bool.eqb x y
  | None, None => true
  | _, _ => false
  end.

Definition app_config_eqb (a b : app_config) : bool :=
  String.eqb (cfg_name a) (cfg_name b) &&
  String.eqb (github_repo a) (github_repo b) &&
  option_string_eqb (icon_url a) (icon_url b) &&
  option_string_eqb (tint_color a) (tint_color b) &&
  option_bool_eqb (pre_release a) (pre_release b) &&
  option_string_eqb (tag_regex a) (tag_regex b) &&
  option_string_eqb (ipa_regex a) (ipa_regex b).

Fixpoint list_eqb {A : Type} (eqb : A -> A -> bool) (l1 l2 : list A) : bool :=
  match l1, l2 with
  | [], [] => true
  | x :: r1, y :: r2 => eqb x y && list_eqb eqb r1 r2
  | _, _ => false
  end.

(** [for app in apps: source_data = process_app(app, source_data, client,
    apps_list_to_update=apps)]: the loop reads the element of index [i]
    of the list that [process_app] may have updated. *)
Fixpoint process_from (env : Env) (i n : nat) (source : source_data)
    (curated : list app_config) : outcome (source_data * list app_config) :=
  match n with
  | O => Return (source, curated)
  | S n' =>
      match nth_error curated i with
      | None => Return (source, curated)
      | Some cfg =>
          do r <- process_app env cfg source (Some curated);
          process_from env (S i) n' (fst r)
            (match snd r with Some l => l | None => curated end)
      end
  end.

(** The pruner: an entry stays when its repo is in the curated list, or,
    without a repo, when its (developer, name) pair is. *)
Definition keep_entry (curated : list app_config) (a : app_entry) : bool :=
  if get_truthy (githubRepo a) then
    existsb (fun c => get_is (githubRepo a) (github_repo c)) curated
  else
    existsb (fun c => get_is (developerName a) (before_first "/" (github_repo c))
                      && get_is (name a) (cfg_name c)) curated.

(** [app_order = {app['github_repo']: idx for idx, app in enumerate(apps)}]
    then [app_order.get(repo)]: the last index wins. *)
Fixpoint app_order (curated : list app_config) (idx : Z) (repo : string) : option Z :=
  match curated with
  | [] => None
  | c :: r =>
      match app_order r (idx + 1) repo with
      | Some i => Some i
      | None => if String.eqb (github_repo c) repo then Some idx else None
      end
  end.

Definition get_sort_key (curated : list app_config) (app_entry : app_entry) : Z :=
  match githubRepo app_entry with
  | Some repo =>
      if truthy repo then
        match app_order curated 0 repo with
        | Some i => i
        | None => 9999%Z
        end
      else 9999%Z
  | None => 9999%Z
  end.

Definition prune_and_sort (curated : list app_config) (entries : list app_entry)
    : list app_entry :=
  sorted_asc (get_sort_key curated) (filter (keep_entry curated) entries).

(** The two files of a source directory. *)
Record disk := {
  config_file : file_state;        (* apps.json *)
  source_file : file_state         (* source.json *)
}.

(** [update_repo]; writing a file succeeds ([save_json] exits the run
    otherwise). *)
Definition update_repo (env : Env) (d : disk) (source_name source_identifier : string)
    : outcome disk :=
  match config_file d with
  | Missing => Return d
  | f =>
      do doc <- load_json f;
      match doc with
      | Source _ => Raise TypeError
      | Apps curated =>
          let original_apps := curated in
          match load_existing_source (source_file d) source_name source_identifier with
          | Apps _ => Raise TypeError                 (* source_data['name'] = ... on a list *)
          | Source loaded =>
              let source :=
                {| src_name := source_name; src_identifier := source_identifier;
                   apps := apps loaded; news := news loaded |} in
              do r <- process_from env 0 (List.length curated) source curated;
              let '(source, curated) := r in
              let config' :=
                if negb (list_eqb app_config_eqb curated original_apps)
                then Holds (Apps curated)             (* save_json(config_file, apps) *)
                else config_file d in
              Return {| config_file := config';
                        source_file :=
                          Holds (Source (with_apps (prune_and_sort curated (apps source))
                                                   source)) |}
          end
      end
  end.

(** ** Vocabulary for the properties of a run *)

(** The keys of an entry that describe its releases; the metadata refresh
    of [process_app] writes none of them. *)
Definition release_data (e : app_entry) :=
  (developerName e, version e, versionDate e, versionDescription e,
   downloadURL e, localizedDescription e, size e, sha256 e,
   screenshotURLs e, versions e).

(** [e2] is [e1] after some metadata refreshes: the repo slug, the release
    data and the version history are the same, ['permissions'] is the same
    or removed, and ['name'] can differ only for an entry with a repo slug
    (['bundleIdentifier'], ['iconURL'] and ['tintColor'] are free). *)
Definition refreshed (e1 e2 : app_entry) : Prop :=
  githubRepo e2 = githubRepo e1 /\
  release_data e2 = release_data e1 /\
  (permissions e2 = permissions e1 \/ permissions e2 = None) /\
  (name e2 = name e1 \/ get_truthy (githubRepo e1) = true).

(** [e2] is [e1] but for the keys that the refresh computes: the name,
    the repo slug, the release data and the version history are the
    same, and ['permissions'] is the same or removed. *)
Definition same_but_refreshed (e1 e2 : app_entry) : Prop :=
  name e2 = name e1 /\
  githubRepo e2 = githubRepo e1 /\
  release_data e2 = release_data e1 /\
  (permissions e2 = permissions e1 \/ permissions e2 = None).

(** Two states of the catalog file with the same entries, in the same
    order, up to the keys that the refresh computes. *)
Definition same_up_to_refresh (f1 f2 : file_state) : Prop :=
  match f1, f2 with
  | Holds (Source s1), Holds (Source s2) =>
      src_name s2 = src_name s1 /\ src_identifier s2 = src_identifier s1 /\
      news s2 = news s1 /\ Forall2 same_but_refreshed (apps s1) (apps s2)
  | _, _ => False
  end.

(** The entry matched with a curated app, seen on the entries of its
    repo: the first with the app's name, else the only one. *)
Definition of_repo (repo : string) (entries : list app_entry) : list app_entry :=
  filter (fun a => get_is (githubRepo a) repo) entries.

Definition matched_entry (entries : list app_entry) (repo app_name : string)
    : option app_entry :=
  match find (fun a => get_is (name a) app_name) (of_repo repo entries) with
  | Some e => Some e
  | None =>
      match of_repo repo entries with
      | [e] => Some e
      | _ => None
      end
  end.

(** A curated app is settled in a catalog when processing it adds
    nothing: it has no release or asset, or its download fails, or the
    entry it is matched with already has the download URL in its
    history. *)
Definition settled (env : Env) (cfg : app_config) (entries : list app_entry) : Prop :=
  match resolve_asset env cfg with
  | None => True
  | Some (_, ipa_asset) =>
      match download_ipa env (browser_download_url ipa_asset) with
      | None => True
      | Some _ =>
          exists e, matched_entry entries (github_repo cfg) (cfg_name cfg) = Some e /\
                    has_version (browser_download_url ipa_asset) e = true
      end
  end.

(** Pointwise, what processing a curated app of repo [repo] does to the
    entries that were there: the repo slug stays, histories only grow, and
    a name changes only on the single entry of [repo]. *)
Definition grows (entries : list app_entry) (repo : string) (a a' : app_entry) : Prop :=
  githubRepo a' = githubRepo a /\
  (forall u, has_version u a = true -> has_version u a' = true) /\
  (name a' = name a \/
   (githubRepo a = Some repo /\ List.length (of_repo repo entries) = 1%nat)).

(** The last app of a repo in a curated list, and the catalogs in which
    the only entry of a repo bears the name of that app. *)
Definition last_of_repo (repo : string) (curated : list app_config) : option app_config :=
  find (fun c => String.eqb (github_repo c) repo) (rev curated).

Definition named_by_last (processed : list app_config) (entries : list app_entry) : Prop :=
  forall r e c,
    of_repo r entries = [e] -> last_of_repo r processed = Some c ->
    name e = Some (cfg_name c).

(** A name that changed belongs to the single entry of a curated repo. *)
Definition renamed_within (curated : list app_config) (entries : list app_entry)
    (a a' : app_entry) : Prop :=
  name a' = name a \/
  exists c, In c curated /\ githubRepo a = Some (github_repo c) /\
            List.length (of_repo (github_repo c) entries) = 1%nat.

(** ** A concrete upstream

    The repository [org/foo] of the end-to-end scenario of the
    specification: one stable release [v1.0.0] with the single asset
    [Foo.ipa]; its tree holds two icon files; the first is a white square
    image, the second is served but cannot be decoded. *)

Definition foo_ipa_url : string :=
  "https://github.com/org/foo/releases/download/v1.0.0/Foo.ipa".

Definition foo_icon_url : string :=
  "https://raw.githubusercontent.com/org/foo/main/ios/AppIcon.appiconset/icon-1024.png".

Definition foo_small_icon_url : string :=
  "https://raw.githubusercontent.com/org/foo/main/Assets/icon.png".

Definition foo_release : release :=
  {| tag_name := "v1.0.0"; draft := false; prerelease := false;
     published_at := Some "2024-01-01T00:00:00Z";
     body := Some "First release";
     assets := [ {| asset_name := "Foo.ipa";
                    browser_download_url := foo_ipa_url;
                    asset_size := 100 |} ] |}.

Definition white_image : image :=
  {| img_width := 1024; img_height := 1024;
     img_colors := [ (10000%Z, (255%Z, 255%Z, 255%Z, 255%Z)) ] |}.

Definition foo_upstream : Env :=
  {| re_compile_i := fun p =>
       (* the pattern [nightly], searched ignoring case *)
       if String.eqb p "nightly" then Some (fun s => contains "nightly" (lower s))
       else None;
     re_sub_empty := fun _ s => s;
     re_findall := fun _ _ => [];
     api_releases := fun repo =>
       if String.eqb repo "org/foo" then Some [foo_release] else None;
     api_repo_info := fun repo =>
       if String.eqb repo "org/foo"
       then Some {| description := Some "The Foo app";
                    default_branch := Some "main";
                    owner_avatar_url := Some "https://avatars.githubusercontent.com/u/1" |}
       else None;
     api_git_tree := fun repo =>
       if String.eqb repo "org/foo"
       then Some ["README.md"; "Assets/icon.png";
                  "ios/AppIcon.appiconset/icon-1024.png"]
       else None;
     api_contents := fun _ => None;
     http_get := fun url =>
       if String.eqb url foo_icon_url then Some "white-png"
       else if String.eqb url foo_small_icon_url then Some "truncated"
       else None;
     image_open := fun content =>
       if String.eqb content "white-png" then Some white_image else None;
     download_ipa := fun url =>
       if String.eqb url foo_ipa_url
       then Some {| ipa_plist :=
                      Some {| CFBundleShortVersionString := Some "1.0.0";
                              CFBundleVersion := Some "1";
                              CFBundleIdentifier := Some "com.example.foo" |};
                    ipa_sha256 := "2c26b46b68ffc68ff99b453c1d30413413422d706483bfa0f98a5e886266e7ae" |}
       else None |}.

(** The curated entry [{name: "Foo", repo: "org/foo"}] with an empty
    icon override. *)
Definition foo_config : app_config :=
  {| cfg_name := "Foo"; github_repo := "org/foo"; icon_url := Some "";
     tint_color := None; pre_release := Some false;
     tag_regex := None; ipa_regex := None |}.

(** A source directory with the curated list [[foo_config]] and no
    catalog yet. *)
Definition foo_disk : disk :=
  {| config_file := Holds (Apps [foo_config]); source_file := Missing |}.

(** The state of the directory after one run and after two. *)
Definition run_twice (env : Env) (d : disk) (source_name source_identifier : string)
    : outcome (disk * disk) :=
  do d1 <- update_repo env d source_name source_identifier;
  do d2 <- update_repo env d1 source_name source_identifier;
  Return (d1, d2).

(** The catalog entry that the first run over [foo_disk] creates.  Its
    icon is the first character of the URL that [find_best_icon]
    returned. *)
Definition foo_version : version_entry :=
  {| v_version := "1.0.0"; v_date := "2024-01-01";
     v_localizedDescription := "First release";
     v_downloadURL := Some foo_ipa_url; v_size := 100;
     v_sha256 := "2c26b46b68ffc68ff99b453c1d30413413422d706483bfa0f98a5e886266e7ae" |}.

Definition foo_entry : app_entry :=
  {| name := Some "Foo"; githubRepo := Some "org/foo";
     bundleIdentifier := Some "com.example.foo"; developerName := Some "org";
     version := Some "1.0.0"; versionDate := Some "2024-01-01";
     versionDescription := Some "First release"; downloadURL := Some foo_ipa_url;
     localizedDescription := Some "The Foo app";
     iconURL := Some "h"; tintColor := Some "#000000";
     size := Some 100%Z; sha256 := None;
     permissions := Some (JObj []); screenshotURLs := Some (JArr []);
     versions := Some [foo_version] |}.

Definition foo_source (entries : list app_entry) : source_data :=
  {| src_name := "Foo Source"; src_identifier := "org.foo.source";
     apps := entries; news := [] |}.

(** The directory after the first run and after the second. *)
Definition foo_disk_1 : disk :=
  {| config_file := Holds (Apps [foo_config]);
     source_file := Holds (Source (foo_source [foo_entry])) |}.

Definition foo_disk_2 : disk :=
  {| config_file := Holds (Apps [foo_config]);
     source_file := Holds (Source (foo_source [pop_permissions foo_entry])) |}.

(** Two flavors of one repository, and a curated app whose configured
    icon lies under an [android] folder. *)
Definition foo_nightly : app_config :=
  {| cfg_name := "Foo Nightly"; github_repo := "org/foo"; icon_url := Some "";
     tint_color := None; pre_release := Some false;
     tag_regex := None; ipa_regex := None |}.

Definition foo_beta : app_config :=
  {| cfg_name := "Foo Beta"; github_repo := "org/foo"; icon_url := Some "";
     tint_color := None; pre_release := Some false;
     tag_regex := None; ipa_regex := None |}.

(** A flavor that tracks the tags matching [nightly] (the repository has
    no such release) and configures a tint. *)
Definition foo_nightly_tagged : app_config :=
  {| cfg_name := "Foo Nightly"; github_repo := "org/foo"; icon_url := Some "";
     tint_color := Some "#FF0000"; pre_release := Some true;
     tag_regex := Some "nightly"; ipa_regex := None |}.

Definition foo_android_icon : app_config :=
  {| cfg_name := "Foo"; github_repo := "org/foo";
     icon_url := Some "https://example.com/android/pic.png";
     tint_color := None; pre_release := Some false;
     tag_regex := None; ipa_regex := None |}.

Definition disk_of (curated : list app_config) : disk :=
  {| config_file := Holds (Apps curated); source_file := Missing |}.

(** The values of one key in the catalog of a directory. *)
Definition catalog_column {A : Type} (key : app_entry -> A) (d : disk) : list A :=
  match source_file d with
  | Holds (Source s) => map key (apps s)
  | _ => []
  end.

(** ** Further vocabulary *)

(** A release whose tag names a nightly build. *)
Definition rel_nightly : release :=
  {| tag_name := "Nightly-2024.06.02"; draft := false; prerelease := true;
     published_at := Some "2024-06-02T00:00:00Z"; body := None; assets := [] |}.

(** The hex code of a colour as [extract_dominant_color] formats it. *)
Definition hex_code (r g b : Z) : string :=
  upper ("#" ++ format_02x r ++ format_02x g ++ format_02x b)%string.

(** A channel value of an RGBA image. *)
Definition is_channel (n : Z) : Prop := (0 <= n < 256)%Z.

Definition channels_ok (entry : Z * rgba) : Prop :=
  let '(_, (r, g, b, a)) := entry in
  is_channel r /\ is_channel g /\ is_channel b /\ is_channel a.

Definition is_hex_upper (c : ascii) : bool :=
  is_digit c || ((65 <=? code c)%nat && (code c <=? 70)%nat).

Fixpoint all_chars (p : ascii -> bool) (s : string) : bool :=
  match s with
  | EmptyString => true
  | String c r => p c && all_chars p r
  end.

(** An upstream that serves one image under every URL. *)
Definition serving (img : image) : Env :=
  {| re_compile_i := fun _ => None;
     re_sub_empty := fun _ s => s;
     re_findall := fun _ _ => [];
     api_releases := fun _ => None;
     api_repo_info := fun _ => None;
     api_git_tree := fun _ => None;
     api_contents := fun _ => None;
     http_get := fun _ => Some "image";
     image_open := fun _ => Some img;
     download_ipa := fun _ => None |}.

(** Some white and transparent pixels, and as many red as blue ones. *)
Definition flag_image : image :=
  {| img_width := 100; img_height := 100;
     img_colors := [ (4000%Z, (255%Z, 255%Z, 255%Z, 255%Z));
                     (20%Z, (10%Z, 200%Z, 30%Z, 255%Z));
                     (2500%Z, (255%Z, 0%Z, 0%Z, 255%Z));
                     (2500%Z, (0%Z, 0%Z, 255%Z, 255%Z));
                     (980%Z, (7%Z, 7%Z, 7%Z, 0%Z)) ] |}.

(** [path.lower().endswith(valid_exts)] *)
Definition has_image_ext (path : string) : bool :=
  existsb (fun ext => endswith (lower path) ext) valid_exts.

(** The raw URL that [find_best_icon] builds for a path. *)
Definition raw_url (repo : string) (info : repo_info) (path : string) : string :=
  ("https://raw.githubusercontent.com/" ++ repo ++ "/"
   ++ match default_branch info with Some b => b | None => "main" end
   ++ "/" ++ path)%string.

(** The upstream of [org/foo] when the repository information cannot be
    fetched. *)
Definition foo_upstream_without_info : Env :=
  {| re_compile_i := re_compile_i foo_upstream;
     re_sub_empty := re_sub_empty foo_upstream;
     re_findall := re_findall foo_upstream;
     api_releases := api_releases foo_upstream;
     api_repo_info := fun _ => None;
     api_git_tree := api_git_tree foo_upstream;
     api_contents := api_contents foo_upstream;
     http_get := http_get foo_upstream;
     image_open := image_open foo_upstream;
     download_ipa := download_ipa foo_upstream |}.

(** The icon and the tint of an entry after its metadata refresh, given
    the icon selected from the repository, the current icon and the
    current tint. *)
Definition refreshed_icon (env : Env) (cfg : app_config)
    (repo_icon current : option string) : option string :=
  let best := choose_icon env
                (if usable_icon (icon_url cfg) then icon_url cfg else current) repo_icon in
  if get_truthy best then best else current.

Definition wants_extraction (cfg : app_config) (tint : option string) : bool :=
  negb (get_truthy (tint_color cfg)) &&
  (negb (get_truthy tint) || get_is tint "#000000").

Definition refreshed_tint (env : Env) (cfg : app_config)
    (tint icon : option string) : option string :=
  if get_truthy (tint_color cfg) then Some (get_or "" (tint_color cfg))
  else if wants_extraction cfg tint then
    match icon with
    | Some u =>
        match extract_dominant_color env u with
        | Some c => if truthy c then Some c else tint
        | None => tint
        end
    | None => tint
    end
  else tint.

(** The version history of an entry ([app_entry.get('versions', [])]). *)
Definition history (e : app_entry) : list version_entry :=
  match versions e with
  | Some l => l
  | None => []
  end.

(** The top-level keys of the current version repeat the newest record
    of the history. *)
Definition mirrors_head (e : app_entry) : Prop :=
  match versions e with
  | Some (v :: _) =>
      version e = Some (v_version v) /\
      versionDate e = Some (v_date v) /\
      versionDescription e = Some (v_localizedDescription v) /\
      downloadURL e = v_downloadURL v /\
      size e = Some (v_size v)
  | _ => True
  end.

(** What a call of [process_app] can do to an entry that was there: leave
    its release data alone, or put one record in front of its history. *)
Definition kept_or_updated (a a' : app_entry) : Prop :=
  githubRepo a' = githubRepo a /\
  (release_data a' = release_data a \/
   exists v h m b a1,
     versions a = Some h /\ a' = record_new_version v h m b a1).

(** ** The validators (utils.py, validate_repo_format and validate_url) *)

(** A character of the class [[a-zA-Z0-9\._-]] of [REPO_PATTERN]. *)
Definition repo_char (c : ascii) : bool :=
  is_lower c || is_upper c || is_digit c
  || Ascii.eqb c "." || Ascii.eqb c "_" || Ascii.eqb c "-".

(** The longest prefix of [s] in a character class, and what follows
    it. *)
Fixpoint span (p : ascii -> bool) (s : string) : string * string :=
  match s with
  | EmptyString => (EmptyString, EmptyString)
  | String c r =>
      if p c then (String c (fst (span p r)), snd (span p r))
      else (EmptyString, s)
  end.

Definition newline : string := String "010" EmptyString.

(** [REPO_PATTERN.match(s)] for
    [^[a-zA-Z0-9\._-]+/[a-zA-Z0-9\._-]+$].  Neither the slash nor the
    newline is in the class, so each [+] takes the whole run of class
    characters; [$] matches at the end of the string and in front of a
    newline that ends the string. *)
Definition REPO_PATTERN (s : string) : bool :=
  let owner := fst (span repo_char s) in
  truthy owner &&
  match snd (span repo_char s) with
  | EmptyString => false
  | String c r =>
      Ascii.eqb c "/" &&
      truthy (fst (span repo_char r)) &&
      (String.eqb (snd (span repo_char r)) EmptyString
       || String.eqb (snd (span repo_char r)) newline)
  end.

(** [validate_repo_format]; a key that is absent or null is [None]. *)
Definition validate_repo_format (repo : option string) : bool * string :=
  match repo with
  | None => (false, "Repo is empty")
  | Some repo =>
      if negb (truthy repo) then (false, "Repo is empty")
      else if (100 <? String.length repo)%nat then (false, "Repo name too long")
      else if contains ".." repo then (false, "Directory traversal detected")
      else if negb (REPO_PATTERN repo) then (false, "Invalid format (expected Owner/Repo)")
      else (true, EmptyString)
  end.

(** [not url or url.lower() in ['none', '_no response_', '']] *)
Definition ignorable_url (url : option string) : bool :=
  match url with
  | None => true
  | Some url =>
      negb (truthy url)
      || String.eqb (lower url) "none" || String.eqb (lower url) "_no response_"
      || String.eqb (lower url) EmptyString
  end.

(** [URL_PATTERN.match(url)] for [^https?://] *)
Definition URL_PATTERN (url : string) : bool :=
  startswith url "http://" || startswith url "https://".

Definition validate_url (url : option string) : bool * string :=
  if ignorable_url url then (true, EmptyString)
  else
    let url := match url with Some u => u | None => EmptyString end in
    if negb (URL_PATTERN url) then (false, "Must start with http:// or https://")
    else
      let lower_url := lower url in
      if contains "localhost" lower_url || contains "127.0.0.1" lower_url
         || contains "::1" lower_url
      then (false, "Localhost URLs not allowed")
      else (true, EmptyString).

(** ** The check of the curated lists (validate_apps.py) *)

(** The keys of an item that the check reads; each holds a string or is
    absent ([None]). *)
Record item := {
  item_name : option string;          (* 'name' *)
  item_github_repo : option string;   (* 'github_repo' *)
  item_icon_url : option string;      (* 'icon_url' *)
  item_tint_color : option string     (* 'tint_color' *)
}.











(** ** Requests to add or remove an app (add_app.py) *)


Inductive status : Type := added | updated | error.

(** The dict that [process_single_app] returns. *)
Record result := {
  res_status : status;             (* 'status' *)
  res_message : string;            (* 'message' *)
  res_repo : string                (* 'repo' *)
}.




























(** * Part II: properties of the embedding *)

(** ** Properties of the string operations *)

Lemma endswith_app (s suf : string) : endswith (s ++ suf)%string suf = true.
Proof.
  induction s as [|c r IH]; simpl.
  - destruct suf as [|a suf]; [reflexivity|].
    cbn [endswith]. rewrite String.eqb_refl. reflexivity.
  - rewrite IH. apply orb_true_r.
Qed.

Lemma truthy_app_l (s t : string) : truthy s = true -> truthy (s ++ t)%string = true.
Proof. destruct s; simpl; [discriminate | reflexivity]. Qed.

Lemma add_suffix_idem (b s : string) : add_suffix (add_suffix b s) s = add_suffix b s.
Proof.
  unfold add_suffix.
  destruct (endswith b ("." ++ s)%string) eqn:E.
  - rewrite E. reflexivity.
  - rewrite endswith_app. reflexivity.
Qed.

Lemma add_suffix_truthy (b s : string) : truthy b = true -> truthy (add_suffix b s) = true.
Proof.
  intros H. unfold add_suffix.
  destruct (endswith b ("." ++ s)%string); [exact H | now apply truthy_app_l].
Qed.

(** ** Claims on the name normalizer and the identifier disambiguator *)

Lemma map_chars_app (f : ascii -> ascii) (s t : string) :
  map_chars f (s ++ t)%string = (map_chars f s ++ map_chars f t)%string.
Proof. induction s as [|c r IH]; cbn; [reflexivity | rewrite IH; reflexivity]. Qed.

Lemma filter_chars_app (p : ascii -> bool) (s t : string) :
  filter_chars p (s ++ t)%string = (filter_chars p s ++ filter_chars p t)%string.
Proof.
  induction s as [|c r IH]; cbn [filter_chars String.append]; [reflexivity|].
  rewrite IH. destruct (p c); reflexivity.
Qed.

Lemma normalize_name_app (s t : string) :
  normalize_name (s ++ t)%string = (normalize_name s ++ normalize_name t)%string.
Proof.
  unfold normalize_name, lower. rewrite map_chars_app, filter_chars_app. reflexivity.
Qed.

(** A hyphen, a space or an underscore between two parts of a name leaves
    no trace in the normal form. *)
Lemma normalize_name_separator (s t : string) :
  normalize_name (s ++ "-" ++ t)%string = normalize_name (s ++ t)%string /\
  normalize_name (s ++ " " ++ t)%string = normalize_name (s ++ t)%string /\
  normalize_name (s ++ "_" ++ t)%string = normalize_name (s ++ t)%string.
Proof. rewrite !normalize_name_app. repeat split; reflexivity. Qed.

(** C3: [normalize_name] is a total function and the three spellings
    "UTM-HV", "UTM HV" and "UTM_HV" have the same normal form. *)
Theorem normalize_name_utm_hv :
  normalize_name "UTM-HV" = normalize_name "UTM HV" /\
  normalize_name "UTM HV" = normalize_name "UTM_HV" /\
  normalize_name "UTM-HV" = "utmhv".
Proof. repeat split; reflexivity. Qed.

(** C4: the identifier disambiguator is idempotent: applying it to its
    own result, with the same display name and repository slug, changes
    nothing, for every identifier, name and slug. *)
Theorem apply_bundle_id_suffix_idempotent (bundle_id app_name repo_name : string) :
  apply_bundle_id_suffix (apply_bundle_id_suffix bundle_id app_name repo_name) app_name repo_name
  = apply_bundle_id_suffix bundle_id app_name repo_name.
Proof.
  unfold apply_bundle_id_suffix.
  destruct (truthy bundle_id) eqn:T; cbn [negb].
  2:{ rewrite T. reflexivity. }
  destruct (find _ suffixes) as [s|].
  - rewrite (add_suffix_truthy _ s T). cbn [negb]. apply add_suffix_idem.
  - destruct (negb (String.eqb _ _)).
    + destruct (truthy _ && (2 <? _)%nat).
      * rewrite (add_suffix_truthy _ _ T). cbn [negb]. apply add_suffix_idem.
      * rewrite T. reflexivity.
    + rewrite T. reflexivity.
Qed.

(** ** The order on strings *)

Lemma leb_refl (s : string) : leb s s = true.
Proof.
  induction s as [|c r IH]; [reflexivity|].
  cbn [leb]. rewrite Nat.ltb_irrefl. exact IH.
Qed.

Lemma leb_total (s t : string) : leb s t = false -> leb t s = true.
Proof.
  revert t. induction s as [|a s IH]; intros [|b t]; cbn [leb]; try easy.
  destruct (code a <? code b)%nat eqn:Hab; [discriminate|].
  destruct (code b <? code a)%nat eqn:Hba; [reflexivity|].
  apply IH.
Qed.

Lemma leb_trans (s t u : string) : leb s t = true -> leb t u = true -> leb s u = true.
Proof.
  revert t u. induction s as [|a s IH]; intros [|b t] [|c u]; cbn [leb]; try easy.
  destruct (code a <? code b)%nat eqn:Hab.
  - intros _. destruct (code b <? code c)%nat eqn:Hbc.
    + intros _. apply Nat.ltb_lt in Hab, Hbc.
      assert (H : (code a <? code c)%nat = true) by (apply Nat.ltb_lt; lia).
      rewrite H. reflexivity.
    + destruct (code c <? code b)%nat eqn:Hcb; [discriminate|]. intros _.
      apply Nat.ltb_lt in Hab. apply Nat.ltb_ge in Hbc, Hcb.
      assert (H : (code a <? code c)%nat = true) by (apply Nat.ltb_lt; lia).
      rewrite H. reflexivity.
  - destruct (code b <? code a)%nat eqn:Hba; [discriminate|]. intros Hst.
    apply Nat.ltb_ge in Hab, Hba.
    destruct (code b <? code c)%nat eqn:Hbc.
    + intros _. apply Nat.ltb_lt in Hbc.
      assert (H : (code a <? code c)%nat = true) by (apply Nat.ltb_lt; lia).
      rewrite H. reflexivity.
    + destruct (code c <? code b)%nat eqn:Hcb; [discriminate|]. intros Htu.
      apply Nat.ltb_ge in Hbc, Hcb.
      assert (H1 : (code a <? code c)%nat = false) by (apply Nat.ltb_ge; lia).
      assert (H2 : (code c <? code a)%nat = false) by (apply Nat.ltb_ge; lia).
      rewrite H1, H2. eapply IH; eassumption.
Qed.

(** ** Release resolver *)

(** The head of the list sorted by date, newest first, is the most
    recent release in the sense of the specification. *)
Lemma hd_sorted_desc (l : list release) :
  hd_error (sorted_desc get_date l) = most_recent l.
Proof.
  unfold sorted_desc.
  induction l as [|r rest IH]; [reflexivity|].
  cbn [stable_sort most_recent]. rewrite <- IH.
  destruct (stable_sort _ rest) as [|y ys]; [reflexivity|].
  cbn [insert_by hd_error]. unfold geb.
  destruct (leb (get_date y) (get_date r)); reflexivity.
Qed.

(** [most_recent] returns a release of the list, no release of the list
    is more recent, and the releases in front of it are strictly older. *)
Lemma most_recent_spec (l : list release) (m : release) :
  most_recent l = Some m ->
  exists l1 l2,
    l = l1 ++ m :: l2 /\
    Forall (fun r => leb (get_date m) (get_date r) = false) l1 /\
    Forall (fun r => leb (get_date r) (get_date m) = true) l2.
Proof.
  revert m. induction l as [|r rest IH]; intros m; cbn [most_recent]; [discriminate|].
  destruct (most_recent rest) as [m'|] eqn:E.
  - destruct (IH m' eq_refl) as (l1 & l2 & -> & H1 & H2).
    unfold geb. destruct (leb (get_date m') (get_date r)) eqn:L; intros [= <-].
    + exists [], (l1 ++ m' :: l2). repeat split; [constructor|].
      apply Forall_app. split.
      * eapply Forall_impl; [|exact H1]. intros a Ha. cbn beta in Ha.
        apply leb_total in Ha. eapply leb_trans; eassumption.
      * constructor; [exact L|].
        eapply Forall_impl; [|exact H2]. intros a Ha. cbn beta in Ha.
        eapply leb_trans; eassumption.
    + exists (r :: l1), l2. repeat split; [|exact H2].
      constructor; [exact L | exact H1].
  - intros [= <-]. destruct rest; [|cbn in E; destruct (most_recent rest); [destruct (geb _ _)|]; discriminate].
    exists [], []. repeat split; constructor.
Qed.

(** C1 (amended): with [preferPreRelease] the resolver returns the most
    recent pre-release of the candidates, unless a stable release is
    strictly more recent than it, in which case it returns the most recent
    stable release; on equal dates the pre-release is returned. *)
Theorem latest_release_prefers_pre_release (env : Env) (releases : list release)
    (tag_regex : option string) :
  latest_release env releases true tag_regex
  = resolver_strict (active_releases env releases tag_regex).
Proof.
  unfold latest_release, resolver_strict.
  set (active := active_releases env releases tag_regex).
  rewrite <- !hd_sorted_desc.
  destruct active as [|a act] eqn:Ea; [reflexivity|]. rewrite <- Ea.
  destruct (sorted_desc get_date (filter (fun r => prerelease r) active)) as [|p ps];
    destruct (sorted_desc get_date (filter (fun r => negb (prerelease r)) active)) as [|s ss];
    cbn [hd_error]; try reflexivity.
Qed.

(** The scenario of the specification: the pre-release of June wins over
    the stable release of January and loses to the one of July. *)
Lemma latest_release_scenario :
  latest_release offline [rel_stable "2024-01-01"; rel_pre_june] true None
    = Some rel_pre_june /\
  latest_release offline [rel_stable "2024-07-01"; rel_pre_june] true None
    = Some (rel_stable "2024-07-01").
Proof. split; reflexivity. Qed.

(** C1 (as stated) fails: a stable release and a pre-release published at
    the same instant; the specification's rule picks the stable release,
    the code returns the pre-release. *)
Lemma latest_release_equal_dates_returns_pre :
  let releases := [rel_stable_june; rel_pre_june] in
  Forall (fun r => draft r = false) releases /\
  get_date rel_stable_june = get_date rel_pre_june /\
  resolver_as_specified releases = Some rel_stable_june /\
  latest_release offline releases true None = Some rel_pre_june /\
  latest_release offline releases true None <> resolver_as_specified releases.
Proof.
  cbv zeta. repeat split; try reflexivity.
  - repeat constructor.
  - vm_compute. discriminate.
Qed.

(** ** Squareness check *)

(** C5 (as stated) fails: when the image cannot be fetched,
    [GitHubClient.get] returns [None] and the check answers [False], not
    [True]. *)
Lemma is_square_image_fetch_failure_is_false :
  is_http_url "https://example.com/icon.png" = true /\
  http_get offline "https://example.com/icon.png" = None /\
  is_square_image offline "https://example.com/icon.png" = false.
Proof. repeat split; reflexivity. Qed.

(** C5 (amended): the check answers [False] when the image cannot be
    fetched, [True] when the fetched content cannot be decoded, and the
    comparison of width and height with 5% tolerance when fetch and
    decoding both succeed. *)
Theorem is_square_image_cases (env : Env) (url : string) :
  is_http_url url = true ->
  (http_get env url = None -> is_square_image env url = false) /\
  (forall content, http_get env url = Some content ->
     image_open env content = None -> is_square_image env url = true) /\
  (forall content img, http_get env url = Some content ->
     image_open env content = Some img -> img_height img <> 0%Z ->
     is_square_image env url = within_tolerance (img_width img) (img_height img)).
Proof.
  intros Hurl. unfold is_square_image. rewrite Hurl. cbn [negb].
  repeat split.
  - intros ->. reflexivity.
  - intros content -> ->. reflexivity.
  - intros content img -> -> Hh. apply Z.eqb_neq in Hh. rewrite Hh. reflexivity.
Qed.

Lemma is_square_image_cases_witness :
  is_square_image offline "https://example.com/icon.png" = false /\
  is_square_image foo_upstream foo_small_icon_url = true /\
  is_square_image foo_upstream foo_icon_url = within_tolerance 1024 1024.
Proof.
  split; [|split].
  - apply (proj1 (is_square_image_cases offline "https://example.com/icon.png" eq_refl)).
    reflexivity.
  - apply (proj1 (proj2 (is_square_image_cases foo_upstream foo_small_icon_url eq_refl))
             "truncated"); reflexivity.
  - apply (proj2 (proj2 (is_square_image_cases foo_upstream foo_icon_url eq_refl))
             "white-png" white_image); [reflexivity | reflexivity | discriminate].
Defined.

(** ** Colour extractor *)

Lemma dominant_all_discarded (colors : list (Z * rgba)) (st : Z * (Z * Z * Z)) :
  Forall (fun entry => discarded (snd entry) = true) colors ->
  fold_left dominant_step colors st = st.
Proof.
  intros H. revert st. induction H as [|[count color] rest Hd _ IH]; intros st.
  - reflexivity.
  - cbn [fold_left]. cbn [snd] in Hd.
    assert (E : dominant_step st (count, color) = st).
    { unfold dominant_step. destruct st as [m d]. rewrite Hd. reflexivity. }
    rewrite E. apply IH.
Qed.

(** C6 (as stated) fails: for an all-white image every colour is
    discarded, and the extractor returns the string "#000000", not the
    "no color" value. *)
Lemma extract_dominant_color_white_image :
  Forall (fun entry => discarded (snd entry) = true) (img_colors white_image) /\
  extract_dominant_color foo_upstream foo_icon_url = Some "#000000" /\
  extract_dominant_color foo_upstream foo_icon_url <> None.
Proof.
  split; [repeat constructor|]. split; [reflexivity | discriminate].
Qed.

(** C6 (amended): when the image is fetched and decoded and every colour
    of it is discarded by the filters, the extractor returns the hex
    string "#000000" (the initial value of [dominant]), which is also the
    default the caller substitutes for "no color". *)
Theorem extract_dominant_color_all_discarded (env : Env) (url content : string) (img : image) :
  is_http_url url = true ->
  http_get env url = Some content ->
  image_open env content = Some img ->
  img_colors img <> [] ->
  Forall (fun entry => discarded (snd entry) = true) (img_colors img) ->
  extract_dominant_color env url = Some "#000000" /\
  tint_or_default (extract_dominant_color env url) = "#000000".
Proof.
  intros Hurl Hget Hopen Hne Hall.
  assert (E : extract_dominant_color env url = Some "#000000").
  { unfold extract_dominant_color. rewrite Hurl, Hget, Hopen. cbn [negb].
    destruct (img_colors img) as [|c cs] eqn:Ec; [contradiction|].
    rewrite (dominant_all_discarded _ _ Hall). reflexivity. }
  rewrite E. split; reflexivity.
Qed.

Lemma extract_dominant_color_all_discarded_witness :
  extract_dominant_color foo_upstream foo_icon_url = Some "#000000" /\
  tint_or_default (extract_dominant_color foo_upstream foo_icon_url) = "#000000".
Proof.
  apply (extract_dominant_color_all_discarded foo_upstream foo_icon_url "white-png" white_image).
  - reflexivity.
  - reflexivity.
  - reflexivity.
  - discriminate.
  - repeat constructor.
Defined.

(** ** Icon discoverer *)

(** A one-character string is no http URL, so the squareness check
    rejects every character of a URL. *)
Lemma is_square_image_char (env : Env) (s : string) :
  Forall (fun cand => is_square_image env cand = false) (chars s).
Proof.
  induction s as [|c r IH]; constructor; [|exact IH].
  unfold is_square_image, is_http_url.
  assert (E : startswith (String c "") "http://" = false /\
              startswith (String c "") "https://" = false).
  { cbn [startswith]. split; apply andb_false_r. }
  destruct E as [-> ->]. rewrite andb_false_r. reflexivity.
Qed.

(** Whatever [find_best_icon] returned, the loop of [process_app] over it
    selects the first character of the string. *)
Lemma first_square_or_top_is_first_char (env : Env) (c : ascii) (r : string) :
  first_square_or_top env (Some (String c r)) = Some (String c "").
Proof.
  unfold first_square_or_top. cbn [truthy String.eqb negb].
  assert (E : find (is_square_image env) (chars (String c r)) = None).
  { pose proof (is_square_image_char env (String c r)) as H.
    induction H as [|x l Hx _ IH]; [reflexivity|]. cbn [find]. rewrite Hx. exact IH. }
  rewrite E. reflexivity.
Qed.

(** C7 (the code at the failing input): the tree of [org/foo] has two
    positive-score candidates, [find_best_icon] returns the URL of the
    top one alone, and the loop of the caller, although that URL is a
    square image, selects the one-character string "h". *)
Lemma find_best_icon_returns_one_url :
  icon_candidates ["README.md"; "Assets/icon.png"; "ios/AppIcon.appiconset/icon-1024.png"]
    = [(50%Z, "Assets/icon.png"); (145%Z, "ios/AppIcon.appiconset/icon-1024.png")] /\
  find_best_icon foo_upstream "org/foo" = Return (Some foo_icon_url) /\
  is_square_image foo_upstream foo_icon_url = true /\
  first_square_or_top foo_upstream (Some foo_icon_url) = Some "h".
Proof. repeat split; reflexivity. Qed.

(** ** Loading the persisted catalog *)

(** C9: on a catalog file that is not valid JSON, [load_json] exits with
    status 1, and [load_existing_source], whose bare [except] catches that
    exit, returns the fresh empty catalog. *)
Theorem load_existing_source_invalid_json (default_name default_identifier : string) :
  load_json Invalid = Raise (SystemExit 1) /\
  load_existing_source Invalid default_name default_identifier
  = Source {| src_name := default_name; src_identifier := default_identifier;
              apps := []; news := [] |}.
Proof. split; reflexivity. Qed.

(** ** Lists: search by index, replacement, filters *)

Lemma find_index_Some {A : Type} (p : A -> bool) (l : list A) (k : nat) :
  find_index p l = Some k ->
  exists e, nth_error l k = Some e /\ p e = true /\ find p l = Some e /\
            forall j a, (j < k)%nat -> nth_error l j = Some a -> p a = false.
Proof.
  revert k. induction l as [|x r IH]; intros k; cbn [find_index find]; [discriminate|].
  destruct (p x) eqn:Px.
  - intros [= <-]. exists x. repeat split; auto. intros j a Hj. lia.
  - destruct (find_index p r) as [k'|]; [|discriminate]. intros [= <-].
    destruct (IH k' eq_refl) as (e & Hn & Pe & Hf & Hlt).
    exists e. repeat split; auto.
    intros [|j] a Hj; cbn [nth_error].
    + intros [= <-]. exact Px.
    + apply Hlt. lia.
Qed.

Lemma find_index_None {A : Type} (p : A -> bool) (l : list A) :
  find_index p l = None -> find p l = None /\ Forall (fun a => p a = false) l.
Proof.
  induction l as [|x r IH]; cbn [find_index find]; [split; [reflexivity | constructor]|].
  destruct (p x) eqn:Px; [discriminate|].
  destruct (find_index p r); [discriminate|]. intros _.
  destruct (IH eq_refl) as [H1 H2]. split; [exact H1 | constructor; assumption].
Qed.

Lemma find_index_first {A : Type} (p : A -> bool) (l : list A) (k : nat) (e : A) :
  nth_error l k = Some e -> p e = true ->
  (forall j a, (j < k)%nat -> nth_error l j = Some a -> p a = false) ->
  find_index p l = Some k.
Proof.
  revert k. induction l as [|x r IH]; intros [|k]; cbn [nth_error find_index]; try discriminate.
  - intros [= ->] -> _. reflexivity.
  - intros Hn Pe Hlt. rewrite (Hlt 0%nat x); [|lia|reflexivity].
    rewrite (IH k Hn Pe); [reflexivity|].
    intros j a Hj Ha. apply (Hlt (S j) a); [lia | exact Ha].
Qed.

Lemma find_filter {A : Type} (p q : A -> bool) (l : list A) :
  find (fun a => p a && q a) l = find q (filter p l).
Proof.
  induction l as [|x r IH]; [reflexivity|]. cbn [find filter].
  destruct (p x); cbn [andb find]; [destruct (q x); [reflexivity | exact IH] | exact IH].
Qed.

Lemma find_hd_filter {A : Type} (p : A -> bool) (l : list A) :
  find p l = hd_error (filter p l).
Proof.
  induction l as [|x r IH]; [reflexivity|]. cbn [find filter].
  destruct (p x); [reflexivity | exact IH].
Qed.

Lemma nth_error_replace_nth {A : Type} (l : list A) (k j : nat) (x : A) :
  nth_error (replace_nth k x l) j =
  if (j =? k)%nat then option_map (fun _ => x) (nth_error l j) else nth_error l j.
Proof.
  revert k j. induction l as [|y r IH]; intros k j.
  - destruct k; cbn [replace_nth]; destruct j; cbn [nth_error option_map];
      destruct (_ =? _)%nat; reflexivity.
  - destruct k as [|k], j as [|j]; cbn [replace_nth nth_error Nat.eqb option_map];
      try reflexivity. apply IH.
Qed.

Lemma replace_nth_Forall2 {A : Type} (l : list A) (k : nat) (e x : A) :
  nth_error l k = Some e ->
  Forall2 (fun a a' => a' = a \/ (a = e /\ a' = x)) l (replace_nth k x l).
Proof.
  revert k. induction l as [|y r IH]; intros [|k]; cbn [nth_error replace_nth]; try discriminate.
  - intros [= ->]. constructor; [right; split; reflexivity|].
    clear IH. induction r; constructor; auto.
  - intros H. constructor; [left; reflexivity | apply IH; exact H].
Qed.

Lemma Forall2_refl {A : Type} (R : A -> A -> Prop) (l : list A) :
  (forall a, R a a) -> Forall2 R l l.
Proof. intros H. induction l; constructor; auto. Qed.

Lemma Forall2_compose {A : Type} (R S T : A -> A -> Prop) (l1 l2 l3 : list A) :
  (forall a b c, R a b -> S b c -> T a c) ->
  Forall2 R l1 l2 -> Forall2 S l2 l3 -> Forall2 T l1 l3.
Proof.
  intros HR H12. revert l3. induction H12 as [|a b r1 r2 Hab _ IH]; intros l3 H23.
  - inversion H23. constructor.
  - inversion H23 as [|b' c r2' r3 Hbc Hrest]; subst. constructor; [eauto | apply IH; exact Hrest].
Qed.

Lemma Forall2_In {A : Type} (R S : A -> A -> Prop) (l1 l2 : list A) :
  Forall2 R l1 l2 ->
  (forall a b, In a l1 -> In b l2 -> R a b -> S a b) ->
  Forall2 S l1 l2.
Proof.
  intros F. induction F as [|a b r1 r2 Hab _ IH]; intros H; constructor.
  - apply H; [left; reflexivity | left; reflexivity | exact Hab].
  - apply IH. intros x y Hx Hy. apply H; right; assumption.
Qed.

Lemma Forall2_impl {A : Type} (R S : A -> A -> Prop) (l1 l2 : list A) :
  (forall a b, R a b -> S a b) -> Forall2 R l1 l2 -> Forall2 S l1 l2.
Proof. intros H F. induction F; constructor; auto. Qed.

Lemma Forall2_filter {A : Type} (R : A -> A -> Prop) (p : A -> bool) (l1 l2 : list A) :
  (forall a b, R a b -> p b = p a) ->
  Forall2 R l1 l2 -> Forall2 R (filter p l1) (filter p l2).
Proof.
  intros Hp F. induction F as [|a b r1 r2 Hab _ IH]; [constructor|].
  cbn [filter]. rewrite (Hp a b Hab). destruct (p a); [constructor; assumption | exact IH].
Qed.

(** ** Matching a curated app with an entry *)

(** The index-based matching of [process_app] and the entry-based
    [matched_entry] agree. *)
Lemma find_entry_matched (entries : list app_entry) (repo app_name : string) :
  match find_entry entries repo app_name with
  | Some k => exists e, nth_error entries k = Some e /\
                        matched_entry entries repo app_name = Some e
  | None => matched_entry entries repo app_name = None
  end.
Proof.
  unfold find_entry, matched_entry, of_repo.
  rewrite <- find_filter.
  destruct (find_index _ entries) as [k|] eqn:E.
  - destruct (find_index_Some _ _ _ E) as (e & Hn & _ & Hf & _).
    exists e. rewrite Hf. auto.
  - destruct (find_index_None _ _ E) as [Hf _]. rewrite Hf.
    destruct (filter _ entries) as [|a [|b r]] eqn:Ef; try reflexivity.
    destruct (find_index (fun a0 => get_is (githubRepo a0) repo) entries) as [k|] eqn:E2.
    + destruct (find_index_Some _ _ _ E2) as (e & Hn & _ & Hf2 & _).
      exists e. split; [exact Hn|]. rewrite find_hd_filter, Ef in Hf2. cbn in Hf2.
      congruence.
    + destruct (find_index_None _ _ E2) as [Hf2 _].
      rewrite find_hd_filter, Ef in Hf2. discriminate.
Qed.

(** ** The phases of [process_app] *)

(** Case analysis on the tests of a computation that is known to
    return. *)
Ltac split_cases H :=
  repeat match type of H with
         | context [match ?x with _ => _ end] =>
             destruct x eqn:?; cbn [bind] in H; try discriminate H
         end.

Lemma get_is_Some (o : option string) (s : string) : get_is o s = true <-> o = Some s.
Proof.
  unfold get_is. destruct o as [x|]; [|split; discriminate].
  rewrite String.eqb_eq. split; [intros -> | intros [= ->]]; reflexivity.
Qed.

Lemma find_entry_how (entries : list app_entry) (repo app_name : string) (k : nat) :
  find_entry entries repo app_name = Some k ->
  exists e, nth_error entries k = Some e /\ githubRepo e = Some repo /\
            (name e = Some app_name \/ List.length (of_repo repo entries) = 1%nat) /\
            forall j a, (j < k)%nat -> nth_error entries j = Some a ->
                        get_is (githubRepo a) repo && get_is (name a) app_name = false.
Proof.
  unfold find_entry, of_repo.
  destruct (find_index _ entries) as [k'|] eqn:E.
  - intros [= <-]. destruct (find_index_Some _ _ _ E) as (e & Hn & Pe & _ & Hlt).
    exists e. apply andb_prop in Pe. destruct Pe as [Pr Pn].
    apply get_is_Some in Pr, Pn. auto.
  - destruct (filter _ entries) as [|a [|b r]] eqn:Ef; try discriminate.
    intros H. destruct (find_index_Some _ _ _ H) as (e & Hn & Pe & _).
    exists e. apply get_is_Some in Pe. repeat split; auto.
    intros j x _ Hx. destruct (find_index_None _ _ E) as [_ Hall].
    rewrite Forall_forall in Hall. apply Hall. eapply nth_error_In; eassumption.
Qed.

Lemma find_entry_replace (entries : list app_entry) (repo app_name : string)
    (k : nat) (e' : app_entry) :
  find_entry entries repo app_name = Some k ->
  githubRepo e' = Some repo -> name e' = Some app_name ->
  find_entry (replace_nth k e' entries) repo app_name = Some k.
Proof.
  intros H Hr Hn. destruct (find_entry_how _ _ _ _ H) as (e & Hk & _ & _ & Hlt).
  unfold find_entry.
  rewrite (find_index_first _ (replace_nth k e' entries) k e'); [reflexivity| | |].
  - rewrite nth_error_replace_nth, Nat.eqb_refl, Hk. reflexivity.
  - rewrite Hr, Hn. cbn [get_is]. rewrite !String.eqb_refl. reflexivity.
  - intros j a Hj. rewrite nth_error_replace_nth.
    destruct (j =? k)%nat eqn:Ejk; [apply Nat.eqb_eq in Ejk; lia|]. apply Hlt; exact Hj.
Qed.

Lemma has_version_release_data (u : string) (e e' : app_entry) :
  release_data e' = release_data e -> has_version u e' = has_version u e.
Proof. unfold release_data, has_version. intros [= _ _ _ _ _ _ _ _ _ ->]. reflexivity. Qed.

Lemma refreshed_refl (a : app_entry) : refreshed a a.
Proof. repeat split; auto. Qed.

Lemma grows_refl (entries : list app_entry) (repo : string) (a : app_entry) :
  grows entries repo a a.
Proof. repeat split; auto. Qed.

Lemma refresh_entry_frame (env : Env) (cfg : app_config) (e e' : app_entry) :
  refresh_entry env cfg e = Return e' ->
  name e' = Some (cfg_name cfg) /\
  githubRepo e' = Some (github_repo cfg) /\
  permissions e' = None /\
  release_data e' = release_data e.
Proof.
  unfold refresh_entry. intros H.
  destruct (find_best_icon env (github_repo cfg)) as [repo_icons|]; cbn [bind] in H;
    [|discriminate].
  split_cases H; injection H as <-; repeat split; reflexivity.
Qed.

Lemma refresh_matched_frame (env : Env) (cfg : app_config) (src src' : source_data) :
  refresh_matched env cfg
    (find_entry (apps src) (github_repo cfg) (cfg_name cfg)) src = Return src' ->
  src_name src' = src_name src /\ src_identifier src' = src_identifier src /\
  news src' = news src /\
  Forall2 (fun a a' => (truthy (github_repo cfg) = true -> refreshed a a') /\
                       grows (apps src) (github_repo cfg) a a')
          (apps src) (apps src') /\
  match find_entry (apps src) (github_repo cfg) (cfg_name cfg) with
  | Some k => exists e e', nth_error (apps src) k = Some e /\
                           nth_error (apps src') k = Some e' /\
                           apps src' = replace_nth k e' (apps src) /\
                           name e' = Some (cfg_name cfg) /\
                           githubRepo e' = Some (github_repo cfg) /\
                           permissions e' = None /\
                           release_data e' = release_data e
  | None => src' = src
  end.
Proof.
  destruct (find_entry _ _ _) as [k|] eqn:Ef; cbn [refresh_matched].
  2:{ intros [= <-]. repeat split; auto.
      apply Forall2_refl. intros a. split; [intros _; apply refreshed_refl | apply grows_refl]. }
  destruct (find_entry_how _ _ _ _ Ef) as (e & Hk & Hr & Hhow & _).
  rewrite Hk. destruct (refresh_entry env cfg e) as [e'|] eqn:Er; cbn [bind]; [|discriminate].
  intros [= <-]. cbn [apps src_name src_identifier news with_apps].
  destruct (refresh_entry_frame _ _ _ _ Er) as (Hn' & Hr' & Hp' & Hd').
  repeat split; auto.
  - eapply Forall2_impl; [|apply (replace_nth_Forall2 _ _ _ e' Hk)].
    intros a a' [->|[-> ->]].
    + split; [intros _; apply refreshed_refl | apply grows_refl].
    + split.
      * intros T. repeat split; auto; [congruence|].
        right. rewrite Hr. exact T.
      * repeat split; [congruence| |].
        -- intros u. rewrite (has_version_release_data u _ _ Hd'). auto.
        -- destruct Hhow as [Hn|H1]; [left; congruence | right; auto].
  - exists e, e'. rewrite nth_error_replace_nth, Nat.eqb_refl, Hk. repeat split; auto.
Qed.

(** ** Settled apps stay settled *)

Lemma of_repo_grows (entries l l' : list app_entry) (rc r : string) :
  Forall2 (grows entries rc) l l' ->
  Forall2 (grows entries rc) (of_repo r l) (of_repo r l').
Proof.
  apply Forall2_filter. intros a b (Hr & _). rewrite Hr. reflexivity.
Qed.

Lemma find_name_same (n : string) (R : app_entry -> app_entry -> Prop)
    (l l' : list app_entry) :
  Forall2 (fun a a' => name a' = name a /\ R a a') l l' ->
  match find (fun a => get_is (name a) n) l with
  | Some e => exists e', find (fun a => get_is (name a) n) l' = Some e' /\ R e e'
  | None => find (fun a => get_is (name a) n) l' = None
  end.
Proof.
  intros F. induction F as [|a a' r r' [Hn HR] _ IH]; [reflexivity|].
  cbn [find]. rewrite Hn. destruct (get_is (name a) n); [eauto | exact IH].
Qed.

(** The entry matched with an app keeps its history when another app is
    processed. *)
Lemma matched_entry_grows (l l' : list app_entry) (rc r n : string) (e : app_entry) :
  Forall2 (grows l rc) l l' ->
  matched_entry l r n = Some e ->
  exists e', matched_entry l' r n = Some e' /\
             forall u, has_version u e = true -> has_version u e' = true.
Proof.
  intros F. pose proof (of_repo_grows l l l' rc r F) as Fr.
  unfold matched_entry.
  destruct (String.eqb r rc) eqn:Err;
    [apply String.eqb_eq in Err; subst r;
     destruct (Nat.eq_dec (List.length (of_repo rc l)) 1) as [L1|L1] |].
  - (* the single entry of the repo: its name is free *)
    destruct (of_repo rc l) as [|a [|b t]] eqn:Ea; try discriminate L1.
    inversion Fr as [|x a' y t' Haa' Ht]; subst. inversion Ht; subst.
    destruct Haa' as (_ & Hv & _).
    intros He. assert (e = a) as ->.
    { cbn [find] in He. destruct (get_is (name a) n); congruence. }
    exists a'. split; [|exact Hv].
    cbn [find]. destruct (get_is (name a') n); reflexivity.
  - assert (Fn : Forall2 (fun a a' => name a' = name a /\ grows l rc a a')
                         (of_repo rc l) (of_repo rc l')).
    { eapply Forall2_impl; [|exact Fr]. intros a a' G. split; [|exact G].
      destruct G as (_ & _ & [Hn|[_ H1]]); [exact Hn | contradiction]. }
    pose proof (find_name_same n _ _ _ Fn) as Hf.
    destruct (find _ (of_repo rc l)) as [e0|].
    + intros [= ->]. destruct Hf as (e' & -> & _ & Hv & _). eauto.
    + rewrite Hf. inversion Fn as [|a a' t t' [_ (_ & Hv & _)] Ht]; subst; [discriminate|].
      inversion Ht; subst; [|discriminate]. intros [= ->]. eauto.
  - assert (Fn : Forall2 (fun a a' => name a' = name a /\ grows l rc a a')
                         (of_repo r l) (of_repo r l')).
    { assert (Hin : Forall (fun a => githubRepo a = Some r) (of_repo r l)).
      { apply Forall_forall. intros a Ha. apply filter_In in Ha.
        apply get_is_Some. apply Ha. }
      revert Hin Fr. generalize (of_repo r l) (of_repo r l'). intros m m' Hin Fm.
      induction Fm as [|a a' t t' G _ IH]; [constructor|].
      inversion Hin; subst. constructor; [|apply IH; assumption].
      split; [|exact G].
      destruct G as (_ & _ & [Hn|[Hrc _]]); [exact Hn|].
      apply String.eqb_neq in Err. congruence. }
    pose proof (find_name_same n _ _ _ Fn) as Hf.
    destruct (find _ (of_repo r l)) as [e0|].
    + intros [= ->]. destruct Hf as (e' & -> & _ & Hv & _). eauto.
    + rewrite Hf. inversion Fn as [|a a' t t' [_ (_ & Hv & _)] Ht]; subst; [discriminate|].
      inversion Ht; subst; [|discriminate]. intros [= ->]. eauto.
Qed.

Lemma settled_grows (env : Env) (c : app_config) (l l' : list app_entry) (rc : string) :
  Forall2 (grows l rc) l l' -> settled env c l -> settled env c l'.
Proof.
  intros F. unfold settled.
  destruct (resolve_asset env c) as [[rel a]|]; [|auto].
  destruct (download_ipa env _); [|auto].
  intros (e & Hm & Hv).
  destruct (matched_entry_grows _ _ _ _ _ _ F Hm) as (e' & Hm' & Hmono). eauto.
Qed.

Lemma find_app_l {A : Type} (p : A -> bool) (l m : list A) (e : A) :
  find p l = Some e -> find p (l ++ m) = Some e.
Proof.
  induction l as [|x r IH]; cbn [find app]; [discriminate|].
  destruct (p x); auto.
Qed.

Lemma find_app_r {A : Type} (p : A -> bool) (l m : list A) :
  find p l = None -> find p (l ++ m) = find p m.
Proof.
  induction l as [|x r IH]; cbn [find app]; [reflexivity|].
  destruct (p x); [discriminate | exact IH].
Qed.

Lemma of_repo_app (r : string) (l : list app_entry) (x : app_entry) :
  of_repo r (l ++ [x]) = of_repo r l ++ (if get_is (githubRepo x) r then [x] else []).
Proof. unfold of_repo. rewrite filter_app. reflexivity. Qed.

(** Appending the entry of an app that matched nothing does not change
    what the other apps are matched with. *)
Lemma matched_entry_append (l : list app_entry) (rc nc r n : string) (x e : app_entry) :
  matched_entry l rc nc = None ->
  githubRepo x = Some rc ->
  matched_entry l r n = Some e ->
  matched_entry (l ++ [x]) r n = Some e.
Proof.
  intros Hnone Hx. unfold matched_entry. rewrite of_repo_app, Hx. cbn [get_is].
  destruct (String.eqb rc r) eqn:Err.
  - apply String.eqb_eq in Err. subst r.
    unfold matched_entry in Hnone.
    destruct (find (fun a => get_is (name a) n) (of_repo rc l)) as [e0|] eqn:Ef.
    + intros [= ->]. rewrite (find_app_l _ _ _ _ Ef). reflexivity.
    + destruct (find (fun a => get_is (name a) nc) (of_repo rc l)); [discriminate|].
      destruct (of_repo rc l) as [|a [|b t]]; discriminate.
  - rewrite app_nil_r. auto.
Qed.

Lemma settled_append (env : Env) (c : app_config) (l : list app_entry)
    (rc nc : string) (x : app_entry) :
  matched_entry l rc nc = None -> githubRepo x = Some rc ->
  settled env c l -> settled env c (l ++ [x]).
Proof.
  intros Hnone Hx. unfold settled.
  destruct (resolve_asset env c) as [[rel a]|]; [|auto].
  destruct (download_ipa env _); [|auto].
  intros (e & Hm & Hv). exists e. split; [|exact Hv].
  eapply matched_entry_append; eassumption.
Qed.

(** The new entry is the one its app is matched with. *)
Lemma matched_entry_new (l : list app_entry) (rc nc : string) (x : app_entry) :
  matched_entry l rc nc = None ->
  githubRepo x = Some rc -> name x = Some nc ->
  matched_entry (l ++ [x]) rc nc = Some x.
Proof.
  intros Hnone Hr Hn. unfold matched_entry in *. rewrite of_repo_app, Hr.
  cbn [get_is]. rewrite String.eqb_refl.
  destruct (find (fun a => get_is (name a) nc) (of_repo rc l)) eqn:Ef; [discriminate|].
  rewrite (find_app_r _ _ _ Ef). cbn [find]. rewrite Hn. cbn [get_is].
  rewrite String.eqb_refl. reflexivity.
Qed.

(** ** One call of [process_app] *)

Lemma new_version_url (env : Env) (cfg : app_config) (rel : release) (a : asset)
    (file : ipa_file) (v : version_entry) (m b : string) :
  new_version env cfg rel a file = Return (v, m, b) ->
  v_downloadURL v = Some (browser_download_url a).
Proof.
  unfold new_version. intros H.
  destruct (published_at rel); split_cases H; cbn [bind] in H; try discriminate H;
    injection H as <- _ _; reflexivity.
Qed.

Lemma new_entry_shape (env : Env) (cfg : app_config) (v : version_entry)
    (m b : string) (e : app_entry) :
  new_entry env cfg v m b = Return e ->
  githubRepo e = Some (github_repo cfg) /\ name e = Some (cfg_name cfg) /\
  permissions e = Some (JObj []) /\ versions e = Some [v].
Proof.
  unfold new_entry. destruct (new_entry_icon env cfg); cbn [bind]; [|discriminate].
  intros [= <-]. repeat split; reflexivity.
Qed.

Lemma has_version_head (u : string) (v : version_entry) (history : list version_entry)
    (m b : string) (e : app_entry) :
  v_downloadURL v = Some u ->
  has_version u (record_new_version v history m b e) = true.
Proof.
  intros Hu. unfold has_version. cbn [versions record_new_version existsb].
  rewrite Hu. cbn [get_is]. rewrite String.eqb_refl. reflexivity.
Qed.

Lemma matched_of_find_entry (l : list app_entry) (r n : string) (k : nat) (e : app_entry) :
  find_entry l r n = Some k -> nth_error l k = Some e -> matched_entry l r n = Some e.
Proof.
  intros Hf Hk. pose proof (find_entry_matched l r n) as H. rewrite Hf in H.
  destruct H as (e0 & Hk0 & Hm). congruence.
Qed.

(** What one call does to the catalog when it returns: it leaves the
    curated list alone, every app that was settled stays settled, and the
    processed app is settled. *)
Lemma process_app_step (env : Env) (cfg : app_config) (src src' : source_data)
    (l l' : option (list app_config)) :
  process_app env cfg src l = Return (src', l') ->
  l' = l /\
  src_name src' = src_name src /\ src_identifier src' = src_identifier src /\
  news src' = news src /\
  (forall c, settled env c (apps src) -> settled env c (apps src')) /\
  settled env cfg (apps src').
Proof.
  unfold process_app.
  destruct (refresh_matched _ _ _ _) as [src1|] eqn:ER; cbn [bind]; [|discriminate].
  destruct (refresh_matched_frame _ _ _ _ ER) as (Hn & Hi & Hw & HF & Hm).
  assert (Hgrow1 : forall c, settled env c (apps src) -> settled env c (apps src1)).
  { intros c. apply (settled_grows env c _ _ (github_repo cfg)).
    eapply Forall2_impl; [|exact HF]. intros a a' [_ G]. exact G. }
  destruct (resolve_asset env cfg) as [[rel a]|] eqn:ERes.
  2:{ intros [= <- <-]. repeat split; auto. unfold settled. rewrite ERes. exact I. }
  destruct (find_entry (apps src) (github_repo cfg) (cfg_name cfg)) as [k|] eqn:Ef.
  - destruct Hm as (e & e1 & Hk & Hk1 & Happs & Hname & Hrepo & Hperm & Hdata).
    assert (Ef1 : find_entry (apps src1) (github_repo cfg) (cfg_name cfg) = Some k).
    { rewrite Happs. apply find_entry_replace; assumption. }
    rewrite Hk1.
    destruct (has_version (browser_download_url a) e1) eqn:Hv.
    { intros [= <- <-]. repeat split; auto.
      unfold settled. rewrite ERes. destruct (download_ipa env _); [|exact I].
      exists e1. split; [|exact Hv]. eapply matched_of_find_entry; eassumption. }
    destruct (download_ipa env (browser_download_url a)) as [file|] eqn:Ed.
    2:{ intros [= <- <-]. repeat split; auto. unfold settled. rewrite ERes, Ed. exact I. }
    destruct (new_version env cfg rel a file) as [[[v m] b]|] eqn:Env; cbn [bind];
      [|discriminate].
    unfold merge_version. rewrite Hk1.
    destruct (versions e1) as [history|] eqn:Hver; cbn [bind]; [|discriminate].
    intros [= <- <-]. cbn [src_name src_identifier news apps with_apps sync_icon].
    pose proof (new_version_url _ _ _ _ _ _ _ _ Env) as Hurl.
    set (e2 := record_new_version v history m b e1).
    assert (G2 : Forall2 (grows (apps src1) (github_repo cfg)) (apps src1)
                         (replace_nth k e2 (apps src1))).
    { eapply Forall2_impl; [|apply (replace_nth_Forall2 _ _ _ e2 Hk1)].
      intros x x' [->|[-> ->]]; [apply grows_refl|].
      repeat split; auto.
      intros u. unfold has_version. cbn [versions e2 record_new_version]. rewrite Hver.
      cbn [existsb]. intros ->. apply orb_true_r. }
    repeat split; auto.
    + intros c Hc. eapply settled_grows; [exact G2 | auto].
    + unfold settled. rewrite ERes, Ed. exists e2. split; [|apply has_version_head; exact Hurl].
      apply (matched_of_find_entry _ _ _ k).
      * apply find_entry_replace; [exact Ef1 | exact Hrepo | exact Hname].
      * rewrite nth_error_replace_nth, Nat.eqb_refl, Hk1. reflexivity.
  - subst src1.
    destruct (download_ipa env (browser_download_url a)) as [file|] eqn:Ed.
    2:{ intros [= <- <-]. repeat split; auto. unfold settled. rewrite ERes, Ed. exact I. }
    destruct (new_version env cfg rel a file) as [[[v m] b]|] eqn:Env; cbn [bind];
      [|discriminate].
    unfold merge_version.
    destruct (new_entry env cfg v m b) as [x|] eqn:Ex; cbn [bind]; [|discriminate].
    intros [= <- <-]. cbn [src_name src_identifier news apps with_apps sync_icon].
    destruct (new_entry_shape _ _ _ _ _ _ Ex) as (Hxr & Hxn & _ & Hxv).
    pose proof (new_version_url _ _ _ _ _ _ _ _ Env) as Hurl.
    pose proof (find_entry_matched (apps src) (github_repo cfg) (cfg_name cfg)) as Hnone.
    rewrite Ef in Hnone.
    repeat split; auto.
    + intros c Hc. eapply settled_append; eassumption.
    + unfold settled. rewrite ERes, Ed. exists x. split.
      * apply matched_entry_new; assumption.
      * unfold has_version. rewrite Hxv. cbn [existsb]. rewrite Hurl. cbn [get_is].
        rewrite String.eqb_refl. reflexivity.
Qed.

(** A settled app only gets the metadata refresh. *)
Lemma process_app_settled (env : Env) (cfg : app_config) (src : source_data)
    (l : option (list app_config)) :
  settled env cfg (apps src) ->
  process_app env cfg src l =
  do s <- refresh_matched env cfg
            (find_entry (apps src) (github_repo cfg) (cfg_name cfg)) src;
  Return (s, l).
Proof.
  intros Hs. unfold process_app.
  destruct (refresh_matched _ _ _ _) as [src1|] eqn:ER; cbn [bind]; [|reflexivity].
  destruct (refresh_matched_frame _ _ _ _ ER) as (_ & _ & _ & _ & Hm).
  unfold settled in Hs.
  destruct (resolve_asset env cfg) as [[rel a]|]; [|reflexivity].
  destruct (download_ipa env (browser_download_url a)) as [file|].
  2:{ destruct (match find_entry _ _ _ with Some _ => _ | None => _ end) as [e|];
        [destruct (has_version _ e)|]; reflexivity. }
  destruct Hs as (e & Hme & Hv).
  pose proof (find_entry_matched (apps src) (github_repo cfg) (cfg_name cfg)) as Hfm.
  destruct (find_entry (apps src) (github_repo cfg) (cfg_name cfg)) as [k|]; [|congruence].
  destruct Hfm as (e0 & Hk0 & Hm0).
  destruct Hm as (e' & e1 & Hk & Hk1 & _ & _ & _ & _ & Hdata).
  assert (e' = e) by congruence. subst e'.
  rewrite Hk1, (has_version_release_data _ _ _ Hdata), Hv. reflexivity.
Qed.

(** ** The loop over the curated list *)

Lemma nth_error_beyond {A : Type} (l : list A) (i j : nat) :
  nth_error l i = None -> (i <= j)%nat -> nth_error l j = None.
Proof. intros H Hij. apply nth_error_None in H. apply nth_error_None. lia. Qed.

(** A first run settles every curated app it went through. *)
Lemma process_from_settles (env : Env) (curated : list app_config) (n i : nat)
    (src src' : source_data) (cur' : list app_config) :
  process_from env i n src curated = Return (src', cur') ->
  cur' = curated /\
  src_name src' = src_name src /\ src_identifier src' = src_identifier src /\
  news src' = news src /\
  (forall c, settled env c (apps src) -> settled env c (apps src')) /\
  (forall j c, (i <= j < i + n)%nat -> nth_error curated j = Some c ->
               settled env c (apps src')).
Proof.
  revert i src. induction n as [|n IH]; intros i src; cbn [process_from].
  - intros [= <- <-]. repeat split; auto. intros j c Hj. lia.
  - destruct (nth_error curated i) as [cfg|] eqn:Ei.
    2:{ intros [= <- <-]. repeat split; auto. intros j c Hj Hc.
        rewrite (nth_error_beyond _ _ _ Ei) in Hc; [discriminate | lia]. }
    destruct (process_app env cfg src (Some curated)) as [[s1 l1]|] eqn:Ep; cbn [bind];
      [|discriminate].
    destruct (process_app_step _ _ _ _ _ _ Ep) as (-> & Hn & Hi & Hw & Hkeep & Hcfg).
    cbn [fst snd]. intros H.
    destruct (IH _ _ H) as (-> & Hn' & Hi' & Hw' & Hkeep' & Hall).
    repeat split; try congruence; auto.
    intros j c Hj Hc. destruct (Nat.eq_dec j i) as [->|Hne].
    + assert (c = cfg) by congruence. subst c. auto.
    + apply (Hall j c); [lia | exact Hc].
Qed.

Lemma refreshed_trans (a b c : app_entry) : refreshed a b -> refreshed b c -> refreshed a c.
Proof.
  intros (R1 & D1 & P1 & N1) (R2 & D2 & P2 & N2). repeat split.
  - congruence.
  - congruence.
  - destruct P2 as [P2|P2]; [rewrite P2; exact P1 | right; exact P2].
  - destruct N2 as [N2|N2]; [rewrite N2; exact N1 | right; rewrite <- R1; exact N2].
Qed.

Lemma of_repo_length (R : app_entry -> app_entry -> Prop) (r : string)
    (l l' : list app_entry) :
  (forall a b, R a b -> githubRepo b = githubRepo a) ->
  Forall2 R l l' -> List.length (of_repo r l') = List.length (of_repo r l).
Proof.
  intros HR F. induction F as [|a b t t' Hab _ IH]; [reflexivity|].
  unfold of_repo in *. cbn [filter]. rewrite (HR a b Hab).
  destruct (get_is (githubRepo a) r); cbn [List.length]; congruence.
Qed.

Lemma renamed_within_trans (curated : list app_config) (l0 l1 : list app_entry)
    (a b c : app_entry) :
  (forall r, List.length (of_repo r l1) = List.length (of_repo r l0)) ->
  githubRepo b = githubRepo a ->
  renamed_within curated l0 a b -> renamed_within curated l1 b c ->
  renamed_within curated l0 a c.
Proof.
  intros Hlen Hr [N1|N1] [N2|(c0 & Hin & Hg & H1)].
  - left. congruence.
  - right. exists c0. rewrite <- Hlen, <- Hr. auto.
  - right. exact N1.
  - right. exact N1.
Qed.

(** On a catalog in which every curated app is settled, the loop only
    refreshes entries, and renames none but the single entry of a curated
    repo. *)
Lemma process_from_refreshes (env : Env) (curated : list app_config) (n i : nat)
    (src src' : source_data) (cur' : list app_config) :
  Forall (fun c => truthy (github_repo c) = true) curated ->
  (forall c, In c curated -> settled env c (apps src)) ->
  process_from env i n src curated = Return (src', cur') ->
  cur' = curated /\
  src_name src' = src_name src /\ src_identifier src' = src_identifier src /\
  news src' = news src /\
  Forall2 (fun a a' => refreshed a a' /\ renamed_within curated (apps src) a a')
          (apps src) (apps src').
Proof.
  intros Htruthy. revert i src. induction n as [|n IH]; intros i src Hall; cbn [process_from].
  - intros [= <- <-]. repeat split; auto.
    apply Forall2_refl. intros a. split; [apply refreshed_refl | left; reflexivity].
  - destruct (nth_error curated i) as [cfg|] eqn:Ei.
    2:{ intros [= <- <-]. repeat split; auto.
        apply Forall2_refl. intros a. split; [apply refreshed_refl | left; reflexivity]. }
    assert (Hin : In cfg curated) by (eapply nth_error_In; eassumption).
    destruct (process_app env cfg src (Some curated)) as [[s1 l1]|] eqn:Ep; cbn [bind];
      [|discriminate].
    destruct (process_app_step _ _ _ _ _ _ Ep) as (-> & _ & _ & _ & Hkeep & _).
    rewrite (process_app_settled _ _ _ _ (Hall cfg Hin)) in Ep.
    destruct (refresh_matched _ _ _ _) as [s|] eqn:ER; cbn [bind] in Ep; [|discriminate].
    injection Ep as <-.
    destruct (refresh_matched_frame _ _ _ _ ER) as (Hn & Hi & Hw & HF & _).
    cbn [fst snd]. intros H.
    destruct (IH _ _ (fun c Hc => Hkeep c (Hall c Hc)) H) as (-> & Hn' & Hi' & Hw' & HF').
    repeat split; try congruence.
    assert (Hlen : forall r, List.length (of_repo r (apps s))
                             = List.length (of_repo r (apps src))).
    { intros r. eapply of_repo_length; [|exact HF]. intros a b [_ (G & _)]. exact G. }
    eapply Forall2_compose; [ | exact HF | exact HF'].
    intros a b c [R1 G1] [R2 N2].
    assert (Rab : refreshed a b).
    { apply R1. rewrite Forall_forall in Htruthy. auto. }
    split; [eapply refreshed_trans; eassumption|].
    apply (renamed_within_trans curated (apps src) (apps s) a b c Hlen);
      [apply Rab | | exact N2].
    destruct G1 as (_ & _ & [Nab|[Hg H1]]); [left; exact Nab|].
    right. exists cfg. auto.
Qed.

(** ** Pruning and sorting *)

Section StableSort.
Context {A : Type}.
Variable key : A -> Z.

Lemma insert_by_Forall (P : A -> Prop) (before : A -> A -> bool) (x : A) (l : list A) :
  P x -> Forall P l -> Forall P (insert_by before x l).
Proof.
  intros Px H. induction H as [|y r Py Hr IH]; cbn [insert_by]; [repeat constructor; exact Px|].
  destruct (before y x); repeat (constructor; try assumption).
Qed.

Lemma stable_sort_Forall (P : A -> Prop) (before : A -> A -> bool) (l : list A) :
  Forall P l -> Forall P (stable_sort before l).
Proof.
  intros H. induction H as [|x r Px _ IH]; cbn [stable_sort]; [constructor|].
  apply insert_by_Forall; assumption.
Qed.

(** A stable sort does not reorder the elements that share a key. *)
Lemma filter_insert_by (before : A -> A -> bool) (p : A -> bool) (x : A) (l : list A) :
  (forall a b, p a = true -> p b = true -> before a b = false) ->
  filter p (insert_by before x l) = filter p (x :: l).
Proof.
  intros Hsame. induction l as [|y r IH]; [reflexivity|].
  cbn [insert_by]. destruct (before y x) eqn:Eb; [|reflexivity].
  cbn [filter] in *. rewrite IH.
  destruct (p y) eqn:Py, (p x) eqn:Px; try reflexivity.
  rewrite (Hsame y x Py Px) in Eb. discriminate.
Qed.

Lemma filter_stable_sort (before : A -> A -> bool) (p : A -> bool) (l : list A) :
  (forall a b, p a = true -> p b = true -> before a b = false) ->
  filter p (stable_sort before l) = filter p l.
Proof.
  intros Hsame. induction l as [|x r IH]; [reflexivity|].
  cbn [stable_sort]. rewrite filter_insert_by by exact Hsame.
  cbn [filter]. rewrite IH. reflexivity.
Qed.

Lemma insert_by_sorted (x : A) (l : list A) :
  Sorted Z.le (map key l) ->
  Sorted Z.le (map key (insert_by (fun y x => (key y <? key x)%Z) x l)).
Proof.
  induction l as [|y r IH]; intros Hs; cbn [insert_by map].
  - repeat constructor.
  - destruct (key y <? key x)%Z eqn:E.
    + cbn [map] in Hs. inversion Hs as [|? ? Hr Hhd]; subst.
      cbn [map]. constructor; [apply IH; exact Hr|].
      destruct r as [|z t]; cbn [insert_by map].
      * constructor. apply Z.ltb_lt in E. lia.
      * destruct (key z <? key x)%Z; cbn [map]; constructor.
        -- inversion Hhd; subst. assumption.
        -- apply Z.ltb_lt in E. lia.
    + cbn [map]. constructor; [exact Hs|]. constructor. apply Z.ltb_ge in E. exact E.
Qed.

Lemma sorted_asc_sorted (l : list A) : Sorted Z.le (map key (sorted_asc key l)).
Proof.
  unfold sorted_asc. induction l as [|x r IH]; cbn [stable_sort]; [constructor|].
  apply insert_by_sorted. exact IH.
Qed.

(** Sorting a sorted list changes nothing. *)
Lemma sorted_asc_fixpoint (l : list A) : Sorted Z.le (map key l) -> sorted_asc key l = l.
Proof.
  unfold sorted_asc. induction l as [|x r IH]; intros Hs; [reflexivity|].
  cbn [map] in Hs. inversion Hs as [|? ? Hr Hhd]; subst.
  cbn [stable_sort]. rewrite (IH Hr).
  destruct r as [|y t]; [reflexivity|]. cbn [insert_by].
  cbn [map] in Hhd. inversion Hhd; subst.
  assert (E : (key y <? key x)%Z = false) by (apply Z.ltb_ge; assumption).
  rewrite E. reflexivity.
Qed.
End StableSort.

Lemma filter_filter_implied {A : Type} (p q : A -> bool) (l : list A) :
  (forall a, p a = true -> q a = true) -> filter p (filter q l) = filter p l.
Proof.
  intros H. induction l as [|x r IH]; [reflexivity|]. cbn [filter].
  destruct (q x) eqn:Q; cbn [filter]; destruct (p x) eqn:P; try rewrite IH; try reflexivity.
  rewrite (H x P) in Q. discriminate.
Qed.

Lemma filter_all {A : Type} (p : A -> bool) (l : list A) :
  Forall (fun a => p a = true) l -> filter p l = l.
Proof.
  intros H. induction H as [|x r Px _ IH]; [reflexivity|]. cbn [filter]. rewrite Px, IH.
  reflexivity.
Qed.

(** The pruner and the sorter leave the entries of a curated repo as they
    are, in their order. *)
Lemma of_repo_prune_and_sort (curated : list app_config) (c : app_config)
    (entries : list app_entry) :
  In c curated -> truthy (github_repo c) = true ->
  of_repo (github_repo c) (prune_and_sort curated entries)
  = of_repo (github_repo c) entries.
Proof.
  intros Hin Ht. unfold prune_and_sort, of_repo, sorted_asc.
  rewrite filter_stable_sort.
  - apply filter_filter_implied. intros a Ha. apply get_is_Some in Ha.
    unfold keep_entry. rewrite Ha. cbn [get_truthy]. rewrite Ht.
    apply existsb_exists. exists c. split; [exact Hin|]. cbn [get_is]. apply String.eqb_refl.
  - intros a b Ha Hb. apply get_is_Some in Ha, Hb. unfold get_sort_key. rewrite Ha, Hb.
    apply Z.ltb_irrefl.
Qed.

Lemma settled_prune_and_sort (env : Env) (curated : list app_config) (c : app_config)
    (entries : list app_entry) :
  In c curated -> truthy (github_repo c) = true ->
  settled env c entries -> settled env c (prune_and_sort curated entries).
Proof.
  intros Hin Ht. unfold settled, matched_entry.
  rewrite (of_repo_prune_and_sort _ _ _ Hin Ht). auto.
Qed.

Lemma refreshed_keep_entry (curated : list app_config) (a a' : app_entry) :
  refreshed a a' -> keep_entry curated a' = keep_entry curated a.
Proof.
  intros (Hr & Hd & _ & Hn). unfold keep_entry. rewrite Hr.
  destruct (get_truthy (githubRepo a)) eqn:T; [reflexivity|].
  destruct Hn as [Hn|Hn]; [|discriminate].
  unfold release_data in Hd. injection Hd as Hdev _. rewrite Hn, Hdev. reflexivity.
Qed.

Lemma refreshed_sort_key (curated : list app_config) (a a' : app_entry) :
  refreshed a a' -> get_sort_key curated a' = get_sort_key curated a.
Proof. intros (Hr & _). unfold get_sort_key. rewrite Hr. reflexivity. Qed.

(** A refreshed copy of a pruned and sorted catalog is pruned and
    sorted. *)
Lemma prune_and_sort_refreshed (curated : list app_config) (entries l2 : list app_entry) :
  Forall2 refreshed (prune_and_sort curated entries) l2 ->
  prune_and_sort curated l2 = l2.
Proof.
  intros F.
  assert (Hkeep : Forall (fun a => keep_entry curated a = true)
                         (prune_and_sort curated entries)).
  { unfold prune_and_sort, sorted_asc. apply stable_sort_Forall.
    apply Forall_forall. intros a Ha. apply filter_In in Ha. apply Ha. }
  pose proof (sorted_asc_sorted (get_sort_key curated)
                (filter (keep_entry curated) entries)) as Hsorted.
  fold (prune_and_sort curated entries) in Hsorted.
  revert Hkeep Hsorted F. generalize (prune_and_sort curated entries). intros l1 Hkeep Hsorted F.
  assert (Hkeep2 : Forall (fun a => keep_entry curated a = true) l2).
  { clear Hsorted. induction F as [|a a' r r' Haa' _ IH]; [constructor|].
    inversion Hkeep; subst. constructor; [|apply IH; assumption].
    rewrite (refreshed_keep_entry _ _ _ Haa'). assumption. }
  assert (Hkeys : map (get_sort_key curated) l2 = map (get_sort_key curated) l1).
  { clear Hkeep Hsorted Hkeep2. induction F as [|a a' r r' Haa' _ IH]; [reflexivity|].
    cbn [map]. rewrite IH, (refreshed_sort_key _ _ _ Haa'). reflexivity. }
  unfold prune_and_sort. rewrite (filter_all _ _ Hkeep2).
  apply sorted_asc_fixpoint. rewrite Hkeys. exact Hsorted.
Qed.

(** ** Names *)

(** The shape of the catalog after a call of [process_app]: the matched
    entry, now under the app's name, among entries that only grew, or at
    most one new entry under the app's name. *)
Lemma process_app_effect (env : Env) (cfg : app_config) (src src' : source_data)
    (l l' : option (list app_config)) :
  process_app env cfg src l = Return (src', l') ->
  match find_entry (apps src) (github_repo cfg) (cfg_name cfg) with
  | Some k =>
      Forall2 (grows (apps src) (github_repo cfg)) (apps src) (apps src') /\
      exists e', nth_error (apps src') k = Some e' /\
                 githubRepo e' = Some (github_repo cfg) /\ name e' = Some (cfg_name cfg)
  | None =>
      apps src' = apps src \/
      exists x, apps src' = apps src ++ [x] /\
                githubRepo x = Some (github_repo cfg) /\ name x = Some (cfg_name cfg)
  end.
Proof.
  unfold process_app.
  destruct (refresh_matched _ _ _ _) as [src1|] eqn:ER; cbn [bind]; [|discriminate].
  destruct (refresh_matched_frame _ _ _ _ ER) as (_ & _ & _ & HF & Hm).
  assert (G1 : Forall2 (grows (apps src) (github_repo cfg)) (apps src) (apps src1)).
  { eapply Forall2_impl; [|exact HF]. intros a a' [_ G]. exact G. }
  destruct (find_entry (apps src) (github_repo cfg) (cfg_name cfg)) as [k|] eqn:Ef.
  - destruct Hm as (e & e1 & Hk & Hk1 & Happs & Hname & Hrepo & _ & _).
    rewrite Hk1.
    destruct (resolve_asset env cfg) as [[rel a]|];
      [|intros [= <- <-]; split; [exact G1 | eauto]].
    destruct (has_version (browser_download_url a) e1);
      [intros [= <- <-]; split; [exact G1 | eauto]|].
    destruct (download_ipa env (browser_download_url a)) as [file|];
      [|intros [= <- <-]; split; [exact G1 | eauto]].
    destruct (new_version env cfg rel a file) as [[[v m] b]|]; cbn [bind]; [|discriminate].
    unfold merge_version. rewrite Hk1.
    destruct (versions e1) as [history|] eqn:Hver; cbn [bind]; [|discriminate].
    intros [= <- <-]. cbn [apps with_apps]. split.
    + eapply Forall2_compose;
        [ | exact G1
          | apply (replace_nth_Forall2 _ _ _ (record_new_version v history m b e1) Hk1) ].
      intros x y z (Rx & Vx & Nx) [->|[-> ->]]; [repeat split; assumption|].
      repeat split.
      * cbn [githubRepo record_new_version]. exact Rx.
      * intros u Hu. apply Vx in Hu. unfold has_version in *.
        cbn [versions record_new_version]. rewrite Hver in Hu. cbn [existsb].
        rewrite Hu. apply orb_true_r.
      * cbn [name record_new_version]. exact Nx.
    + exists (record_new_version v history m b e1).
      rewrite nth_error_replace_nth, Nat.eqb_refl, Hk1. repeat split; assumption.
  - subst src1.
    destruct (resolve_asset env cfg) as [[rel a]|]; [|intros [= <- <-]; left; reflexivity].
    destruct (download_ipa env (browser_download_url a)) as [file|];
      [|intros [= <- <-]; left; reflexivity].
    destruct (new_version env cfg rel a file) as [[[v m] b]|]; cbn [bind]; [|discriminate].
    unfold merge_version.
    destruct (new_entry env cfg v m b) as [x|] eqn:Ex; cbn [bind]; [|discriminate].
    intros [= <- <-]. cbn [apps with_apps]. right. exists x.
    destruct (new_entry_shape _ _ _ _ _ _ Ex) as (Hxr & Hxn & _).
    repeat split; assumption.
Qed.

Lemma last_of_repo_snoc (r : string) (l : list app_config) (c : app_config) :
  last_of_repo r (l ++ [c]) =
  if String.eqb (github_repo c) r then Some c else last_of_repo r l.
Proof. unfold last_of_repo. rewrite rev_unit. reflexivity. Qed.

Lemma last_of_repo_In (r : string) (l : list app_config) (c : app_config) :
  last_of_repo r l = Some c -> In c l /\ github_repo c = r.
Proof.
  unfold last_of_repo. intros H. apply find_some in H. destruct H as [Hin Heq].
  apply in_rev in Hin. apply String.eqb_eq in Heq. auto.
Qed.

Lemma last_of_repo_exists (l : list app_config) (c : app_config) :
  In c l -> exists c', last_of_repo (github_repo c) l = Some c'.
Proof.
  intros Hin. unfold last_of_repo.
  destruct (find _ (rev l)) as [c'|] eqn:E; [eauto|].
  apply in_rev in Hin. pose proof (find_none _ _ E c Hin) as H. cbn beta in H.
  rewrite String.eqb_refl in H. discriminate.
Qed.

Lemma of_repo_single (r : string) (l : list app_entry) (e : app_entry) :
  In e l -> githubRepo e = Some r -> List.length (of_repo r l) = 1%nat ->
  of_repo r l = [e].
Proof.
  intros Hin Hr Hlen.
  assert (Hf : In e (of_repo r l)).
  { apply filter_In. split; [exact Hin | apply get_is_Some; exact Hr]. }
  destruct (of_repo r l) as [|a [|b t]]; try discriminate Hlen.
  destruct Hf as [->|[]]. reflexivity.
Qed.

(** After each call, the only entry of a repo bears the name of the last
    app of that repo processed so far. *)
Lemma named_by_last_step (env : Env) (cfg : app_config) (src src' : source_data)
    (l l' : option (list app_config)) (processed : list app_config) :
  named_by_last processed (apps src) ->
  process_app env cfg src l = Return (src', l') ->
  named_by_last (processed ++ [cfg]) (apps src').
Proof.
  intros Inv H r e' c Hof Hlast. rewrite last_of_repo_snoc in Hlast.
  pose proof (process_app_effect _ _ _ _ _ _ H) as E.
  pose proof (find_entry_matched (apps src) (github_repo cfg) (cfg_name cfg)) as Hfm.
  destruct (String.eqb (github_repo cfg) r) eqn:Er.
  - apply String.eqb_eq in Er. subst r. injection Hlast as <-.
    destruct (find_entry _ _ _) as [k|].
    + destruct E as (_ & ek & Hk & Hkr & Hkn).
      assert (Hin : In ek (of_repo (github_repo cfg) (apps src'))).
      { apply filter_In. split; [eapply nth_error_In; eassumption | apply get_is_Some; exact Hkr]. }
      rewrite Hof in Hin. destruct Hin as [->|[]]. exact Hkn.
    + destruct E as [E|(x & E & Hxr & Hxn)]; rewrite E in Hof.
      * unfold matched_entry in Hfm. rewrite Hof in Hfm.
        destruct (find _ [e']); discriminate.
      * rewrite of_repo_app, Hxr in Hof. cbn [get_is] in Hof.
        rewrite String.eqb_refl in Hof.
        destruct (of_repo (github_repo cfg) (apps src)) as [|a t]; cbn [app] in Hof.
        -- injection Hof as <-. exact Hxn.
        -- destruct t; discriminate.
  - assert (Hne : Some (github_repo cfg) <> Some r).
    { intros [= Heq]. rewrite Heq, String.eqb_refl in Er. discriminate. }
    destruct (find_entry _ _ _) as [k|].
    + destruct E as (G & _).
      pose proof (of_repo_grows _ _ _ _ r G) as Gr. rewrite Hof in Gr.
      inversion Gr as [|a a' t t' (_ & _ & Hn) Ht Hl Hr]; subst. inversion Ht; subst.
      assert (Ha : githubRepo a = Some r).
      { apply get_is_Some.
        assert (Hin : In a (of_repo r (apps src))) by (rewrite <- Hl; left; reflexivity).
        apply filter_In in Hin. apply Hin. }
      destruct Hn as [Hn|[Hrc _]]; [|congruence].
      rewrite Hn. apply (Inv r a c); [symmetry; exact Hl | exact Hlast].
    + apply (Inv r e' c); [|exact Hlast].
      destruct E as [E|(x & E & Hxr & _)]; rewrite E in Hof; [exact Hof|].
      rewrite of_repo_app, Hxr in Hof. cbn [get_is] in Hof. rewrite Er in Hof.
      rewrite app_nil_r in Hof. exact Hof.
Qed.

Lemma firstn_succ {A : Type} (l : list A) (i : nat) (x : A) :
  nth_error l i = Some x -> firstn (S i) l = firstn i l ++ [x].
Proof.
  revert i. induction l as [|y r IH]; intros [|i]; cbn [nth_error]; try discriminate.
  - intros [= ->]. reflexivity.
  - intros H. cbn [firstn app] in *. f_equal. apply IH. exact H.
Qed.

Lemma process_from_named (env : Env) (curated : list app_config) (n i : nat)
    (src src' : source_data) (cur' : list app_config) :
  named_by_last (firstn i curated) (apps src) ->
  process_from env i n src curated = Return (src', cur') ->
  named_by_last (firstn (i + n) curated) (apps src').
Proof.
  revert i src. induction n as [|n IH]; intros i src Inv; cbn [process_from].
  - intros [= <- <-]. rewrite Nat.add_0_r. exact Inv.
  - destruct (nth_error curated i) as [cfg|] eqn:Ei.
    2:{ intros [= <- <-]. apply nth_error_None in Ei.
        rewrite firstn_all2 in Inv by exact Ei. rewrite firstn_all2 by lia. exact Inv. }
    destruct (process_app env cfg src (Some curated)) as [[s1 l1]|] eqn:Ep; cbn [bind];
      [|discriminate].
    destruct (process_app_step _ _ _ _ _ _ Ep) as (-> & _).
    cbn [fst snd]. intros H.
    replace (i + S n)%nat with (S i + n)%nat by lia.
    apply (IH (S i) s1); [|exact H].
    rewrite (firstn_succ _ _ _ Ei). eapply named_by_last_step; eassumption.
Qed.

Lemma named_by_last_prune_and_sort (curated : list app_config) (entries : list app_entry) :
  Forall (fun c => truthy (github_repo c) = true) curated ->
  named_by_last curated entries ->
  named_by_last curated (prune_and_sort curated entries).
Proof.
  intros Ht Inv r e c Hof Hlast.
  destruct (last_of_repo_In _ _ _ Hlast) as [Hin <-].
  rewrite Forall_forall in Ht.
  rewrite (of_repo_prune_and_sort _ _ _ Hin (Ht c Hin)) in Hof.
  apply (Inv _ _ _ Hof Hlast).
Qed.

(** ** Two runs in a row *)

Lemma option_string_eqb_refl (o : option string) : option_string_eqb o o = true.
Proof. destruct o; [apply String.eqb_refl | reflexivity]. Qed.

Lemma app_config_eqb_refl (c : app_config) : app_config_eqb c c = true.
Proof.
  unfold app_config_eqb. rewrite !String.eqb_refl, !option_string_eqb_refl.
  destruct (pre_release c) as [[|]|]; reflexivity.
Qed.

Lemma list_eqb_refl (l : list app_config) : list_eqb app_config_eqb l l = true.
Proof.
  induction l as [|c r IH]; [reflexivity|]. cbn [list_eqb].
  rewrite app_config_eqb_refl, IH. reflexivity.
Qed.

(** What a run that returns leaves on disk. *)
Lemma update_repo_result (env : Env) (d d1 : disk) (curated : list app_config)
    (source_name source_identifier : string) :
  config_file d = Holds (Apps curated) ->
  update_repo env d source_name source_identifier = Return d1 ->
  exists loaded s,
    load_existing_source (source_file d) source_name source_identifier = Source loaded /\
    process_from env 0 (List.length curated)
      {| src_name := source_name; src_identifier := source_identifier;
         apps := apps loaded; news := news loaded |} curated = Return (s, curated) /\
    d1 = {| config_file := config_file d;
            source_file := Holds (Source (with_apps (prune_and_sort curated (apps s)) s)) |}.
Proof.
  intros Hc. unfold update_repo. rewrite Hc. cbn [load_json read_json bind].
  destruct (load_existing_source _ _ _) as [|loaded]; [discriminate|].
  destruct (process_from _ _ _ _ _) as [[s cur]|] eqn:E; cbn [bind]; [|discriminate].
  destruct (process_from_settles _ _ _ _ _ _ _ E) as (-> & _).
  rewrite list_eqb_refl. cbn [negb]. intros [= <-].
  exists loaded, s. split; [reflexivity|]. split; [exact E | reflexivity].
Qed.

(** C2 (amended): a second run on the catalog produced by a first run
    rewrites neither the curated list nor, in the catalog, anything but
    the keys that the metadata refresh computes: the entries are the
    same, in the same order, each with the same name, repo slug, release
    data and version history (no version record is appended),
    ['permissions'] is unchanged or removed, and only
    ['bundleIdentifier'], ['iconURL'] and ['tintColor'] are left to the
    refresh. *)
Theorem second_run_only_refreshes (env : Env) (d d1 d2 : disk) (curated : list app_config)
    (source_name source_identifier : string) :
  config_file d = Holds (Apps curated) ->
  Forall (fun c => truthy (github_repo c) = true) curated ->
  update_repo env d source_name source_identifier = Return d1 ->
  update_repo env d1 source_name source_identifier = Return d2 ->
  config_file d2 = config_file d1 /\
  same_up_to_refresh (source_file d1) (source_file d2).
Proof.
  intros Hc Ht H1 H2.
  destruct (update_repo_result _ _ _ _ _ _ Hc H1) as (loaded & sA & _ & EA & ->).
  cbn [config_file] in *.
  apply update_repo_result with (curated := curated) in H2; [|exact Hc].
  destruct H2 as (loaded2 & sB & EL & EB & ->).
  cbn [config_file source_file load_existing_source load_json read_json] in *.
  injection EL as <-. cbn [apps news with_apps] in EB.
  split; [reflexivity|].
  destruct (process_from_settles _ _ _ _ _ _ _ EA) as (_ & HnA & HiA & HwA & _ & HallA).
  assert (Hall : forall c, In c curated ->
            settled env c (prune_and_sort curated (apps sA))).
  { intros c Hin. rewrite Forall_forall in Ht.
    apply settled_prune_and_sort; [exact Hin | auto |].
    destruct (In_nth_error _ _ Hin) as [j Hj].
    apply (HallA j c); [|exact Hj].
    assert (j < List.length curated)%nat by (apply nth_error_Some; congruence). lia. }
  (* names: at the end of each run the single entry of a repo is named
     after the last curated app of the repo *)
  assert (Inv1 : named_by_last curated (prune_and_sort curated (apps sA))).
  { apply named_by_last_prune_and_sort; [exact Ht|].
    apply process_from_named in EA; [|intros r e c _ Hl; discriminate Hl].
    cbn [Nat.add] in EA. rewrite firstn_all in EA. exact EA. }
  assert (Inv2 : named_by_last curated (apps sB)).
  { pose proof EB as EB'.
    apply process_from_named in EB'; [|intros r e c _ Hl; discriminate Hl].
    cbn [Nat.add] in EB'. rewrite firstn_all in EB'. exact EB'. }
  apply process_from_refreshes in EB; [|exact Ht | exact Hall].
  destruct EB as (_ & HnB & HiB & HwB & HF).
  cbn [apps src_name src_identifier news] in *.
  assert (HF' : Forall2 refreshed (prune_and_sort curated (apps sA)) (apps sB)).
  { eapply Forall2_impl; [|exact HF]. intros a b [R _]. exact R. }
  rewrite (prune_and_sort_refreshed _ _ _ HF').
  cbn [same_up_to_refresh src_name src_identifier news apps with_apps].
  repeat split; try congruence.
  assert (Hlen : forall r, List.length (of_repo r (apps sB))
                 = List.length (of_repo r (prune_and_sort curated (apps sA)))).
  { intros r. eapply of_repo_length; [|exact HF']. intros a b (G & _). exact G. }
  revert Inv1 Inv2 Hlen HF. generalize (prune_and_sort curated (apps sA)) (apps sB).
  intros l1 l2 Inv1 Inv2 Hlen HF.
  apply Forall2_In with (1 := HF). intros a b Ha Hb [(Hr & Hd & Hp & _) Hn].
  repeat split; auto.
  destruct Hn as [Hn|(c0 & Hin0 & Hg & Hone)]; [exact Hn|].
  destruct (last_of_repo_exists _ _ Hin0) as [cl Hcl].
  rewrite (Inv1 _ a cl (of_repo_single _ _ _ Ha Hg Hone) Hcl).
  apply (Inv2 (github_repo c0)); [|exact Hcl].
  apply of_repo_single; [exact Hb | congruence | rewrite Hlen; exact Hone].
Qed.

(** C2 (as stated) fails: the first run over [foo_disk] creates the entry
    of Foo with an empty ['permissions'] object, the second run matches
    the entry and removes the key, so the two persisted catalogs differ. *)
Lemma second_run_removes_permissions :
  update_repo foo_upstream foo_disk "Foo Source" "org.foo.source" = Return foo_disk_1 /\
  update_repo foo_upstream foo_disk_1 "Foo Source" "org.foo.source" = Return foo_disk_2 /\
  catalog_column permissions foo_disk_1 = [Some (JObj [])] /\
  catalog_column permissions foo_disk_2 = [None] /\
  source_file foo_disk_2 <> source_file foo_disk_1.
Proof.
  repeat split; try (vm_compute; reflexivity).
  intros H. apply (f_equal (fun f => match f with
                                     | Holds (Source s) => map permissions (apps s)
                                     | _ => []
                                     end)) in H.
  vm_compute in H. discriminate H.
Qed.

Lemma second_run_only_refreshes_witness :
  config_file foo_disk_2 = config_file foo_disk_1 /\
  same_up_to_refresh (source_file foo_disk_1) (source_file foo_disk_2).
Proof.
  apply (second_run_only_refreshes foo_upstream foo_disk foo_disk_1 foo_disk_2
           [foo_config] "Foo Source" "org.foo.source").
  - reflexivity.
  - repeat constructor.
  - vm_compute. reflexivity.
  - vm_compute. reflexivity.
Defined.

(** The other keys of the refresh are not stable either.  With two
    flavors of one repository the second run appends the suffixes of both
    to the bundle identifier once more. *)
Lemma second_run_extends_bundle_identifier :
  exists d1 d2,
    run_twice foo_upstream (disk_of [foo_nightly; foo_beta]) "Foo Source" "org.foo.source"
      = Return (d1, d2) /\
    catalog_column bundleIdentifier d1 = [Some "com.example.foo.nightly.beta"] /\
    catalog_column bundleIdentifier d2 = [Some "com.example.foo.nightly.beta.nightly.beta"] /\
    catalog_column versions d2 = catalog_column versions d1.
Proof.
  eexists. eexists. split; [vm_compute; reflexivity|].
  repeat split; vm_compute; reflexivity.
Qed.

(** A flavor without release creates nothing on the first run; on the
    second run it is matched with the entry that the other flavor created
    and writes its tint there. *)
Lemma second_run_overwrites_tint :
  exists d1 d2,
    run_twice foo_upstream (disk_of [foo_nightly_tagged; foo_config])
              "Foo Source" "org.foo.source" = Return (d1, d2) /\
    catalog_column name d1 = [Some "Foo"] /\
    catalog_column name d2 = [Some "Foo"] /\
    catalog_column tintColor d1 = [Some "#000000"] /\
    catalog_column tintColor d2 = [Some "#FF0000"].
Proof.
  eexists. eexists. split; [vm_compute; reflexivity|].
  repeat split; vm_compute; reflexivity.
Qed.

(** A new entry takes the configured icon as it is; the refresh of the
    second run compares its path score with the discovered icon's. *)
Lemma second_run_replaces_icon :
  exists d1 d2,
    run_twice foo_upstream (disk_of [foo_android_icon]) "Foo Source" "org.foo.source"
      = Return (d1, d2) /\
    catalog_column iconURL d1 = [Some "https://example.com/android/pic.png"] /\
    catalog_column iconURL d2 = [Some "h"].
Proof.
  eexists. eexists. split; [vm_compute; reflexivity|].
  split; vm_compute; reflexivity.
Qed.

(** ** The curated list is never written *)

Lemma update_repo_keeps_config_file (env : Env) (d d' : disk)
    (source_name source_identifier : string) :
  update_repo env d source_name source_identifier = Return d' ->
  config_file d' = config_file d.
Proof.
  destruct (config_file d) as [| | |[curated|s]] eqn:Hc.
  - unfold update_repo. rewrite Hc. intros H. injection H as H. subst d'. exact Hc.
  - unfold update_repo. rewrite Hc. discriminate.
  - unfold update_repo. rewrite Hc. discriminate.
  - intros H. destruct (update_repo_result _ _ _ _ _ _ Hc H) as (loaded & s & _ & _ & Hd).
    rewrite Hd. cbn [config_file]. exact Hc.
  - unfold update_repo. rewrite Hc. discriminate.
Qed.

(** C8 (the code at the failing input): the curated entry of Foo has an
    empty icon override and the run discovers an icon for it, which goes
    into the catalog; [found_icon_auto] is still [None] at the write-back,
    so the curated list is the same after the run and its file is not
    rewritten. *)
Lemma update_repo_does_not_sync_icon :
  icon_url foo_config = Some "" /\
  update_repo foo_upstream foo_disk "Foo Source" "org.foo.source" = Return foo_disk_1 /\
  catalog_column iconURL foo_disk_1 = [Some "h"] /\
  config_file foo_disk_1 = Holds (Apps [foo_config]) /\
  config_file foo_disk_1 = config_file foo_disk.
Proof. repeat split; vm_compute; reflexivity. Qed.

(** ** The ['permissions'] key *)

(** C10: when [process_app] returns, the entry it matched has no
    ['permissions'] key, also when no release or asset was found and the
    version history is as it was; an entry it created has an empty
    ['permissions'] object. *)
Theorem process_app_permissions (env : Env) (cfg : app_config) (src src' : source_data)
    (l l' : option (list app_config)) :
  process_app env cfg src l = Return (src', l') ->
  match find_entry (apps src) (github_repo cfg) (cfg_name cfg) with
  | Some k =>
      exists e e', nth_error (apps src) k = Some e /\
                   nth_error (apps src') k = Some e' /\
                   permissions e' = None /\
                   (resolve_asset env cfg = None -> versions e' = versions e)
  | None =>
      apps src' = apps src \/
      exists e', apps src' = apps src ++ [e'] /\ permissions e' = Some (JObj [])
  end.
Proof.
  unfold process_app.
  destruct (refresh_matched _ _ _ _) as [src1|] eqn:ER; cbn [bind]; [|discriminate].
  destruct (refresh_matched_frame _ _ _ _ ER) as (_ & _ & _ & _ & Hm).
  destruct (find_entry (apps src) (github_repo cfg) (cfg_name cfg)) as [k|] eqn:Ef.
  - destruct Hm as (e & e1 & Hk & Hk1 & Happs & _ & _ & Hperm & Hdata).
    assert (Hver : versions e1 = versions e).
    { unfold release_data in Hdata. injection Hdata as _ _ _ _ _ _ _ _ _ Hv. exact Hv. }
    rewrite Hk1.
    destruct (resolve_asset env cfg) as [[rel a]|] eqn:ERes.
    2:{ intros [= <- <-]. exists e, e1. auto. }
    destruct (has_version (browser_download_url a) e1).
    { intros [= <- <-]. exists e, e1. repeat split; auto. }
    destruct (download_ipa env (browser_download_url a)) as [file|].
    2:{ intros [= <- <-]. exists e, e1. repeat split; auto. }
    destruct (new_version env cfg rel a file) as [[[v m] b]|]; cbn [bind]; [|discriminate].
    unfold merge_version. rewrite Hk1.
    destruct (versions e1) as [history|]; cbn [bind]; [|discriminate].
    intros [= <- <-]. cbn [apps with_apps].
    exists e, (record_new_version v history m b e1).
    rewrite nth_error_replace_nth, Nat.eqb_refl, Hk1.
    repeat split; auto. discriminate.
  - subst src1.
    destruct (resolve_asset env cfg) as [[rel a]|]; [|intros [= <- <-]; left; reflexivity].
    destruct (download_ipa env (browser_download_url a)) as [file|];
      [|intros [= <- <-]; left; reflexivity].
    destruct (new_version env cfg rel a file) as [[[v m] b]|]; cbn [bind]; [|discriminate].
    unfold merge_version.
    destruct (new_entry env cfg v m b) as [x|] eqn:Ex; cbn [bind]; [|discriminate].
    intros [= <- <-]. cbn [apps with_apps]. right. exists x. split; [reflexivity|].
    apply (new_entry_shape _ _ _ _ _ _ Ex).
Qed.

Lemma process_app_permissions_witness :
  (exists e e', nth_error [foo_entry] 0 = Some e /\
                nth_error [pop_permissions foo_entry] 0 = Some e' /\
                permissions e' = None /\
                (resolve_asset foo_upstream foo_config = None -> versions e' = versions e)) /\
  ([foo_entry] = [] \/
   exists e', [foo_entry] = [] ++ [e'] /\ permissions e' = Some (JObj [])).
Proof.
  split.
  - apply (process_app_permissions foo_upstream foo_config (foo_source [foo_entry])
             (foo_source [pop_permissions foo_entry]) None None).
    vm_compute. reflexivity.
  - apply (process_app_permissions foo_upstream foo_config (foo_source [])
             (foo_source [foo_entry]) None None).
    vm_compute. reflexivity.
Defined.

(** * Part III: further properties of the code *)

(** ** Release resolver: what it returns in general *)

Lemma most_recent_In (l : list release) (m : release) :
  most_recent l = Some m -> In m l.
Proof.
  intros H. destruct (most_recent_spec _ _ H) as (l1 & l2 & -> & _).
  apply in_or_app. right. left. reflexivity.
Qed.

Lemma most_recent_nil (l : list release) : most_recent l = None -> l = [].
Proof.
  destruct l as [|r rest]; [reflexivity|]. cbn [most_recent].
  destruct (most_recent rest); [destruct (geb _ _)|]; discriminate.
Qed.

Lemma active_releases_In (env : Env) (releases : list release) (tag_regex : option string)
    (r : release) :
  In r (active_releases env releases tag_regex) ->
  In r releases /\ draft r = false /\
  forall pattern search,
    tag_regex = Some pattern -> truthy pattern = true ->
    re_compile_i env pattern = Some search -> search (tag_name r) = true.
Proof.
  unfold active_releases. intros H.
  assert (Hbase : In r (filter (fun r => negb (draft r)) releases) ->
                  In r releases /\ draft r = false).
  { intros Hin. apply filter_In in Hin. destruct Hin as [Hin Hd].
    split; [exact Hin|]. destruct (draft r); [discriminate | reflexivity]. }
  destruct tag_regex as [re|].
  - destruct (truthy re) eqn:T.
    + destruct (re_compile_i env re) as [search|] eqn:C.
      * apply filter_In in H. destruct H as [Hin Hs].
        destruct (Hbase Hin) as [H1 H2]. repeat split; auto.
        intros pattern search' [= <-] _ Hc. congruence.
      * destruct (Hbase H) as [H1 H2]. repeat split; auto.
        intros pattern search' [= <-] _ Hc. congruence.
    + destruct (Hbase H) as [H1 H2]. repeat split; auto.
      intros pattern search' [= <-] T'. congruence.
  - destruct (Hbase H) as [H1 H2]. repeat split; auto. discriminate.
Qed.

Lemma latest_release_In_active (env : Env) (releases : list release)
    (prefer : bool) (tag_regex : option string) (r : release) :
  latest_release env releases prefer tag_regex = Some r ->
  In r (active_releases env releases tag_regex).
Proof.
  unfold latest_release.
  set (active := active_releases env releases tag_regex).
  destruct active as [|a act] eqn:Ea; [discriminate|]. rewrite <- Ea.
  assert (Hpart : forall p l, hd_error (sorted_desc get_date (filter p active)) = Some l ->
                              In l active).
  { intros p l Hl. rewrite hd_sorted_desc in Hl. apply most_recent_In in Hl.
    apply filter_In in Hl. apply Hl. }
  assert (Hall : forall l, hd_error (sorted_desc get_date active) = Some l -> In l active).
  { intros l Hl. rewrite hd_sorted_desc in Hl. apply most_recent_In in Hl. exact Hl. }
  destruct prefer.
  - destruct (sorted_desc get_date (filter (fun r => prerelease r) active))
      as [|p ps] eqn:Ep;
      destruct (sorted_desc get_date (filter (fun r => negb (prerelease r)) active))
      as [|s ss] eqn:Es; cbn [hd_error]; try discriminate.
    + intros [= <-]. apply (Hpart (fun r => negb (prerelease r))). rewrite Es. reflexivity.
    + intros [= <-]. apply (Hpart (fun r => prerelease r)). rewrite Ep. reflexivity.
    + destruct (geb (get_date p) (get_date s)); intros [= <-].
      * apply (Hpart (fun r => prerelease r)). rewrite Ep. reflexivity.
      * apply (Hpart (fun r => negb (prerelease r))). rewrite Es. reflexivity.
  - destruct (filter (fun r => negb (prerelease r)) active) as [|s ss] eqn:Es.
    + apply Hall.
    + rewrite <- Es. apply Hpart.
Qed.

(** X1: whatever the preferences, the release that the resolver returns
    is one of the releases of the list, is not a draft and, when a tag
    pattern is given and compiles, has a tag that the pattern matches. *)
Theorem latest_release_is_candidate (env : Env) (releases : list release)
    (prefer : bool) (tag_regex : option string) (r : release) :
  latest_release env releases prefer tag_regex = Some r ->
  In r releases /\ draft r = false /\
  forall pattern search,
    tag_regex = Some pattern -> truthy pattern = true ->
    re_compile_i env pattern = Some search -> search (tag_name r) = true.
Proof.
  intros H. apply active_releases_In. eapply latest_release_In_active. exact H.
Qed.

Lemma latest_release_is_candidate_witness :
  In rel_nightly [foo_release; rel_nightly] /\ draft rel_nightly = false /\
  forall pattern search,
    Some "nightly" = Some pattern -> truthy pattern = true ->
    re_compile_i foo_upstream pattern = Some search ->
    search (tag_name rel_nightly) = true.
Proof.
  apply (latest_release_is_candidate foo_upstream [foo_release; rel_nightly] true
           (Some "nightly")).
  reflexivity.
Defined.

(** X2: without [prefer_pre_release] the resolver returns the most recent
    stable candidate when there is one, and else the most recent
    candidate of all. *)
Theorem latest_release_prefers_stable (env : Env) (releases : list release)
    (tag_regex : option string) :
  latest_release env releases false tag_regex =
  let active := active_releases env releases tag_regex in
  match most_recent (filter (fun r => negb (prerelease r)) active) with
  | Some s => Some s
  | None => most_recent active
  end.
Proof.
  unfold latest_release. cbv zeta.
  set (active := active_releases env releases tag_regex).
  rewrite <- !hd_sorted_desc.
  destruct active as [|a act] eqn:Ea; [reflexivity|]. rewrite <- Ea.
  destruct (filter (fun r => negb (prerelease r)) active) as [|s ss] eqn:Es;
    [reflexivity|].
  rewrite hd_sorted_desc.
  destruct (most_recent (s :: ss)) eqn:Em; [reflexivity|].
  apply most_recent_nil in Em. discriminate.
Qed.

(** X3: the resolver finds no release exactly when the draft and tag
    filters leave no candidate; any candidate at all gives a result. *)
Theorem latest_release_none_iff (env : Env) (releases : list release)
    (prefer : bool) (tag_regex : option string) :
  latest_release env releases prefer tag_regex = None <->
  active_releases env releases tag_regex = [].
Proof.
  unfold latest_release.
  set (active := active_releases env releases tag_regex).
  split; [|intros ->; reflexivity].
  destruct active as [|a act] eqn:Ea; [reflexivity|]. rewrite <- Ea.
  assert (Hne : forall l : list release, l <> [] -> hd_error (sorted_desc get_date l) <> None).
  { intros l Hl E. rewrite hd_sorted_desc in E. apply most_recent_nil in E. contradiction. }
  assert (Hsplit : filter (fun r => prerelease r) active <> [] \/
                   filter (fun r => negb (prerelease r)) active <> []).
  { rewrite Ea. cbn [filter]. destruct (prerelease a); cbn [negb]; [left | right]; discriminate. }
  intros H. exfalso. destruct prefer.
  - destruct (sorted_desc get_date (filter (fun r => prerelease r) active))
      as [|p ps] eqn:Ep;
      destruct (sorted_desc get_date (filter (fun r => negb (prerelease r)) active))
      as [|s ss] eqn:Es; cbn [hd_error] in H; try discriminate H.
    + destruct Hsplit as [Hs|Hs]; apply Hne in Hs; [rewrite Ep in Hs | rewrite Es in Hs];
        apply Hs; reflexivity.
    + destruct (geb (get_date p) (get_date s)); discriminate H.
  - destruct (filter (fun r => negb (prerelease r)) active) as [|s ss] eqn:Es.
    + apply (Hne active); [rewrite Ea; discriminate | exact H].
    + apply (Hne (s :: ss)); [discriminate | exact H].
Qed.

(** ** Asset resolver *)

Lemma stable_sort_In {A : Type} (before : A -> A -> bool) (l : list A) (x : A) :
  In x (stable_sort before l) -> In x l.
Proof.
  intros H.
  assert (F : Forall (fun y => In y l) (stable_sort before l)).
  { apply stable_sort_Forall. apply Forall_forall. auto. }
  rewrite Forall_forall in F. auto.
Qed.

Lemma select_best_ipa_In (env : Env) (assets : list asset) (cfg : app_config) (a : asset) :
  select_best_ipa env assets cfg = Some a ->
  In a (filter (fun a => endswith (lower (asset_name a)) ".ipa") assets).
Proof.
  unfold select_best_ipa.
  set (ipa := filter (fun a => endswith (lower (asset_name a)) ".ipa") assets).
  destruct ipa as [|x [|y t]] eqn:E; [discriminate | intros [= <-]; left; reflexivity |].
  rewrite <- E.
  match goal with
  | |- match ?by_regex with Some _ => _ | None => _ end = _ -> _ =>
      destruct by_regex as [a0|] eqn:Hre
  end.
  { intros [= ->].
    destruct (ipa_regex cfg) as [re|]; [|discriminate].
    destruct (truthy re); [|discriminate].
    destruct (re_compile_i env re) as [search|]; [|discriminate].
    apply find_some in Hre. apply Hre. }
  clear Hre.
  match goal with
  | |- match find ?p ipa with Some _ => _ | None => _ end = _ -> _ =>
      destruct (find p ipa) as [a1|] eqn:Hexact
  end.
  { intros [= ->]. apply find_some in Hexact. apply Hexact. }
  clear Hexact.
  match goal with
  | |- match ?by_score with Some _ => _ | None => _ end = _ -> _ =>
      destruct by_score as [a2|] eqn:Hscore
  end.
  { intros [= ->].
    match type of Hscore with
    | match ?scored with _ => _ end = _ => destruct scored as [|[s b] rest] eqn:Hsorted
    end; [discriminate|].
    destruct (0 <? s)%Z; [|discriminate]. injection Hscore as ->.
    assert (Hin : In (s, a) ((s, a) :: rest)) by (left; reflexivity).
    rewrite <- Hsorted in Hin. apply stable_sort_In in Hin. apply in_map_iff in Hin.
    destruct Hin as (a' & [= _ ->] & Ha'). exact Ha'. }
  clear Hscore.
  match goal with
  | |- match filter ?p ipa with _ => _ end = _ -> _ =>
      destruct (filter p ipa) as [|a3 rest] eqn:Hf
  end.
  - intros [= ->]. rewrite E. left. reflexivity.
  - intros [= ->].
    assert (Hin : In a (a :: rest)) by (left; reflexivity).
    rewrite <- Hf in Hin. apply filter_In in Hin. apply Hin.
Qed.

(** X4: the asset resolver finds no asset exactly when no asset of the
    release has a name ending in [.ipa] (whatever the case); an asset it
    returns is an asset of the release with such a name. *)
Theorem select_best_ipa_result (env : Env) (assets : list asset) (cfg : app_config) :
  (select_best_ipa env assets cfg = None <->
   Forall (fun a => endswith (lower (asset_name a)) ".ipa" = false) assets) /\
  (forall a, select_best_ipa env assets cfg = Some a ->
             In a assets /\ endswith (lower (asset_name a)) ".ipa" = true).
Proof.
  split.
  - split.
    + intros H. apply Forall_forall. intros a Ha.
      destruct (endswith (lower (asset_name a)) ".ipa") eqn:Ea; [|reflexivity].
      assert (Hin : In a (filter (fun a => endswith (lower (asset_name a)) ".ipa") assets)).
      { apply filter_In. auto. }
      unfold select_best_ipa in H.
      destruct (filter _ assets) as [|x [|y t]]; [destruct Hin | discriminate H |].
      exfalso. clear Hin.
      repeat match type of H with
             | match ?m with _ => _ end = None => destruct m; try discriminate H
             end.
    + intros H. unfold select_best_ipa.
      assert (E : filter (fun a => endswith (lower (asset_name a)) ".ipa") assets = []).
      { induction H as [|a r Ha _ IH]; [reflexivity|]. cbn [filter]. rewrite Ha. exact IH. }
      rewrite E. reflexivity.
  - intros a H. apply select_best_ipa_In in H. apply filter_In in H. exact H.
Qed.


Lemma select_best_ipa_result_witness :
  In (hd {| asset_name := ""; browser_download_url := ""; asset_size := 0 |}
         (assets foo_release)) (assets foo_release) /\
  endswith (lower "Foo.ipa") ".ipa" = true.
Proof.
  apply (proj2 (select_best_ipa_result foo_upstream (assets foo_release) foo_config)).
  reflexivity.
Defined.

(** ** Colour extractor: the dominant colour *)

Lemma dominant_below (m : Z) (l : list (Z * rgba)) (m0 : Z) (d0 : Z * Z * Z) :
  (m0 < m)%Z ->
  Forall (fun e => discarded (snd e) = false -> (fst e < m)%Z) l ->
  (fst (fold_left dominant_step l (m0, d0)) < m)%Z.
Proof.
  intros Hm H. revert m0 d0 Hm. induction H as [|[count color] rest He _ IH]; intros m0 d0 Hm.
  - exact Hm.
  - cbn [fold_left]. unfold dominant_step at 2. cbn [fst snd] in He.
    destruct (discarded color); [apply IH; exact Hm|].
    destruct color as [[[r g] b] a].
    destruct (m0 <? count)%Z; apply IH; auto.
Qed.

Lemma dominant_stays (l : list (Z * rgba)) (m : Z) (d : Z * Z * Z) :
  Forall (fun e => discarded (snd e) = false -> (fst e <= m)%Z) l ->
  fold_left dominant_step l (m, d) = (m, d).
Proof.
  intros H. induction H as [|[count color] rest He _ IH]; [reflexivity|].
  cbn [fold_left]. cbn [fst snd] in He.
  assert (E : dominant_step (m, d) (count, color) = (m, d)).
  { unfold dominant_step. destruct (discarded color); [reflexivity|].
    destruct color as [[[r g] b] a].
    assert (L : (m <? count)%Z = false) by (apply Z.ltb_ge; auto).
    rewrite L. reflexivity. }
  rewrite E. exact IH.
Qed.

Lemma dominant_first_max (l1 l2 : list (Z * rgba)) (m r g b a : Z) :
  (0 < m)%Z -> discarded (r, g, b, a) = false ->
  Forall (fun e => discarded (snd e) = false -> (fst e < m)%Z) l1 ->
  Forall (fun e => discarded (snd e) = false -> (fst e <= m)%Z) l2 ->
  fold_left dominant_step (l1 ++ (m, (r, g, b, a)) :: l2) (0%Z, (0%Z, 0%Z, 0%Z))
  = (m, (r, g, b)).
Proof.
  intros Hm Hd H1 H2. rewrite fold_left_app. cbn [fold_left].
  pose proof (dominant_below m l1 0%Z (0%Z, 0%Z, 0%Z) Hm H1) as Hlt.
  destruct (fold_left dominant_step l1 (0%Z, (0%Z, 0%Z, 0%Z))) as [m1 d1].
  cbn [fst] in Hlt.
  assert (E : dominant_step (m1, d1) (m, (r, g, b, a)) = (m, (r, g, b))).
  { unfold dominant_step. rewrite Hd.
    assert (L : (m1 <? m)%Z = true) by (apply Z.ltb_lt; exact Hlt).
    rewrite L. reflexivity. }
  rewrite E. apply dominant_stays. exact H2.
Qed.

(** X5: the extractor returns the hex code of the most frequent colour
    among those that pass the filters, the first one of [getcolors] when
    several are as frequent. *)
Theorem extract_dominant_color_most_frequent (env : Env) (url content : string)
    (img : image) (l1 l2 : list (Z * rgba)) (m r g b a : Z) :
  is_http_url url = true ->
  http_get env url = Some content ->
  image_open env content = Some img ->
  img_colors img = l1 ++ (m, (r, g, b, a)) :: l2 ->
  (0 < m)%Z -> discarded (r, g, b, a) = false ->
  Forall (fun e => discarded (snd e) = false -> (fst e < m)%Z) l1 ->
  Forall (fun e => discarded (snd e) = false -> (fst e <= m)%Z) l2 ->
  extract_dominant_color env url = Some (hex_code r g b).
Proof.
  intros Hurl Hget Hopen Hcol Hm Hd H1 H2.
  unfold extract_dominant_color. rewrite Hurl, Hget, Hopen, Hcol. cbn [negb].
  pose proof (dominant_first_max l1 l2 m r g b a Hm Hd H1 H2) as Hfold.
  destruct (l1 ++ (m, (r, g, b, a)) :: l2) eqn:E; [destruct l1; discriminate E|].
  rewrite Hfold. reflexivity.
Qed.

Lemma extract_dominant_color_most_frequent_witness :
  extract_dominant_color (serving flag_image) "https://example.com/flag.png"
  = Some "#FF0000".
Proof.
  apply (extract_dominant_color_most_frequent (serving flag_image)
           "https://example.com/flag.png" "image" flag_image
           [ (4000%Z, (255%Z, 255%Z, 255%Z, 255%Z)); (20%Z, (10%Z, 200%Z, 30%Z, 255%Z)) ]
           [ (2500%Z, (0%Z, 0%Z, 255%Z, 255%Z)); (980%Z, (7%Z, 7%Z, 7%Z, 0%Z)) ]
           2500%Z 255%Z 0%Z 0%Z 255%Z).
  - reflexivity.
  - reflexivity.
  - reflexivity.
  - reflexivity.
  - reflexivity.
  - reflexivity.
  - repeat constructor; cbn; intros; try discriminate; lia.
  - repeat constructor; cbn; intros; try discriminate; lia.
Defined.

(** ** Colour extractor: the format of the result *)

Lemma hex_digit_upper (k : Z) :
  (0 <= k < 16)%Z -> is_hex_upper (upper_char (hex_digit k)) = true.
Proof.
  intros Hk.
  assert (H : exists n, (n < 16)%nat /\ k = Z.of_nat n).
  { exists (Z.to_nat k). split; lia. }
  destruct H as (n & Hn & ->).
  do 16 (destruct n as [|n]; [vm_compute; reflexivity|]). lia.
Qed.

Lemma format_02x_upper (n : Z) :
  is_channel n ->
  exists c1 c2, upper (format_02x n) = String c1 (String c2 EmptyString) /\
                is_hex_upper c1 = true /\ is_hex_upper c2 = true.
Proof.
  intros Hn. unfold is_channel in Hn.
  exists (upper_char (hex_digit (n / 16))), (upper_char (hex_digit (n mod 16))).
  repeat split.
  - apply hex_digit_upper. split; [apply Z.div_pos; lia | apply Z.div_lt_upper_bound; lia].
  - apply hex_digit_upper. apply Z.mod_pos_bound. lia.
Qed.

Lemma hex_code_format (r g b : Z) :
  is_channel r -> is_channel g -> is_channel b ->
  exists h, hex_code r g b = String "#" h /\ String.length h = 6%nat /\
            all_chars is_hex_upper h = true.
Proof.
  intros Hr Hg Hb. unfold hex_code, upper.
  rewrite !map_chars_app. fold upper.
  destruct (format_02x_upper r Hr) as (r1 & r2 & -> & R1 & R2).
  destruct (format_02x_upper g Hg) as (g1 & g2 & -> & G1 & G2).
  destruct (format_02x_upper b Hb) as (b1 & b2 & -> & B1 & B2).
  eexists. split; [reflexivity|]. split; [reflexivity|].
  cbn [all_chars String.append]. rewrite R1, R2, G1, G2, B1, B2. reflexivity.
Qed.

Lemma dominant_channels (l : list (Z * rgba)) (m0 r0 g0 b0 : Z) :
  Forall channels_ok l ->
  is_channel r0 -> is_channel g0 -> is_channel b0 ->
  let '(_, (r, g, b)) := fold_left dominant_step l (m0, (r0, g0, b0)) in
  is_channel r /\ is_channel g /\ is_channel b.
Proof.
  intros H. revert m0 r0 g0 b0.
  induction H as [|[count [[[r g] b] a]] rest (Hr & Hg & Hb & _) _ IH];
    intros m0 r0 g0 b0 H1 H2 H3.
  - cbn. auto.
  - cbn [fold_left]. unfold dominant_step at 2.
    destruct (discarded (r, g, b, a)); [apply IH; assumption|].
    destruct (m0 <? count)%Z; apply IH; assumption.
Qed.

(** X6: a colour that the extractor returns for an RGBA image is a ['#']
    followed by six upper-case hexadecimal digits. *)
Theorem extract_dominant_color_format (env : Env) (url content s : string) (img : image) :
  http_get env url = Some content ->
  image_open env content = Some img ->
  Forall channels_ok (img_colors img) ->
  extract_dominant_color env url = Some s ->
  exists h, s = String "#" h /\ String.length h = 6%nat /\
            all_chars is_hex_upper h = true.
Proof.
  intros Hget Hopen Hok. unfold extract_dominant_color.
  destruct (negb (is_http_url url)); [discriminate|]. rewrite Hget, Hopen.
  pose proof (dominant_channels (img_colors img) 0 0 0 0 Hok) as Hch.
  destruct (img_colors img) as [|c cs]; [discriminate|].
  destruct (fold_left dominant_step (c :: cs) (0%Z, (0%Z, 0%Z, 0%Z))) as [m [[r g] b]].
  destruct Hch as (Hr & Hg & Hb); try (unfold is_channel; lia).
  intros [= <-]. apply hex_code_format; assumption.
Qed.

Lemma extract_dominant_color_format_witness :
  exists h, "#FF0000" = String "#" h /\ String.length h = 6%nat /\
            all_chars is_hex_upper h = true.
Proof.
  apply (extract_dominant_color_format (serving flag_image)
           "https://example.com/flag.png" "image" "#FF0000" flag_image).
  - reflexivity.
  - reflexivity.
  - repeat constructor; unfold is_channel; lia.
  - reflexivity.
Defined.

(** ** Icon discoverer: the ranking *)

Lemma hd_sorted_desc_Z {A : Type} (key : A -> Z) (l1 l2 : list A) (x : A) :
  Forall (fun y => (key y < key x)%Z) l1 ->
  Forall (fun y => (key y <= key x)%Z) l2 ->
  hd_error (sorted_desc_Z key (l1 ++ x :: l2)) = Some x.
Proof.
  intros H1 H2. unfold sorted_desc_Z. induction H1 as [|z r Hz _ IH]; cbn [app stable_sort].
  - assert (F : Forall (fun y => (key y <= key x)%Z)
                       (stable_sort (fun y x0 => (key x0 <? key y)%Z) l2))
      by (apply stable_sort_Forall; exact H2).
    destruct (stable_sort _ l2) as [|y t]; [reflexivity|]. cbn [insert_by].
    inversion F as [|? ? Hy _]; subst.
    assert (E : (key x <? key y)%Z = false) by (apply Z.ltb_ge; exact Hy).
    rewrite E. reflexivity.
  - destruct (stable_sort _ (r ++ x :: l2)) as [|y t]; [discriminate IH|].
    injection IH as ->. cbn [insert_by].
    assert (E : (key z <? key x)%Z = true) by (apply Z.ltb_lt; exact Hz).
    rewrite E. reflexivity.
Qed.

Lemma icon_candidates_app (t1 t2 : list string) :
  icon_candidates (t1 ++ t2) = icon_candidates t1 ++ icon_candidates t2.
Proof. unfold icon_candidates. apply flat_map_app. Qed.

Lemma icon_candidates_In (tree : list string) (s : Z) (path : string) :
  In (s, path) (icon_candidates tree) ->
  In path tree /\ has_image_ext path = true /\ s = score_path path /\ (0 < s)%Z.
Proof.
  unfold icon_candidates. intros H. apply in_flat_map in H.
  destruct H as (p & Hp & Hin). fold (has_image_ext p) in Hin.
  destruct (has_image_ext p) eqn:Ext; [|destruct Hin].
  destruct (0 <? score_path p)%Z eqn:Pos; [|destruct Hin].
  destruct Hin as [[= <- <-]|[]]. apply Z.ltb_lt in Pos. auto.
Qed.

(** X7: when the tree of the repository has an image path with a
    positive score, [find_best_icon] returns the raw URL, on the default
    branch, of the image path with the highest score, the first in tree
    order among equals. *)
Theorem find_best_icon_best_path (env : Env) (repo path : string) (info : repo_info)
    (t1 t2 : list string) :
  api_git_tree env repo = Some (t1 ++ path :: t2) ->
  api_repo_info env repo = Some info ->
  has_image_ext path = true ->
  (0 < score_path path)%Z ->
  Forall (fun p => has_image_ext p = true -> (score_path p < score_path path)%Z) t1 ->
  Forall (fun p => has_image_ext p = true -> (score_path p <= score_path path)%Z) t2 ->
  find_best_icon env repo = Return (Some (raw_url repo info path)).
Proof.
  intros Htree Hinfo Hext Hpos H1 H2. unfold find_best_icon. rewrite Htree, Hinfo.
  rewrite icon_candidates_app.
  assert (E : icon_candidates (path :: t2)
              = (score_path path, path) :: icon_candidates t2).
  { unfold icon_candidates. cbn [flat_map]. fold (has_image_ext path). rewrite Hext.
    apply Z.ltb_lt in Hpos. rewrite Hpos. reflexivity. }
  rewrite E.
  assert (Hhd : hd_error (sorted_desc_Z fst
                  (icon_candidates t1 ++ (score_path path, path) :: icon_candidates t2))
                = Some (score_path path, path)).
  { apply hd_sorted_desc_Z; apply Forall_forall; intros [s p] Hin; cbn [fst];
      apply icon_candidates_In in Hin; destruct Hin as (Hp & Hx & -> & _).
    - rewrite Forall_forall in H1. auto.
    - rewrite Forall_forall in H2. auto. }
  destruct (sorted_desc_Z fst _) as [|[s p] rest]; [discriminate Hhd|].
  injection Hhd as -> ->. reflexivity.
Qed.

Lemma find_best_icon_best_path_witness :
  find_best_icon foo_upstream "org/foo" = Return (Some foo_icon_url).
Proof.
  apply (find_best_icon_best_path foo_upstream "org/foo"
           "ios/AppIcon.appiconset/icon-1024.png"
           {| description := Some "The Foo app"; default_branch := Some "main";
              owner_avatar_url := Some "https://avatars.githubusercontent.com/u/1" |}
           ["README.md"; "Assets/icon.png"] []).
  - reflexivity.
  - reflexivity.
  - reflexivity.
  - reflexivity.
  - repeat constructor; vm_compute; intros; try discriminate; reflexivity.
  - constructor.
Defined.

(** ** Icon discoverer: a failed request aborts the run *)

(** X8: when the tree of a repository has icon candidates but the
    repository information cannot be fetched, [find_best_icon] raises
    [AttributeError]; nothing catches it in [process_app] nor in
    [update_repo], so a run whose first curated app is matched with an
    entry of the catalog ends with that exception and writes nothing. *)
Theorem update_repo_aborts_without_repo_info (env : Env) (d : disk)
    (cfg : app_config) (rest : list app_config) (loaded : source_data)
    (source_name source_identifier : string) (k : nat) (tree : list string) :
  config_file d = Holds (Apps (cfg :: rest)) ->
  load_existing_source (source_file d) source_name source_identifier = Source loaded ->
  find_entry (apps loaded) (github_repo cfg) (cfg_name cfg) = Some k ->
  api_git_tree env (github_repo cfg) = Some tree ->
  icon_candidates tree <> [] ->
  api_repo_info env (github_repo cfg) = None ->
  find_best_icon env (github_repo cfg) = Raise AttributeError /\
  update_repo env d source_name source_identifier = Raise AttributeError.
Proof.
  intros Hc Hl Hf Htree Hcand Hinfo.
  assert (Hicon : find_best_icon env (github_repo cfg) = Raise AttributeError).
  { unfold find_best_icon. rewrite Htree, Hinfo.
    destruct (sorted_desc_Z fst (icon_candidates tree)) as [|[s p] t] eqn:E; [|reflexivity].
    exfalso. destruct (icon_candidates tree) as [|c cs] eqn:Ec; [contradiction|].
    assert (Hin : In c (sorted_desc_Z fst (c :: cs))).
    { unfold sorted_desc_Z. cbn [stable_sort].
      generalize (stable_sort (fun y x => (fst x <? fst y)%Z) cs). intros l.
      induction l as [|y r IH]; cbn [insert_by]; [left; reflexivity|].
      destruct (fst c <? fst y)%Z; [right; exact IH | left; reflexivity]. }
    rewrite E in Hin. destruct Hin. }
  split; [exact Hicon|].
  unfold update_repo. rewrite Hc. cbn [load_json read_json bind]. rewrite Hl.
  cbn [List.length process_from nth_error].
  unfold process_app. cbn [apps]. rewrite Hf.
  destruct (find_entry_how _ _ _ _ Hf) as (e & Hk & _).
  unfold refresh_matched. cbn [apps]. rewrite Hk.
  unfold refresh_entry. rewrite Hicon. reflexivity.
Qed.

Lemma update_repo_aborts_without_repo_info_witness :
  find_best_icon foo_upstream_without_info "org/foo" = Raise AttributeError /\
  update_repo foo_upstream_without_info foo_disk_1 "Foo Source" "org.foo.source"
  = Raise AttributeError.
Proof.
  apply (update_repo_aborts_without_repo_info foo_upstream_without_info foo_disk_1
           foo_config [] (foo_source [foo_entry]) "Foo Source" "org.foo.source" 0%nat
           ["README.md"; "Assets/icon.png"; "ios/AppIcon.appiconset/icon-1024.png"]).
  - reflexivity.
  - reflexivity.
  - reflexivity.
  - reflexivity.
  - vm_compute. discriminate.
  - reflexivity.
Defined.


(** ** Identifier disambiguator: the shape of the result *)

Lemma startswith_app (s t : string) : startswith (s ++ t)%string s = true.
Proof.
  induction s as [|c r IH]; [destruct t; reflexivity|].
  cbn [String.append startswith]. rewrite Ascii.eqb_refl. exact IH.
Qed.

Lemma startswith_refl (s : string) : startswith s s = true.
Proof.
  induction s as [|c r IH]; [reflexivity|]. cbn [startswith].
  rewrite Ascii.eqb_refl. exact IH.
Qed.

Lemma add_suffix_shape (b s : string) :
  startswith (add_suffix b s) b = true /\
  endswith (add_suffix b s) ("." ++ s)%string = true /\
  (add_suffix b s = b \/ add_suffix b s = (b ++ "." ++ s)%string).
Proof.
  unfold add_suffix. destruct (endswith b ("." ++ s)%string) eqn:E.
  - repeat split; [apply startswith_refl | exact E | left; reflexivity].
  - repeat split; [apply startswith_app | apply endswith_app | right; reflexivity].
Qed.

(** X9: the disambiguator never alters the identifier it is given: the
    result is the identifier itself or the identifier followed by a dot
    and a suffix; an empty identifier stays empty; and when the display
    name contains a flavor keyword, the result of a non-empty identifier
    ends with a dot and the first such keyword of the list. *)
Theorem apply_bundle_id_suffix_shape (bundle_id app_name repo_name : string) :
  let result := apply_bundle_id_suffix bundle_id app_name repo_name in
  startswith result bundle_id = true /\
  (result = bundle_id \/ exists s, result = (bundle_id ++ "." ++ s)%string) /\
  (bundle_id = "" -> result = "") /\
  (forall kw, bundle_id <> "" ->
     find (fun s => contains s (lower app_name)) suffixes = Some kw ->
     endswith result ("." ++ kw)%string = true).
Proof.
  cbv zeta. unfold apply_bundle_id_suffix.
  destruct (truthy bundle_id) eqn:T; cbn [negb].
  2:{ repeat split; [apply startswith_refl | left; reflexivity | auto |].
      intros kw Hne. destruct bundle_id; [contradiction | discriminate T]. }
  destruct (find (fun s => contains s (lower app_name)) suffixes) as [s|] eqn:Ef.
  - destruct (add_suffix_shape bundle_id s) as (H1 & H2 & H3).
    repeat split; auto.
    + destruct H3 as [H3|H3]; [left; exact H3 | right; eauto].
    + intros ->. discriminate T.
    + intros kw _ [= <-]. exact H2.
  - assert (Hsame : startswith bundle_id bundle_id = true /\
              (bundle_id = bundle_id \/
               exists s, bundle_id = (bundle_id ++ "." ++ s)%string))
      by (split; [apply startswith_refl | left; reflexivity]).
    destruct (negb (String.eqb _ _)).
    + destruct (truthy _ && (2 <? _)%nat).
      * match goal with |- context [add_suffix bundle_id ?x] =>
          destruct (add_suffix_shape bundle_id x) as (H1 & H2 & H3) end.
        repeat split; auto.
        -- destruct H3 as [H3|H3]; [left; exact H3 | right; eauto].
        -- intros ->. discriminate T.
        -- intros kw _ Hk. discriminate Hk.
      * repeat split; try apply Hsame; [intros ->; discriminate T|].
        intros kw _ Hk. discriminate Hk.
    + repeat split; try apply Hsame; [intros ->; discriminate T|].
      intros kw _ Hk. discriminate Hk.
Qed.

Lemma apply_bundle_id_suffix_shape_witness :
  endswith (apply_bundle_id_suffix "com.example.foo" "Foo Beta (Nightly)" "org/foo")
           ".nightly" = true.
Proof.
  apply (proj2 (proj2 (proj2
           (apply_bundle_id_suffix_shape "com.example.foo" "Foo Beta (Nightly)" "org/foo")))
           "nightly").
  - discriminate.
  - reflexivity.
Defined.

(** ** The metadata refresh is idempotent *)

Lemma bundle_id_suffix_stable (b n r : string) :
  apply_bundle_id_suffix (apply_bundle_id_suffix b n r) n r = apply_bundle_id_suffix b n r.
Proof.
  unfold apply_bundle_id_suffix.
  destruct (truthy b) eqn:T; cbn [negb]; [|rewrite T; reflexivity].
  destruct (find _ suffixes) as [s|].
  - rewrite (add_suffix_truthy _ s T). cbn [negb]. apply add_suffix_idem.
  - destruct (negb (String.eqb _ _)); [|rewrite T; reflexivity].
    destruct (truthy _ && (2 <? _)%nat); [|rewrite T; reflexivity].
    rewrite (add_suffix_truthy _ _ T). cbn [negb]. apply add_suffix_idem.
Qed.

Ltac simpl_entry :=
  cbn [name githubRepo bundleIdentifier developerName version versionDate
       versionDescription downloadURL localizedDescription iconURL tintColor size
       sha256 permissions screenshotURLs versions set_identity set_bundleIdentifier
       set_iconURL set_tintColor pop_permissions option_map].

(** What the refresh computes, key by key. *)
Lemma refresh_entry_keys (env : Env) (cfg : app_config) (icons : option string)
    (e : app_entry) :
  find_best_icon env (github_repo cfg) = Return icons ->
  let icon' := refreshed_icon env cfg (first_square_or_top env icons) (iconURL e) in
  refresh_entry env cfg e =
  if wants_extraction cfg (tintColor e) &&
     match icon' with None => true | Some _ => false end
  then Raise KeyError
  else Return
    {| name := Some (cfg_name cfg); githubRepo := Some (github_repo cfg);
       bundleIdentifier :=
         option_map (fun old => apply_bundle_id_suffix old (cfg_name cfg) (github_repo cfg))
                    (bundleIdentifier e);
       developerName := developerName e;
       version := version e; versionDate := versionDate e;
       versionDescription := versionDescription e; downloadURL := downloadURL e;
       localizedDescription := localizedDescription e;
       iconURL := icon';
       tintColor := refreshed_tint env cfg (tintColor e) icon';
       size := size e; sha256 := sha256 e;
       permissions := None; screenshotURLs := screenshotURLs e;
       versions := versions e |}.
Proof.
  intros Hicons. cbv zeta. unfold refresh_entry, refreshed_icon, refreshed_tint,
    wants_extraction. rewrite Hicons. cbn [bind].
  destruct e as [n g bi dn v vd vdesc du ld icon tint sz sha perm ss vs].
  generalize (first_square_or_top env icons). intros repo_icon.
  destruct bi as [old|]; simpl_entry;
    match goal with |- context [choose_icon env ?b ?r] =>
      generalize (choose_icon env b r) end; intros best.
  all: destruct best as [u|]; [destruct (truthy u) eqn:Tu|]; cbn [get_truthy]; try rewrite Tu.
  all: simpl_entry.
  all: destruct (get_truthy (tint_color cfg)) eqn:Tc; cbn [negb andb bind]; simpl_entry.
  all: try reflexivity.
  all: destruct (negb (get_truthy tint) || get_is tint "#000000"); cbn [bind]; simpl_entry.
  all: try reflexivity.
  all: try (destruct (extract_dominant_color env u) as [c|]; [destruct (truthy c)|];
            cbn [bind]; reflexivity).
  all: destruct icon as [i|]; cbn [bind]; try reflexivity.
  all: destruct (extract_dominant_color env i) as [c|]; [destruct (truthy c)|];
       cbn [bind]; reflexivity.
Qed.

Lemma choose_icon_idem (env : Env) (best repo_icon : option string) :
  choose_icon env (choose_icon env best repo_icon) repo_icon
  = choose_icon env best repo_icon.
Proof.
  assert (Hself : get_truthy repo_icon = true ->
                  choose_icon env repo_icon repo_icon = repo_icon).
  { intros T. unfold choose_icon. rewrite T. cbn [negb].
    rewrite Z.ltb_irrefl. destruct (is_square_image env _); reflexivity. }
  destruct (get_truthy repo_icon) eqn:Tr.
  2:{ unfold choose_icon. rewrite Tr. reflexivity. }
  unfold choose_icon at 2 3. rewrite Tr.
  destruct (negb (get_truthy best)) eqn:Tb; [apply Hself; reflexivity|].
  match goal with
  | |- choose_icon env (if ?c then _ else _) _ = _ => destruct c eqn:C1
  end; [apply Hself; reflexivity|].
  match goal with
  | |- choose_icon env (if ?c then _ else _) _ = _ => destruct c eqn:C2
  end; [apply Hself; reflexivity|].
  unfold choose_icon. rewrite Tr, Tb, C1, C2. reflexivity.
Qed.

Lemma refreshed_icon_idem (env : Env) (cfg : app_config) (repo_icon current : option string) :
  refreshed_icon env cfg repo_icon (refreshed_icon env cfg repo_icon current)
  = refreshed_icon env cfg repo_icon current.
Proof.
  unfold refreshed_icon. destruct (usable_icon (icon_url cfg)).
  - destruct (get_truthy (choose_icon env (icon_url cfg) repo_icon)); reflexivity.
  - destruct (get_truthy (choose_icon env current repo_icon)) eqn:T.
    + rewrite choose_icon_idem, T. reflexivity.
    + rewrite T. reflexivity.
Qed.

Lemma refreshed_tint_idem (env : Env) (cfg : app_config) (tint icon : option string) :
  refreshed_tint env cfg (refreshed_tint env cfg tint icon) icon
  = refreshed_tint env cfg tint icon.
Proof.
  unfold refreshed_tint, wants_extraction.
  destruct (get_truthy (tint_color cfg)); [reflexivity|]. cbn [negb andb].
  destruct (negb (get_truthy tint) || get_is tint "#000000") eqn:W.
  - destruct icon as [u|]; [|rewrite W; reflexivity].
    destruct (extract_dominant_color env u) as [c|] eqn:E; [|rewrite W; reflexivity].
    destruct (truthy c) eqn:Tc; [|rewrite W; reflexivity].
    cbn [get_truthy get_is]. rewrite Tc. cbn [negb orb].
    destruct (String.eqb c "#000000"); reflexivity.
  - rewrite W. reflexivity.
Qed.

(** The metadata refresh of an entry reaches a fixed point at once:
    refreshing, for the same curated app and the same upstream, an entry
    that has just been refreshed returns it unchanged. *)
Lemma refresh_entry_fixpoint (env : Env) (cfg : app_config) (e e1 : app_entry) :
  refresh_entry env cfg e = Return e1 ->
  refresh_entry env cfg e1 = Return e1.
Proof.
  intros H.
  destruct (find_best_icon env (github_repo cfg)) as [icons|ex] eqn:Hicons.
  2:{ unfold refresh_entry in H. rewrite Hicons in H. discriminate H. }
  rewrite (refresh_entry_keys env cfg icons e Hicons) in H. cbv zeta in H.
  rewrite (refresh_entry_keys env cfg icons e1 Hicons). cbv zeta.
  set (repo_icon := first_square_or_top env icons) in *.
  set (icon1 := refreshed_icon env cfg repo_icon (iconURL e)) in *.
  destruct (wants_extraction cfg (tintColor e) &&
            match icon1 with None => true | Some _ => false end) eqn:Hraise;
    [discriminate H|].
  injection H as <-. simpl_entry.
  assert (Hidem : refreshed_icon env cfg repo_icon icon1 = icon1)
    by apply refreshed_icon_idem.
  rewrite Hidem. rewrite refreshed_tint_idem.
  assert (Hno : wants_extraction cfg (refreshed_tint env cfg (tintColor e) icon1) &&
                match icon1 with None => true | Some _ => false end = false).
  { destruct icon1 as [u|]; [apply andb_false_r|]. rewrite andb_true_r in *.
    unfold refreshed_tint. rewrite Hraise.
    unfold wants_extraction in *.
    destruct (get_truthy (tint_color cfg)); [reflexivity | exact Hraise]. }
  rewrite Hno. f_equal. f_equal.
  destruct (bundleIdentifier e) as [old|]; cbn [option_map]; [|reflexivity].
  rewrite bundle_id_suffix_stable. reflexivity.
Qed.


(** ** One call of [process_app]: what happens to the entries *)

Lemma replace_nth_twice {A : Type} (k : nat) (x y : A) (t : list A) :
  replace_nth k y (replace_nth k x t) = replace_nth k y t.
Proof.
  revert k. induction t as [|z r IH]; intros [|k]; cbn [replace_nth]; try reflexivity.
  f_equal. apply IH.
Qed.

Lemma process_app_shape (env : Env) (cfg : app_config) (src src' : source_data)
    (l l' : option (list app_config)) :
  process_app env cfg src l = Return (src', l') ->
  exists kept added,
    apps src' = kept ++ added /\
    Forall2 kept_or_updated (apps src) kept /\
    (added = [] \/
     exists x v m b, added = [x] /\ new_entry env cfg v m b = Return x).
Proof.
  unfold process_app.
  destruct (refresh_matched _ _ _ _) as [src1|] eqn:ER; cbn [bind]; [|discriminate].
  destruct (refresh_matched_frame _ _ _ _ ER) as (_ & _ & _ & _ & Hm).
  assert (Hsame : forall (s : source_data),
            Forall2 kept_or_updated (apps s) (apps s)).
  { intros s. apply Forall2_refl. intros a. split; [reflexivity | left; reflexivity]. }
  destruct (find_entry (apps src) (github_repo cfg) (cfg_name cfg)) as [k|] eqn:Ef.
  - destruct Hm as (e & e1 & Hk & Hk1 & Happs & _ & Hrepo & _ & Hdata).
    destruct (find_entry_how _ _ _ _ Ef) as (e0 & Hk0 & Hrepo0 & _).
    assert (e0 = e) by congruence. subst e0.
    assert (F1 : Forall2 kept_or_updated (apps src) (apps src1)).
    { rewrite Happs. eapply Forall2_impl; [|apply (replace_nth_Forall2 _ _ _ e1 Hk)].
      intros a a' [->|[-> ->]]; [split; [reflexivity | left; reflexivity]|].
      split; [congruence | left; exact Hdata]. }
    assert (Hdone : exists kept added, apps src1 = kept ++ added /\
              Forall2 kept_or_updated (apps src) kept /\
              (added = [] \/ exists x v m b, added = [x] /\
                                             new_entry env cfg v m b = Return x)).
    { exists (apps src1), []. rewrite app_nil_r. auto. }
    rewrite Hk1.
    destruct (resolve_asset env cfg) as [[rel a]|]; [|intros [= <- <-]; exact Hdone].
    destruct (has_version (browser_download_url a) e1); [intros [= <- <-]; exact Hdone|].
    destruct (download_ipa env (browser_download_url a)) as [file|];
      [|intros [= <- <-]; exact Hdone].
    destruct (new_version env cfg rel a file) as [[[v m] b]|]; cbn [bind]; [|discriminate].
    unfold merge_version. rewrite Hk1.
    destruct (versions e1) as [history|] eqn:Hver; cbn [bind]; [|discriminate].
    intros [= <- <-]. cbn [apps with_apps].
    exists (replace_nth k (record_new_version v history m b e1) (apps src1)), [].
    rewrite app_nil_r. repeat split; auto.
    rewrite Happs.
    rewrite replace_nth_twice.
    eapply Forall2_impl; [|apply (replace_nth_Forall2 _ _ _ _ Hk)].
    intros x x' [->|[-> ->]]; [split; [reflexivity | left; reflexivity]|].
    split; [cbn [githubRepo record_new_version]; congruence|].
    right. exists v, history, m, b, e1. split; [|reflexivity].
    unfold release_data in Hdata. injection Hdata as _ _ _ _ _ _ _ _ _ Hv. congruence.
  - subst src1.
    assert (Hdone : exists kept added, apps src = kept ++ added /\
              Forall2 kept_or_updated (apps src) kept /\
              (added = [] \/ exists x v m b, added = [x] /\
                                             new_entry env cfg v m b = Return x)).
    { exists (apps src), []. rewrite app_nil_r. auto. }
    destruct (resolve_asset env cfg) as [[rel a]|]; [|intros [= <- <-]; exact Hdone].
    destruct (download_ipa env (browser_download_url a)) as [file|];
      [|intros [= <- <-]; exact Hdone].
    destruct (new_version env cfg rel a file) as [[[v m] b]|]; cbn [bind]; [|discriminate].
    unfold merge_version.
    destruct (new_entry env cfg v m b) as [x|] eqn:Ex; cbn [bind]; [|discriminate].
    intros [= <- <-]. cbn [apps with_apps].
    exists (apps src), [x]. repeat split; auto. right. exists x, v, m, b. auto.
Qed.



(** ** The current version mirrors the newest record *)

Lemma mirrors_head_release_data (a a' : app_entry) :
  release_data a' = release_data a -> mirrors_head a -> mirrors_head a'.
Proof.
  unfold release_data, mirrors_head.
  intros [= _ Hv Hvd Hvdesc Hdu _ Hsz _ _ Hvs]. rewrite Hv, Hvd, Hvdesc, Hdu, Hsz, Hvs. auto.
Qed.

Lemma process_app_mirrors (env : Env) (cfg : app_config) (src src' : source_data)
    (l l' : option (list app_config)) :
  Forall mirrors_head (apps src) ->
  process_app env cfg src l = Return (src', l') ->
  Forall mirrors_head (apps src').
Proof.
  intros Hm H. destruct (process_app_shape _ _ _ _ _ _ H) as (kept & added & -> & HF & Hadd).
  apply Forall_app. split.
  - clear Hadd H. induction HF as [|a a' r r' Haa' _ IH]; [constructor|].
    inversion Hm; subst. constructor; [|apply IH; assumption].
    destruct Haa' as (_ & [Hd|(v & h & m & b & a1 & _ & ->)]).
    + eapply mirrors_head_release_data; eassumption.
    + unfold mirrors_head. cbn. repeat split; reflexivity.
  - destruct Hadd as [->|(x & v & m & b & -> & Hx)]; [constructor|].
    constructor; [|constructor]. unfold new_entry in Hx.
    destruct (new_entry_icon env cfg); cbn [bind] in Hx; [|discriminate].
    injection Hx as <-. unfold mirrors_head. cbn. repeat split; reflexivity.
Qed.

Lemma process_from_mirrors (env : Env) (curated : list app_config) (n i : nat)
    (src src' : source_data) (cur' : list app_config) :
  Forall mirrors_head (apps src) ->
  process_from env i n src curated = Return (src', cur') ->
  Forall mirrors_head (apps src').
Proof.
  revert i src curated. induction n as [|n IH]; intros i src curated Hm; cbn [process_from].
  - intros [= <- <-]. exact Hm.
  - destruct (nth_error curated i) as [cfg|]; [|intros [= <- <-]; exact Hm].
    destruct (process_app env cfg src (Some curated)) as [[s1 l1]|] eqn:Ep; cbn [bind];
      [|discriminate].
    cbn [fst snd]. apply IH. eapply process_app_mirrors; eassumption.
Qed.

(** X11: in every entry that a run touches, the top-level keys of the
    current version ([version], [versionDate], [versionDescription],
    [downloadURL], [size]) repeat the newest record of the history: a run
    on a catalog with that property, in particular on a catalog that does
    not exist yet, persists a catalog with that property. *)
Theorem update_repo_mirrors (env : Env) (d d1 : disk) (curated : list app_config)
    (source_name source_identifier : string) :
  config_file d = Holds (Apps curated) ->
  match load_existing_source (source_file d) source_name source_identifier with
  | Source loaded => Forall mirrors_head (apps loaded)
  | Apps _ => True
  end ->
  update_repo env d source_name source_identifier = Return d1 ->
  exists s, source_file d1 = Holds (Source s) /\ Forall mirrors_head (apps s).
Proof.
  intros Hc Hm H.
  destruct (update_repo_result _ _ _ _ _ _ Hc H) as (loaded & s & Hl & Hp & Hd).
  rewrite Hl in Hm. rewrite Hd. cbn [source_file].
  eexists. split; [reflexivity|]. cbn [apps with_apps].
  unfold prune_and_sort, sorted_asc. apply stable_sort_Forall.
  apply process_from_mirrors in Hp; [|exact Hm].
  apply Forall_forall. intros a Ha. apply filter_In in Ha.
  rewrite Forall_forall in Hp. apply Hp. apply Ha.
Qed.

Lemma update_repo_mirrors_witness :
  exists s, source_file foo_disk_1 = Holds (Source s) /\ Forall mirrors_head (apps s).
Proof.
  apply (update_repo_mirrors foo_upstream foo_disk foo_disk_1 [foo_config]
           "Foo Source" "org.foo.source").
  - reflexivity.
  - constructor.
  - vm_compute. reflexivity.
Defined.

(** ** An app that is up to date *)

Lemma with_apps_same (s : source_data) : with_apps (apps s) s = s.
Proof. destruct s. reflexivity. Qed.

(** X12: for an app that is up to date (its download URL is in the
    history of the entry it is matched with, or it has no release, no
    asset or no download), [process_app] is idempotent: a second call
    returns the catalog of the first, unchanged, and the curated list. *)
Theorem process_app_up_to_date_idempotent (env : Env) (cfg : app_config)
    (src s1 : source_data) (l l1 : option (list app_config)) :
  settled env cfg (apps src) ->
  process_app env cfg src l = Return (s1, l1) ->
  process_app env cfg s1 l = Return (s1, l).
Proof.
  intros Hs H.
  destruct (process_app_step _ _ _ _ _ _ H) as (-> & _ & _ & _ & _ & Hs1).
  rewrite (process_app_settled _ _ _ _ Hs) in H.
  rewrite (process_app_settled _ _ _ _ Hs1).
  destruct (refresh_matched env cfg (find_entry (apps src) _ _) src) as [s|] eqn:ER;
    cbn [bind] in H; [|discriminate]. injection H as ->.
  pose proof (refresh_matched_frame _ _ _ _ ER) as (_ & _ & _ & _ & Hm).
  destruct (find_entry (apps src) (github_repo cfg) (cfg_name cfg)) as [k|] eqn:Ef.
  - destruct Hm as (e & e1 & Hk & Hk1 & Happs & Hname & Hrepo & _ & _).
    assert (Er : refresh_entry env cfg e = Return e1).
    { unfold refresh_matched in ER. rewrite Hk in ER.
      destruct (refresh_entry env cfg e) as [e'|]; cbn [bind] in ER; [|discriminate].
      injection ER as <-. cbn [apps with_apps] in Hk1.
      rewrite nth_error_replace_nth, Nat.eqb_refl, Hk in Hk1. cbn in Hk1. congruence. }
    assert (Ef1 : find_entry (apps s1) (github_repo cfg) (cfg_name cfg) = Some k).
    { rewrite Happs. apply find_entry_replace; assumption. }
    rewrite Ef1. unfold refresh_matched. rewrite Hk1.
    rewrite (refresh_entry_fixpoint _ _ _ _ Er). cbn [bind].
    rewrite Happs at 1. rewrite replace_nth_twice, <- Happs, with_apps_same. reflexivity.
  - subst s1. rewrite Ef. reflexivity.
Qed.

Lemma process_app_up_to_date_idempotent_witness :
  process_app foo_upstream foo_config (foo_source [pop_permissions foo_entry]) None
  = Return (foo_source [pop_permissions foo_entry], None).
Proof.
  apply (process_app_up_to_date_idempotent foo_upstream foo_config
           (foo_source [foo_entry]) _ None None).
  - exists foo_entry. split; reflexivity.
  - vm_compute. reflexivity.
Defined.


(** ** The pruner and the sorter *)

Lemma prune_and_sort_by_key (curated : list app_config) (entries : list app_entry) (k : Z) :
  filter (fun a => (get_sort_key curated a =? k)%Z) (prune_and_sort curated entries)
  = filter (fun a => (get_sort_key curated a =? k)%Z) (filter (keep_entry curated) entries).
Proof.
  unfold prune_and_sort, sorted_asc. apply filter_stable_sort.
  intros a b Ha Hb. apply Z.eqb_eq in Ha, Hb. rewrite Ha, Hb. apply Z.ltb_irrefl.
Qed.

(** X13: what the end of a run does to the entries: the persisted list
    holds exactly the entries that the pruner keeps, it is in ascending
    order of the sort key, and the entries of one sort key are all there,
    in the order they had (the sort is stable and nothing is merged). *)
Theorem prune_and_sort_spec (curated : list app_config) (entries : list app_entry) :
  (forall a, In a (prune_and_sort curated entries)
             <-> In a entries /\ keep_entry curated a = true) /\
  Sorted Z.le (map (get_sort_key curated) (prune_and_sort curated entries)) /\
  (forall k, filter (fun a => (get_sort_key curated a =? k)%Z)
                    (prune_and_sort curated entries)
             = filter (fun a => (get_sort_key curated a =? k)%Z)
                      (filter (keep_entry curated) entries)).
Proof.
  split; [|split].
  - intros a. rewrite <- filter_In.
    pose proof (prune_and_sort_by_key curated entries (get_sort_key curated a)) as E.
    split; intros Hin.
    + assert (H : In a (filter (fun b => (get_sort_key curated b =? get_sort_key curated a)%Z)
                               (prune_and_sort curated entries)))
        by (apply filter_In; split; [exact Hin | apply Z.eqb_refl]).
      rewrite E in H. apply filter_In in H. apply H.
    + assert (H : In a (filter (fun b => (get_sort_key curated b =? get_sort_key curated a)%Z)
                               (filter (keep_entry curated) entries)))
        by (apply filter_In; split; [exact Hin | apply Z.eqb_refl]).
      rewrite <- E in H. apply filter_In in H. apply H.
  - apply sorted_asc_sorted.
  - apply prune_and_sort_by_key.
Qed.

Lemma keep_entry_prune_and_sort (curated : list app_config) (entries : list app_entry) :
  Forall (fun a => keep_entry curated a = true) (prune_and_sort curated entries).
Proof.
  unfold prune_and_sort, sorted_asc. apply stable_sort_Forall.
  apply Forall_forall. intros a Ha. apply filter_In in Ha. apply Ha.
Qed.

(** X14: pruning and sorting is idempotent: on a list that has been
    pruned and sorted against a curated list, doing it again against the
    same curated list changes nothing. *)
Theorem prune_and_sort_idempotent (curated : list app_config) (entries : list app_entry) :
  prune_and_sort curated (prune_and_sort curated entries) = prune_and_sort curated entries.
Proof.
  unfold prune_and_sort at 1.
  rewrite (filter_all _ _ (keep_entry_prune_and_sort curated entries)).
  apply sorted_asc_fixpoint. apply sorted_asc_sorted.
Qed.

Lemma app_order_spec (curated : list app_config) (idx : Z) (repo : string) :
  match app_order curated idx repo with
  | Some i =>
      exists k c, i = (idx + Z.of_nat k)%Z /\ nth_error curated k = Some c /\
                  github_repo c = repo /\
                  forall j c', (k < j)%nat -> nth_error curated j = Some c' ->
                               github_repo c' <> repo
  | None => Forall (fun c => github_repo c <> repo) curated
  end.
Proof.
  revert idx. induction curated as [|c r IH]; intros idx; cbn [app_order]; [constructor|].
  specialize (IH (idx + 1)%Z).
  destruct (app_order r (idx + 1) repo) as [i|].
  - destruct IH as (k & c0 & -> & Hk & Hrepo & Hlast).
    exists (S k), c0. split; [lia|]. split; [exact Hk|]. split; [exact Hrepo|].
    intros [|j] c' Hj; [lia|]. cbn [nth_error]. apply Hlast. lia.
  - destruct (String.eqb (github_repo c) repo) eqn:E.
    + apply String.eqb_eq in E. exists 0%nat, c.
      split; [lia|]. split; [reflexivity|]. split; [exact E|].
      intros [|j] c' Hj; [lia|]. cbn [nth_error]. intros Hn.
      rewrite Forall_forall in IH. apply IH. eapply nth_error_In; exact Hn.
    + apply String.eqb_neq in E. constructor; assumption.
Qed.

(** X15: the sort key of an entry with a repo slug is the index of the
    last curated app with that repo (a repo listed several times sorts at
    its last place); an entry whose repo is not curated, or that has no
    repo, gets 9999. *)
Theorem get_sort_key_last_index (curated : list app_config) (a : app_entry) :
  (exists k c, get_sort_key curated a = Z.of_nat k /\
               nth_error curated k = Some c /\ githubRepo a = Some (github_repo c) /\
               forall j c', (k < j)%nat -> nth_error curated j = Some c' ->
                            githubRepo a <> Some (github_repo c')) \/
  (get_sort_key curated a = 9999%Z /\
   forall c, In c curated -> get_truthy (githubRepo a) = true ->
             githubRepo a <> Some (github_repo c)).
Proof.
  unfold get_sort_key. destruct (githubRepo a) as [repo|]; cbn [get_truthy].
  2:{ right. split; [reflexivity|]. intros c _ H. discriminate H. }
  destruct (truthy repo).
  2:{ right. split; [reflexivity|]. intros c _ H. discriminate H. }
  pose proof (app_order_spec curated 0 repo) as H.
  destruct (app_order curated 0 repo) as [i|].
  - destruct H as (k & c & -> & Hk & Hrepo & Hlast). left. exists k, c.
    split; [lia|]. split; [exact Hk|]. split; [congruence|].
    intros j c' Hj Hn [= E]. exact (Hlast j c' Hj Hn (eq_sym E)).
  - right. split; [reflexivity|]. intros c Hin _ [= E].
    rewrite Forall_forall in H. exact (H c Hin (eq_sym E)).
Qed.

(** ** What a run leaves behind *)

(** X16: the postcondition of a run that returns, for a curated list
    whose apps all have a non-empty repo slug: the persisted catalog
    bears the name and identifier of the run, every curated app is up to
    date in it (the download URL of its chosen asset is in the history of
    the entry it is matched with, unless it has no release, no asset or
    no download), every entry passes the pruner and the entries are in
    ascending order of the sort key. *)
Theorem update_repo_postcondition (env : Env) (d d1 : disk) (curated : list app_config)
    (source_name source_identifier : string) :
  config_file d = Holds (Apps curated) ->
  Forall (fun c => truthy (github_repo c) = true) curated ->
  update_repo env d source_name source_identifier = Return d1 ->
  exists s,
    source_file d1 = Holds (Source s) /\
    src_name s = source_name /\ src_identifier s = source_identifier /\
    Forall (fun c => settled env c (apps s)) curated /\
    Forall (fun a => keep_entry curated a = true) (apps s) /\
    Sorted Z.le (map (get_sort_key curated) (apps s)).
Proof.
  intros Hc Ht H.
  destruct (update_repo_result _ _ _ _ _ _ Hc H) as (loaded & s & _ & Hp & ->).
  destruct (process_from_settles _ _ _ _ _ _ _ Hp) as (_ & Hn & Hi & _ & _ & Hs).
  eexists. split; [reflexivity|]. cbn [src_name src_identifier apps with_apps] in *.
  repeat split.
  - destruct s; exact Hn.
  - destruct s; exact Hi.
  - destruct s as [sn si sa sw]. cbn [apps with_apps] in *.
    apply Forall_forall. intros c Hin.
    destruct (In_nth_error _ _ Hin) as (j & Hj).
    rewrite Forall_forall in Ht.
    apply settled_prune_and_sort; [exact Hin | apply Ht; exact Hin |].
    apply (Hs j c); [|exact Hj].
    split; [lia|]. apply nth_error_Some. rewrite Hj. discriminate.
  - destruct s; apply keep_entry_prune_and_sort.
  - destruct s; unfold prune_and_sort; apply sorted_asc_sorted.
Qed.

Lemma update_repo_postcondition_witness :
  exists s,
    source_file foo_disk_1 = Holds (Source s) /\
    src_name s = "Foo Source" /\ src_identifier s = "org.foo.source" /\
    Forall (fun c => settled foo_upstream c (apps s)) [foo_config] /\
    Forall (fun a => keep_entry [foo_config] a = true) (apps s) /\
    Sorted Z.le (map (get_sort_key [foo_config]) (apps s)).
Proof.
  apply (update_repo_postcondition foo_upstream foo_disk foo_disk_1 [foo_config]).
  - reflexivity.
  - repeat constructor.
  - vm_compute. reflexivity.
Defined.


(** ** The validators *)

Lemma span_spec (p : ascii -> bool) (s : string) :
  s = (fst (span p s) ++ snd (span p s))%string /\
  all_chars p (fst (span p s)) = true /\
  match snd (span p s) with
  | EmptyString => True
  | String c _ => p c = false
  end.
Proof.
  induction s as [|c r IH]; cbn [span]; [repeat split|].
  destruct (p c) eqn:Pc; cbn [fst snd String.append all_chars].
  - destruct IH as (E & Hall & Hrest). rewrite Pc, Hall. rewrite <- E. repeat split. exact Hrest.
  - repeat split. exact Pc.
Qed.

Lemma span_app (p : ascii -> bool) (a rest : string) :
  all_chars p a = true ->
  match rest with EmptyString => True | String c _ => p c = false end ->
  span p (a ++ rest) = (a, rest).
Proof.
  intros Ha Hrest. induction a as [|c r IH]; cbn [String.append].
  - destruct rest as [|c r]; cbn [span]; [reflexivity|]. rewrite Hrest. reflexivity.
  - cbn [all_chars] in Ha. apply andb_true_iff in Ha as [Pc Hr].
    cbn [span]. rewrite Pc, (IH Hr). reflexivity.
Qed.

Lemma append_empty_r (s : string) : (s ++ EmptyString)%string = s.
Proof. induction s as [|c r IH]; cbn [String.append]; [|rewrite IH]; reflexivity. Qed.

Lemma REPO_PATTERN_spec (s : string) :
  REPO_PATTERN s = true <->
  exists owner nm,
    truthy owner = true /\ truthy nm = true /\
    all_chars repo_char owner = true /\ all_chars repo_char nm = true /\
    (s = (owner ++ "/" ++ nm)%string \/ s = (owner ++ "/" ++ nm ++ newline)%string).
Proof.
  unfold REPO_PATTERN. split.
  - intros H. apply andb_true_iff in H as [Ho H].
    destruct (span_spec repo_char s) as (Es & Hall & _).
    destruct (snd (span repo_char s)) as [|c r]; [discriminate|].
    apply andb_true_iff in H as [H Hend]. apply andb_true_iff in H as [Hc Hn].
    apply Ascii.eqb_eq in Hc. subst c.
    destruct (span_spec repo_char r) as (Er & Hall' & _).
    remember (fst (span repo_char s)) as owner eqn:Eo.
    remember (fst (span repo_char r)) as nm eqn:En.
    exists owner, nm. repeat (split; [assumption|]).
    apply orb_true_iff in Hend as [Hend|Hend]; apply String.eqb_eq in Hend;
      rewrite Hend in Er; [left | right]; rewrite Es, Er; cbn [String.append];
      rewrite ?append_empty_r; reflexivity.
  - intros (owner & nm & Ho & Hn & Hao & Han & Hs).
    assert (Hslash : forall t, span repo_char (owner ++ String "/" t) = (owner, String "/" t))
      by (intros t; apply span_app; [exact Hao | reflexivity]).
    destruct Hs as [-> | ->]; cbn [String.append]; rewrite Hslash; cbn [fst snd];
      rewrite Ho, Ascii.eqb_refl; cbn [andb].
    + rewrite <- (append_empty_r nm) at 1 2.
      rewrite (span_app repo_char nm EmptyString Han I). cbn [fst snd].
      rewrite Hn. reflexivity.
    + rewrite (span_app repo_char nm newline Han eq_refl). cbn [fst snd].
      rewrite Hn. reflexivity.
Qed.

(** X17: the repo slugs that [validate_repo_format] accepts are exactly
    the strings of at most 100 characters without [..] made of an owner
    and a name, both non-empty and of letters, digits, dots, underscores
    and hyphens, with one slash between them, and optionally one newline
    at the end (the [$] of the pattern matches in front of it). *)
Theorem validate_repo_format_accepts (repo : string) :
  fst (validate_repo_format (Some repo)) = true <->
  (String.length repo <= 100)%nat /\ contains ".." repo = false /\
  exists owner nm,
    truthy owner = true /\ truthy nm = true /\
    all_chars repo_char owner = true /\ all_chars repo_char nm = true /\
    (repo = (owner ++ "/" ++ nm)%string \/ repo = (owner ++ "/" ++ nm ++ newline)%string).
Proof.
  rewrite <- REPO_PATTERN_spec. unfold validate_repo_format.
  destruct (truthy repo) eqn:T; cbn [negb].
  - destruct (100 <? String.length repo)%nat eqn:L.
    + apply Nat.ltb_lt in L. cbn [fst]. split; [discriminate | intros [H _]; lia].
    + apply Nat.ltb_ge in L. destruct (contains ".." repo).
      * cbn [fst]. split; [discriminate | intros (_ & H & _); discriminate].
      * destruct (REPO_PATTERN repo); cbn [negb fst].
        -- split; auto.
        -- split; [discriminate | intros (_ & _ & H); discriminate].
  - cbn [fst]. split; [discriminate|]. intros (_ & _ & H).
    unfold REPO_PATTERN in H. destruct repo; [discriminate H | discriminate T].
Qed.

Lemma lower_none_not_http (u : string) :
  lower u = "none" \/ lower u = "_no response_" -> is_http_url u = false.
Proof.
  intros H. unfold is_http_url. destruct u as [|c r]; [reflexivity|].
  cbn [truthy String.eqb negb andb startswith].
  destruct (Ascii.eqb "h" c) eqn:E; [|reflexivity].
  apply Ascii.eqb_eq in E. subst c. destruct H as [H|H]; discriminate H.
Qed.

(** X18: the validator and the engine do not ignore the same icon
    overrides: [validate_url] accepts the markers [none] and
    [_no response_] in any letter case as an empty value, while
    [process_app] sets aside only the spellings [None] and
    [_No response_]; in any other case the marker passes validation, is
    taken as the icon URL and, not being an http(s) URL, is never a
    square image. *)
Theorem validate_url_marker_case (env : Env) (u : string) :
  lower u = "none" \/ lower u = "_no response_" ->
  u <> "None" -> u <> "_No response_" ->
  validate_url (Some u) = (true, EmptyString) /\
  usable_icon (Some u) = true /\
  is_http_url u = false /\ is_square_image env u = false.
Proof.
  intros Hl H1 H2. split; [|split; [|split]].
  - unfold validate_url, ignorable_url.
    destruct Hl as [-> | ->]; cbn; rewrite ?orb_true_r; reflexivity.
  - unfold usable_icon. apply String.eqb_neq in H1, H2. rewrite H1, H2.
    destruct u; [destruct Hl; discriminate | reflexivity].
  - apply lower_none_not_http. exact Hl.
  - unfold is_square_image. rewrite (lower_none_not_http u Hl). reflexivity.
Qed.

Lemma validate_url_marker_case_witness :
  validate_url (Some "none") = (true, EmptyString) /\
  usable_icon (Some "none") = true /\
  is_http_url "none" = false /\ is_square_image foo_upstream "none" = false.
Proof.
  apply (validate_url_marker_case foo_upstream "none").
  - left. reflexivity.
  - discriminate.
  - discriminate.
Defined.

(** ** The check of the curated lists *)











(** ** Requests to add or remove an app *)




















(** ** Requests and the check of the lists *)











(** ** When the refresh raises *)



